(** * AFD (Advanced File Deduplicator): a shallow embedding of
    [advanced_dedup.cpp] and the properties of its duplicate-detection
    pipeline, retention planner and deleter.

    Conventions of the embedding.
    - [size_t] and [uintmax_t] are the same 64-bit unsigned type (the source
      passes both to one [std::min], which only compiles when they coincide);
      they are values of [N] and every operation that can wrap is written
      with [wrap64].  [uint32_t] is [N] with [wrap32].
    - Positions in a [std::vector] are [nat]; the 1-based member numbers kept
      in a [std::set<size_t>] are elements of a [gset nat].
    - The filesystem, standard input, the console and the log of read
      operations form the [world] threaded by the monad [M]; C++ exceptions
      are the [Raise] outcome, undefined behaviour (indexing a vector out of
      range, dividing by zero, reading an indeterminate value) is
      [Undefined], and a loop that is cut off by its bound is [OutOfFuel].
    - Console output is modelled by the events of [out_event]; pure progress
      chatter and the localized wording are left out.
    - The file is organised as: the embedding of the source, the
      definitions that follow the words of the specification, auxiliary
      definitions of the proofs, sample data, and the properties. *)

From Stdlib Require Import ZArith NArith Lia List Ascii String DecimalString.
From Stdlib Require Import Strings.Byte.
From Equations Require Import Equations.
From stdpp Require Import base option list sorting gmap sets strings.

Import ListNotations.
Local Open Scope N_scope.

(** ** Machine integers *)

Definition wrap64 (n : N) : N := n mod 2 ^ 64.
Definition wrap32 (n : N) : N := n mod 2 ^ 32.
Definition SIZE_MAX : N := 2 ^ 64 - 1.
Definition INT_MIN : Z := (- 2 ^ 31)%Z.
Definition INT_MAX : Z := (2 ^ 31 - 1)%Z.

(** [std::to_string] of an unsigned integer: its decimal digits. *)
Definition to_string (n : N) : string := NilEmpty.string_of_uint (N.to_uint n).

#[global] Instance byte_eq_decision : EqDecision byte := Byte.byte_eq_dec.

(** ** Paths, files and the filesystem *)

(** A [fs::path] is kept as its two projections used by the program. *)
Record path := Path { parent_path : string; filename : string }.

#[global] Instance path_eq_dec : EqDecision path.
Proof. solve_decision. Defined.

#[global] Instance path_countable : Countable path.
Proof.
  refine (inj_countable' (λ p, (parent_path p, filename p))
                         (λ q, Path q.1 q.2) _).
  by intros [].
Defined.

(** A regular file: its bytes, its last write time, and whether the
    operating system lets the program open it for reading or remove it. *)
Record file := File {
  content : list byte;
  mtime : Z;
  can_open : bool;
  can_remove : bool
}.

Abbreviation filesystem := (gmap path file).

(** [fs::file_size] of the file.  A file holds fewer than [2^64] bytes on
    every system the program runs on, so the size itself is not wrapped;
    the properties that depend on it state the bound they need. *)
Definition file_len (f : file) : N := N.of_nat (length (content f)).

(** ** Observable effects *)

Inductive io_event :=
| EvOpen (p : path)
| EvRead (p : path) (count : N).

Inductive out_event :=
| OutAutoConfirm (question : string)
| OutPrompt (question : string) (defaultYes : bool)
| OutListGroups
| OutShowGroup (groupNum : Z)
| OutShowRetention (keepFiles : list (gset nat))
| OutStrategyMenu
| OutInvalidStrategy
| OutAppliedAll (strategy : string)
| OutApplied (groupNum : Z) (strategy : string)
| OutGroupOutOfRange (groupNum : Z) (groups : nat)
| OutInvalidGroup (groupInput : string)
| OutInvalidInput (input : string)
| OutCurrentKeep (keepSet : gset nat)
| OutInvalidChar (c : ascii)
| OutFileNumOutOfRange (fileNum : Z) (members : nat)
| OutUpdated (groupNum : Z) (keepSet : gset nat)
| OutNeedOne
| OutDeleted (i : nat) (name : string)
| OutSimulated (i : nat) (name : string)
| ErrDeleteFailed (i : nat) (p : path)
| ErrCompareFailed (p : path)
| OutReport (successfullyDeleted failedToDelete : Z) (actualSpaceSaved : N)
| OutDryRunNotice
| OutCancelled.

Record world := World {
  w_fs : filesystem;
  w_stdin : list string;
  w_stdout : list out_event;
  w_io : list io_event
}.

Inductive exn :=
| filesystem_error (p : path)
| runtime_error (p : path)
| invalid_argument
| out_of_range
| length_error.

Inductive res (A : Type) :=
| Ret (a : A)
| Raise (e : exn)
| Undefined
| OutOfFuel.
Arguments Ret {A} a.
Arguments Raise {A} e.
Arguments Undefined {A}.
Arguments OutOfFuel {A}.

(** ** The monad of the program: state of the world plus an outcome *)

Definition M (A : Type) : Type := world → res A * world.

Definition mret {A} (a : A) : M A := λ w, (Ret a, w).
Definition bind {A B} (m : M A) (f : A → M B) : M B := λ w,
  match m w with
  | (Ret a, w') => f a w'
  | (Raise e, w') => (Raise e, w')
  | (Undefined, w') => (Undefined, w')
  | (OutOfFuel, w') => (OutOfFuel, w')
  end.

Notation "'let*' x ':=' m 'in' k" := (bind m (λ x, k))
  (at level 10, x pattern, m at level 100, k at level 200).
Notation "m ';;' k" := (bind m (λ _, k))
  (at level 100, k at level 200, right associativity).

Definition throw {A} (e : exn) : M A := λ w, (Raise e, w).
Definition undefined {A} : M A := λ w, (Undefined, w).
Definition out_of_fuel {A} : M A := λ w, (OutOfFuel, w).

(** [try { body } catch (const std::exception& e) { handler }] *)
Definition try_catch {A} (body : M A) (handler : exn → M A) : M A := λ w,
  match body w with
  | (Raise e, w') => handler e w'
  | r => r
  end.

Definition get_fs : M filesystem := λ w, (Ret (w_fs w), w).
Definition put_fs (fs : filesystem) : M unit := λ w,
  (Ret tt, World fs (w_stdin w) (w_stdout w) (w_io w)).
Definition emit (e : out_event) : M unit := λ w,
  (Ret tt, World (w_fs w) (w_stdin w) (w_stdout w ++ [e]) (w_io w)).
Definition log_io (e : io_event) : M unit := λ w,
  (Ret tt, World (w_fs w) (w_stdin w) (w_stdout w) (w_io w ++ [e])).

(** [std::getline(std::cin, s)]: the next line, or the empty string once the
    input is exhausted. *)
Definition getline : M string := λ w,
  match w_stdin w with
  | [] => (Ret EmptyString, w)
  | l :: rest => (Ret l, World (w_fs w) rest (w_stdout w) (w_io w))
  end.

(** ** Filesystem port *)

(** [fs::file_size]: throws when the path does not name a file. *)
Definition getFileSize (filepath : path) : M N :=
  let* fs := get_fs in
  match fs !! filepath with
  | Some f => mret (file_len f)
  | None => throw (filesystem_error filepath)
  end.

(** [fs::last_write_time] *)
Definition last_write_time (filepath : path) : M Z :=
  let* fs := get_fs in
  match fs !! filepath with
  | Some f => mret (mtime f)
  | None => throw (filesystem_error filepath)
  end.

(** An open [std::ifstream]: the path, the bytes of the file and the read
    position; a stream that failed to open is [None]. *)
Record ifstream := Stream { s_path : path; s_data : list byte; s_pos : N }.

Definition ifstream_open (filepath : path) : M (option ifstream) :=
  log_io (EvOpen filepath);;
  let* fs := get_fs in
  match fs !! filepath with
  | Some f => mret (if can_open f then Some (Stream filepath (content f) 0) else None)
  | None => mret None
  end.

(** [file.seekg(pos)] *)
Definition seekg (s : ifstream) (pos : N) : ifstream :=
  Stream (s_path s) (s_data s) pos.

(** [file.read(buffer, n)]: the bytes delivered (their number is
    [gcount()]) and the advanced stream. *)
Definition stream_read (s : ifstream) (n : N) : M (list byte * ifstream) :=
  let got := take (N.to_nat n) (drop (N.to_nat (s_pos s)) (s_data s)) in
  log_io (EvRead (s_path s) (N.of_nat (length got)));;
  mret (got, Stream (s_path s) (s_data s) (s_pos s + N.of_nat (length got))).

(** ** Sparse fingerprinter *)

(** [std::sort(first, last, less)]: the ascending arrangement, built by
    insertion.  The program only sorts by comparators under which elements
    that compare equivalent are interchangeable or absent, except in
    [collectAllSubfolders], see there. *)
Fixpoint sort_insert {A} (less : A → A → bool) (x : A) (l : list A) : list A :=
  match l with
  | [] => [x]
  | y :: tl => if less y x then y :: sort_insert less x tl else x :: l
  end.

Definition std_sort {A} (less : A → A → bool) (l : list A) : list A :=
  foldr (sort_insert less) [] l.

(** [v.erase(std::unique(v.begin(), v.end()), v.end())]: every run of equal
    neighbours collapses to one element. *)
Fixpoint std_unique (l : list N) : list N :=
  match l with
  | [] => []
  | x :: tl =>
      match tl with
      | [] => [x]
      | y :: _ => if x =? y then std_unique tl else x :: std_unique tl
      end
  end.

(** The rolling hash of one sample window, in [uint32_t]. *)
Definition simpleHash (buffer : list byte) : N :=
  fold_left (λ h b, wrap32 (h * 31 + Byte.to_N b)) buffer 0.

(** Unsigned 64-bit subtraction. *)
Definition sub64 (a b : N) : N := wrap64 (a + 2 ^ 64 - b).

(** The values of the loop variable of [for (i = 1; i <= samplePoints; ++i)]. *)
Definition sample_indices (samplePoints : N) : list N :=
  map N.of_nat (seq 1 (N.to_nat samplePoints)).

(** [std::vector<uintmax_t> keyPositions] as it is when the sampling loop
    starts. *)
Definition keyPositions (samplePoints sampleSize size : N) : list N :=
  let kp := [0] in
  let kp := fold_left (λ kp i, kp ++ [wrap64 (size * i) / wrap64 (samplePoints + 1)])
                      (sample_indices samplePoints) kp in
  let kp := kp ++ [sub64 size (N.min sampleSize size)] in
  std_unique (std_sort N.ltb kp).

(** The body of [for (uintmax_t pos : keyPositions)]. *)
Fixpoint sample_loop (sampleSize size : N) (filepath : path) (file : ifstream)
    (positions : list N) (signature : string) : M string :=
  match positions with
  | [] => mret signature
  | pos :: rest =>
      let readSize := N.min sampleSize (sub64 size pos) in
      let file := seekg file pos in
      let* (buffer, file) := stream_read file readSize in
      if negb (N.of_nat (length buffer) =? readSize)
      then throw (runtime_error filepath)
      else sample_loop sampleSize size filepath file rest
             (signature +:+ to_string (simpleHash buffer) +:+ "|")
  end.

(** The largest [std::vector<char>] that can be requested. *)
Definition vector_max_size : N := 2 ^ 63 - 1.

(** ** The class [InteractiveFileDeduplicator]

    Its data members are the variables of the section; the directory
    iterators of [std::filesystem], whose order of enumeration is left open
    by the library, are taken as the filesystem port of the class. *)
Section InteractiveFileDeduplicator.

Variables (dryRun verbose autoConfirm skipEmptyFolders : bool).
Variables (samplePoints sampleSize : N).
Variable (mode : string).

(** [fs::exists(d) && fs::is_directory(d)] *)
Variable is_directory : string → bool.
(** The regular files met by [fs::directory_iterator(d)], in its order. *)
Variable directory_iterator : filesystem → string → list path.
(** The regular files met by [fs::recursive_directory_iterator(d)]. *)
Variable recursive_directory_iterator : filesystem → string → list path.
(** The directories met by [fs::recursive_directory_iterator(d)]. *)
Variable recursive_directories : string → list string.

Definition generateFileSignature (filepath : path) : M string :=
  let* size := getFileSize filepath in
  let signature := to_string size +:+ "|" in
  if size <=? wrap64 (sampleSize * 2) then mret (signature +:+ "SMALL") else
  let* file := ifstream_open filepath in
  match file with
  | None => throw (runtime_error filepath)
  | Some file =>
      if wrap64 (samplePoints + 1) =? 0 then undefined else
      let positions := keyPositions samplePoints sampleSize size in
      if vector_max_size <? sampleSize then throw length_error else
      sample_loop sampleSize size filepath file positions signature
  end.

(** ** Exact comparator *)

Definition bufferSize : N := 1024 * 64.

(** [memcmp(buffer1, buffer2, n) != 0] on the bytes just read. *)
Definition memcmp_differs (buffer1 buffer2 : list byte) : bool :=
  negb (bool_decide (buffer1 = buffer2)).

(** The [while (totalRead < size1)] loop; every iteration reads at least
    one byte, so [size1] iterations of fuel are never used up. *)
Fixpoint compare_loop (fuel : nat) (size1 : N) (f1 f2 : ifstream) (totalRead : N)
    : M bool :=
  if totalRead <? size1 then
    match fuel with
    | O => out_of_fuel
    | S fuel =>
        let toRead := N.min bufferSize (size1 - totalRead) in
        let* (buffer1, f1) := stream_read f1 toRead in
        let* (buffer2, f2) := stream_read f2 toRead in
        let bytesRead1 := N.of_nat (length buffer1) in
        let bytesRead2 := N.of_nat (length buffer2) in
        if negb (bytesRead1 =? bytesRead2) || negb (bytesRead1 =? toRead)
        then mret false
        else if memcmp_differs buffer1 buffer2 then mret false
        else compare_loop fuel size1 f1 f2 (totalRead + toRead)
    end
  else mret true.

Definition areFilesIdentical (file1 file2 : path) : M bool :=
  let* size1 := getFileSize file1 in
  let* size2 := getFileSize file2 in
  if negb (size1 =? size2) then mret false else
  if size1 =? 0 then mret true else
  let* f1 := ifstream_open file1 in
  let* f2 := ifstream_open file2 in
  match f1, f2 with
  | Some f1, Some f2 => compare_loop (N.to_nat size1) size1 f1 f2 0
  | _, _ => mret false
  end.

(** [findExactDuplicates]: the inner loop [for (j = i + 1; j < n; ++j)];
    [count] is the number of iterations left. *)
Fixpoint exact_inner_loop (candidateGroup : list path) (i count j : nat)
    (processed : list bool) (duplicateGroup : list path)
    : M (list bool * list path) :=
  match count with
  | O => mret (processed, duplicateGroup)
  | S count =>
      match (processed !! j : option bool), (candidateGroup !! i : option path),
            (candidateGroup !! j : option path) with
      | Some pj, Some ci, Some cj =>
          if pj then
            exact_inner_loop candidateGroup i count (S j) processed duplicateGroup
          else
            let* (processed, duplicateGroup) :=
              try_catch
                (let* same := areFilesIdentical ci cj in
                 if same
                 then mret (<[j:=true]> processed, duplicateGroup ++ [cj])
                 else mret (processed, duplicateGroup))
                (λ e, emit (ErrCompareFailed cj);;
                      mret (processed, duplicateGroup)) in
            exact_inner_loop candidateGroup i count (S j) processed duplicateGroup
      | _, _, _ => undefined
      end
  end.

(** The outer loop [for (i = 0; i < n; ++i)]. *)
Fixpoint exact_outer_loop (candidateGroup : list path) (count i : nat)
    (processed : list bool) (duplicateGroups : list (list path))
    : M (list (list path)) :=
  match count with
  | O => mret duplicateGroups
  | S count =>
      match (processed !! i : option bool), (candidateGroup !! i : option path) with
      | Some pi, Some ci =>
          if pi then
            exact_outer_loop candidateGroup count (S i) processed duplicateGroups
          else
            let duplicateGroup := [ci] in
            let processed := <[i:=true]> processed in
            let* (processed, duplicateGroup) :=
              exact_inner_loop candidateGroup i
                (length candidateGroup - (i + 1)) (i + 1) processed duplicateGroup in
            let duplicateGroups :=
              if (1 <? length duplicateGroup)%nat
              then duplicateGroups ++ [duplicateGroup] else duplicateGroups in
            exact_outer_loop candidateGroup count (S i) processed duplicateGroups
      | _, _ => undefined
      end
  end.

Definition findExactDuplicates (candidateGroup : list path) : M (list (list path)) :=
  let duplicateGroups := [] in
  let processed := replicate (length candidateGroup) false in
  exact_outer_loop candidateGroup (length candidateGroup) 0 processed duplicateGroups.

(** [askForConfirmation] *)
Definition tolower (c : ascii) : ascii :=
  let n := N_of_ascii c in
  if (65 <=? n) && (n <=? 90) then ascii_of_N (n + 32) else c.

Definition askForConfirmation (question : string) (defaultYes : bool) : M bool :=
  if autoConfirm then
    emit (OutAutoConfirm question);;
    mret true
  else
    emit (OutPrompt question defaultYes);;
    let* response := getline in
    match response with
    | EmptyString => mret defaultYes
    | String c _ => let firstChar := tolower c in
                    mret (bool_decide (firstChar = "y"%char))
    end.

(** The display functions print sizes and times of the members, so they
    throw when a member has disappeared. *)
Fixpoint for_each {A} (l : list A) (i : nat) (body : nat → A → M unit) : M unit :=
  match l with
  | [] => mret tt
  | x :: tl => body i x;; for_each tl (S i) body
  end.

Definition show_member (p : path) : M unit :=
  getFileSize p;; last_write_time p;; mret tt.

Definition displayDuplicateGroupsWithNumbers (duplicateGroups : list (list path))
    : M unit :=
  emit OutListGroups;;
  for_each duplicateGroups 0%nat (λ groupIndex group,
    match group with
    | [] => undefined
    | first :: _ => getFileSize first;; for_each group 0%nat (λ i p, show_member p)
    end).

Definition displaySingleGroup (group : list path) (groupIndex : Z) : M unit :=
  emit (OutShowGroup groupIndex);;
  for_each group 0%nat (λ i p, show_member p).

Definition displayModifiedRetention (duplicateGroups : list (list path))
    (keepFiles : list (gset nat)) : M unit :=
  emit (OutShowRetention keepFiles);;
  for_each duplicateGroups 0%nat (λ groupIndex group,
    match keepFiles !! groupIndex with
    | None => undefined
    | Some keepSet =>
        for_each group 0%nat (λ i p,
          let willKeep := bool_decide ((i + 1)%nat ∈ keepSet) in
          if negb willKeep then getFileSize p;; mret tt else mret tt)
    end).

(** [autoSelectKeepFiles] *)

(** [operator<] of [std::pair<fs::file_time_type, size_t>]. *)
Definition pair_less (a b : Z * nat) : bool :=
  (a.1 <? b.1)%Z || ((a.1 =? b.1)%Z && (a.2 <? b.2)%nat).

(** [std::greater<>] on the same pairs. *)
Definition pair_greater (a b : Z * nat) : bool := pair_less b a.

Fixpoint collect_times (group : list path) (i : nat) (times : list (Z * nat))
    : M (list (Z * nat)) :=
  match group with
  | [] => mret times
  | p :: rest =>
      let* t := last_write_time p in
      collect_times rest (S i) (times ++ [(t, (i + 1)%nat)])
  end.

Definition name_length (p : path) : N := N.of_nat (String.length (filename p)).

Fixpoint longest_loop (group : list path) (i : nat) (maxLength : N) (keepIndex : nat)
    : nat :=
  match group with
  | [] => keepIndex
  | p :: rest =>
      let length := name_length p in
      if maxLength <? length
      then longest_loop rest (S i) length (i + 1)%nat
      else longest_loop rest (S i) maxLength keepIndex
  end.

Fixpoint shortest_loop (group : list path) (i : nat) (minLength : N) (keepIndex : nat)
    : nat :=
  match group with
  | [] => keepIndex
  | p :: rest =>
      let length := name_length p in
      if length <? minLength
      then shortest_loop rest (S i) length (i + 1)%nat
      else shortest_loop rest (S i) minLength keepIndex
  end.

Definition autoSelectKeepFiles (group : list path) (strategy : string)
    : M (gset nat) :=
  let keepSet : gset nat := ∅ in
  if decide (strategy = "newest") then
    let* times := collect_times group 0%nat [] in
    match std_sort pair_greater times with
    | [] => undefined
    | first :: _ => mret ({[ first.2 ]} ∪ keepSet)
    end
  else if decide (strategy = "oldest") then
    let* times := collect_times group 0%nat [] in
    match std_sort pair_less times with
    | [] => undefined
    | first :: _ => mret ({[ first.2 ]} ∪ keepSet)
    end
  else if decide (strategy = "longest-name") then
    let keepIndex := longest_loop group 0%nat 0 1%nat in
    mret ({[ keepIndex ]} ∪ keepSet)
  else if decide (strategy = "shortest-name") then
    let keepIndex := shortest_loop group 0%nat SIZE_MAX 1%nat in
    mret ({[ keepIndex ]} ∪ keepSet)
  else mret keepSet.

(** *** Reading numbers *)

Definition isspace (c : ascii) : bool :=
  let n := N_of_ascii c in (n =? 32) || ((9 <=? n) && (n <=? 13)).

Definition isdigit (c : ascii) : bool :=
  let n := N_of_ascii c in (48 <=? n) && (n <=? 57).

Definition digit_value (c : ascii) : Z := Z.of_N (N_of_ascii c) - 48.

Fixpoint skip_spaces (s : string) : string :=
  match s with
  | String c rest => if isspace c then skip_spaces rest else s
  | EmptyString => s
  end.

(** The value of the longest prefix of decimal digits, [None] when the
    string does not start with a digit. *)
Fixpoint leading_digits (s : string) (acc : option Z) : option Z :=
  match s with
  | String c rest =>
      if isdigit c
      then leading_digits rest (Some (default 0 acc * 10 + digit_value c))%Z
      else acc
  | EmptyString => acc
  end.

(** An optionally signed decimal integer after leading white space, as
    [strtol] and [num_get] accept it. *)
Definition parse_integer (s : string) : option Z :=
  match skip_spaces s with
  | String "-" rest => Z.opp <$> leading_digits rest None
  | String "+" rest => leading_digits rest None
  | rest => leading_digits rest None
  end.

(** [std::stoi] *)
Definition stoi (s : string) : M Z :=
  match parse_integer s with
  | None => throw invalid_argument
  | Some v =>
      if (v <? INT_MIN)%Z || (INT_MAX <? v)%Z then throw out_of_range else mret v
  end.

Fixpoint skip_word (s : string) : string :=
  match s with
  | String c rest => if isspace c then s else skip_word rest
  | EmptyString => s
  end.

(** [ss >> cmd >> groupNum] on a line that starts with the command word:
    a failed conversion stores 0, an overflowing one the nearest [int];
    when nothing but white space follows the word the extraction does not
    start and [groupNum] keeps its indeterminate value. *)
Definition extract_group_number (input : string) : M Z :=
  let rest := skip_spaces (skip_word input) in
  match rest with
  | EmptyString => undefined
  | _ =>
      match parse_integer rest with
      | None => mret 0%Z
      | Some v => mret (Z.max INT_MIN (Z.min INT_MAX v))
      end
  end.

Definition tolower_string (s : string) : string :=
  string_of_list_ascii (map tolower (list_ascii_of_string s)).

(** *** Interactive retention loop *)

(** The strategy menu, written out twice in the source ([all] and [auto]). *)
Definition choose_strategy : M string :=
  emit OutStrategyMenu;;
  let* strategyInput := getline in
  if decide (strategyInput = "1") then mret "newest"
  else if decide (strategyInput = "2") then mret "oldest"
  else if decide (strategyInput = "3") then mret "longest-name"
  else if decide (strategyInput = "4") then mret "shortest-name"
  else emit OutInvalidStrategy;; mret "newest".

(** [for (i = 0; i < duplicateGroups.size(); ++i) keepFiles[i] = ...] *)
Fixpoint all_loop (duplicateGroups : list (list path)) (strategy : string) (i : nat)
    (keepFiles : list (gset nat)) : M (list (gset nat)) :=
  match duplicateGroups with
  | [] => mret keepFiles
  | group :: rest =>
      let* keepSet := autoSelectKeepFiles group strategy in
      all_loop rest strategy (S i) (<[i:=keepSet]> keepFiles)
  end.

(** [for (char c : selection)]: the set collected and the [validInput]
    flag when the loop is left. *)
Fixpoint selection_loop (selection : string) (members : nat) (newKeepSet : gset nat)
    : M (gset nat * bool) :=
  match selection with
  | EmptyString => mret (newKeepSet, true)
  | String c rest =>
      if (N_of_ascii c <? N_of_ascii "1") || (N_of_ascii "9" <? N_of_ascii c) then
        emit (OutInvalidChar c);;
        mret (newKeepSet, false)
      else
        let fileNum := (Z.of_N (N_of_ascii c) - Z.of_N (N_of_ascii "0"))%Z in
        if (fileNum <? 1)%Z || (Z.of_nat members <? fileNum)%Z then
          emit (OutFileNumOutOfRange fileNum members);;
          mret (newKeepSet, false)
        else
          selection_loop rest members ({[ Z.to_nat fileNum ]} ∪ newKeepSet)
  end.

Inductive loop_ctl := Continue | Break.

Definition group_out_of_range (groupNum : Z) (duplicateGroups : list (list path)) : bool :=
  (groupNum <? 1)%Z || (Z.of_nat (length duplicateGroups) <? groupNum)%Z.

(** The branch of the command [all]. *)
Definition all_command (duplicateGroups : list (list path))
    (keepFiles : list (gset nat)) : M (loop_ctl * list (gset nat)) :=
  let* strategy := choose_strategy in
  let* keepFiles := all_loop duplicateGroups strategy 0%nat keepFiles in
  emit (OutAppliedAll strategy);;
  displayModifiedRetention duplicateGroups keepFiles;;
  mret (Continue, keepFiles).

(** The branch of the commands that start with [view]. *)
Definition view_command (duplicateGroups : list (list path))
    (keepFiles : list (gset nat)) (input : string) : M (loop_ctl * list (gset nat)) :=
  let* groupNum := extract_group_number input in
  (if group_out_of_range groupNum duplicateGroups then
     emit (OutGroupOutOfRange groupNum (length duplicateGroups))
   else
     match duplicateGroups !! Z.to_nat (groupNum - 1) with
     | Some group => displaySingleGroup group groupNum
     | None => undefined
     end);;
  mret (Continue, keepFiles).

(** The branch of the command [auto]. *)
Definition auto_command (duplicateGroups : list (list path))
    (keepFiles : list (gset nat)) : M (loop_ctl * list (gset nat)) :=
  let* groupInput := getline in
  try_catch
    (let* groupNum := stoi groupInput in
     if group_out_of_range groupNum duplicateGroups then
       emit (OutGroupOutOfRange groupNum (length duplicateGroups));;
       mret (Continue, keepFiles)
     else
       let* strategy := choose_strategy in
       match duplicateGroups !! Z.to_nat (groupNum - 1) with
       | Some group =>
           let* keepSet := autoSelectKeepFiles group strategy in
           let keepFiles := <[Z.to_nat (groupNum - 1) := keepSet]> keepFiles in
           emit (OutApplied groupNum strategy);;
           mret (Continue, keepFiles)
       | None => undefined
       end)
    (λ e, emit (OutInvalidGroup groupInput);;
          mret (Continue, keepFiles)).

(** The last branch: the line is taken as a group number and the
    members to keep are read. *)
Definition group_command (duplicateGroups : list (list path))
    (keepFiles : list (gset nat)) (input : string) : M (loop_ctl * list (gset nat)) :=
  try_catch
    (let* groupNum := stoi input in
     if group_out_of_range groupNum duplicateGroups then
       emit (OutGroupOutOfRange groupNum (length duplicateGroups));;
       mret (Continue, keepFiles)
     else
       match duplicateGroups !! Z.to_nat (groupNum - 1),
             keepFiles !! Z.to_nat (groupNum - 1) with
       | Some group, Some current =>
           displaySingleGroup group groupNum;;
           emit (OutCurrentKeep current);;
           let* selection := getline in
           let* (newKeepSet, validInput) := selection_loop selection (length group) ∅ in
           if validInput && negb (bool_decide (newKeepSet = ∅)) then
             let keepFiles := <[Z.to_nat (groupNum - 1) := newKeepSet]> keepFiles in
             emit (OutUpdated groupNum newKeepSet);;
             mret (Continue, keepFiles)
           else if bool_decide (newKeepSet = ∅) then
             emit OutNeedOne;;
             mret (Continue, keepFiles)
           else mret (Continue, keepFiles)
       | _, _ => undefined
       end)
    (λ e, emit (OutInvalidInput input);;
          mret (Continue, keepFiles)).

(** One pass through the body of [while (true)]: the chain of tests on the
    command, each with its branch. *)
Definition retention_iteration (duplicateGroups : list (list path))
    (keepFiles : list (gset nat)) : M (loop_ctl * list (gset nat)) :=
  let* input := getline in
  if decide (input = "") then mret (Continue, keepFiles) else
  let command := tolower_string input in
  if decide (command = "done") then mret (Break, keepFiles)
  else if decide (command = "list") then
    displayDuplicateGroupsWithNumbers duplicateGroups;;
    mret (Continue, keepFiles)
  else if decide (command = "all") then all_command duplicateGroups keepFiles
  else if String.prefix "view" command then view_command duplicateGroups keepFiles input
  else if decide (command = "auto") then auto_command duplicateGroups keepFiles
  else group_command duplicateGroups keepFiles input.

(** [while (true)] with a bound on the number of commands read; the loop of
    the source has none and only leaves on [done]. *)
Fixpoint retention_loop (fuel : nat) (duplicateGroups : list (list path))
    (keepFiles : list (gset nat)) : M (list (gset nat)) :=
  match fuel with
  | O => out_of_fuel
  | S fuel =>
      let* (ctl, keepFiles) := retention_iteration duplicateGroups keepFiles in
      match ctl with
      | Break => mret keepFiles
      | Continue => retention_loop fuel duplicateGroups keepFiles
      end
  end.

Definition default_plan (duplicateGroups : list (list path)) : list (gset nat) :=
  replicate (length duplicateGroups) {[ 1%nat ]}.

Definition letUserModifyRetention (fuel : nat) (duplicateGroups : list (list path))
    : M (list (gset nat)) :=
  let keepFiles := default_plan duplicateGroups in
  retention_loop fuel duplicateGroups keepFiles.

(** *** Deleter *)

(** [fs::remove]: removes the file and returns [true]; returns [false] when
    there is nothing to remove; throws when the system refuses. *)
Definition fs_remove (p : path) : M bool :=
  let* fs := get_fs in
  match fs !! p with
  | None => mret false
  | Some f =>
      if can_remove f then put_fs (delete p fs);; mret true
      else throw (filesystem_error p)
  end.

Record counters := Counters {
  successfullyDeleted : Z;
  failedToDelete : Z;
  actualSpaceSaved : N
}.

(** [for (i = 0; i < group.size(); ++i)] of the deleter. *)
Fixpoint delete_members (group : list path) (keepSet : gset nat) (i : nat)
    (c : counters) : M counters :=
  match group with
  | [] => mret c
  | p :: rest =>
      if bool_decide ((i + 1)%nat ∈ keepSet) then delete_members rest keepSet (S i) c
      else
        let* fileSize := getFileSize p in
        let* c :=
          try_catch
            ((if negb dryRun then
                fs_remove p;;
                emit (OutDeleted (i + 1) (filename p))
              else
                emit (OutSimulated (i + 1) (filename p)));;
             mret (Counters (successfullyDeleted c + 1) (failedToDelete c)
                            (wrap64 (actualSpaceSaved c + fileSize))))
            (λ e, emit (ErrDeleteFailed (i + 1) p);;
                  mret (Counters (successfullyDeleted c) (failedToDelete c + 1)
                                 (actualSpaceSaved c))) in
        delete_members rest keepSet (S i) c
  end.

(** [for (groupIndex = 0; groupIndex < duplicateGroups.size(); ++groupIndex)] *)
Fixpoint delete_groups (duplicateGroups : list (list path))
    (keepFiles : list (gset nat)) (groupIndex : nat) (c : counters) : M counters :=
  match duplicateGroups with
  | [] => mret c
  | group :: rest =>
      match keepFiles !! groupIndex with
      | None => undefined
      | Some keepSet =>
          let* c := delete_members group keepSet 0%nat c in
          delete_groups rest keepFiles (S groupIndex) c
      end
  end.

Definition deletion_report (c : counters) : M unit :=
  emit (OutReport (successfullyDeleted c) (failedToDelete c) (actualSpaceSaved c));;
  if dryRun then emit OutDryRunNotice else mret tt.

Definition performDeletionWithCustomRetention (duplicateGroups : list (list path))
    (keepFiles : list (gset nat)) : M unit :=
  let* c := delete_groups duplicateGroups keepFiles 0%nat (Counters 0 0 0) in
  deletion_report c.

(** The body is the one of [performDeletionWithCustomRetention];
    [totalSpaceSaved] is not used. *)
Definition performGlobalDeletionWithCustomRetention (duplicateGroups : list (list path))
    (keepFiles : list (gset nat)) (totalSpaceSaved : N) : M unit :=
  let* c := delete_groups duplicateGroups keepFiles 0%nat (Counters 0 0 0) in
  deletion_report c.

(** *** Scan orchestrator *)

Record DeduplicationResult := Result {
  duplicateGroups_of : list (list path);
  totalFiles : Z;
  totalSize : N;
  error : string
}.

(** A [std::map<K, std::vector<fs::path>>]: the entries in ascending key
    order; [m[k].push_back(p)]. *)
Fixpoint map_push_back {K} (less : K → K → bool) (k : K) (p : path)
    (m : list (K * list path)) : list (K * list path) :=
  match m with
  | [] => [(k, [p])]
  | (k', ps) :: tl =>
      if less k k' then (k, [p]) :: m
      else if less k' k then (k', ps) :: map_push_back less k p tl
      else (k', ps ++ [p]) :: tl
  end.

(** First tier: bucket by size. *)
Fixpoint size_tier (entries : list path) (sizeGroups : list (N * list path))
    (files : Z) (bytes : N) : M (list (N * list path) * Z * N) :=
  match entries with
  | [] => mret (sizeGroups, files, bytes)
  | entry :: rest =>
      let* (sizeGroups, files, bytes) :=
        try_catch
          (let* size := getFileSize entry in
           mret (map_push_back N.ltb size entry sizeGroups,
                 (files + 1)%Z, wrap64 (bytes + size)))
          (λ e, mret (sizeGroups, files, bytes)) in
      size_tier rest sizeGroups files bytes
  end.

(** Second tier: split the buckets of two or more files by fingerprint. *)
Fixpoint signature_files (files : list path) (signatureGroups : list (string * list path))
    : M (list (string * list path)) :=
  match files with
  | [] => mret signatureGroups
  | filepath :: rest =>
      let* signatureGroups :=
        try_catch
          (let* signature := generateFileSignature filepath in
           mret (map_push_back String.ltb signature filepath signatureGroups))
          (λ e, mret signatureGroups) in
      signature_files rest signatureGroups
  end.

Fixpoint signature_tier (sizeGroups : list (N * list path))
    (signatureGroups : list (string * list path)) : M (list (string * list path)) :=
  match sizeGroups with
  | [] => mret signatureGroups
  | (_, files) :: rest =>
      let* signatureGroups :=
        if (1 <? length files)%nat then signature_files files signatureGroups
        else mret signatureGroups in
      signature_tier rest signatureGroups
  end.

(** Third tier: byte comparison inside every fingerprint bucket. *)
Fixpoint exact_tier (signatureGroups : list (string * list path))
    (duplicateGroups : list (list path)) : M (list (list path)) :=
  match signatureGroups with
  | [] => mret duplicateGroups
  | (_, files) :: rest =>
      let* duplicateGroups :=
        if (1 <? length files)%nat then
          let* found := findExactDuplicates files in
          mret (duplicateGroups ++ found)
        else mret duplicateGroups in
      exact_tier rest duplicateGroups
  end.

Definition scan (entries : list path) : M DeduplicationResult :=
  let* (sizeGroups, files, bytes) := size_tier entries [] 0%Z 0 in
  let* signatureGroups := signature_tier sizeGroups [] in
  let* duplicateGroups := exact_tier signatureGroups [] in
  mret (Result duplicateGroups files bytes "").

Definition findDuplicatesInFolder (folder : string) : M DeduplicationResult :=
  if negb (is_directory folder) then mret (Result [] 0 0 "not a directory") else
  let* fs := get_fs in
  scan (directory_iterator fs folder).

Definition findDuplicatesInFolderRecursive (folder : string) : M DeduplicationResult :=
  if negb (is_directory folder) then mret (Result [] 0 0 "not a directory") else
  let* fs := get_fs in
  scan (recursive_directory_iterator fs folder).

(** The savings announced before the prompts; the loop reads the size of
    the first member of every group. *)
Fixpoint savable (duplicateGroups : list (list path)) (spaceSavable : N) : M N :=
  match duplicateGroups with
  | [] => mret spaceSavable
  | group :: rest =>
      match group with
      | [] => undefined
      | first :: _ =>
          let* size := getFileSize first in
          savable rest (wrap64 (spaceSavable + size * (N.of_nat (length group) - 1)))
      end
  end.

(** The part shared by [processSingleFolder] and the global branch of
    [deduplicate]: display, retention prompt, confirmation prompt. *)
Definition plan_and_confirm (fuel : nat) (duplicateGroups : list (list path))
    : M (option (list (gset nat))) :=
  displayDuplicateGroupsWithNumbers duplicateGroups;;
  let* customizeRetention := askForConfirmation "customize retention?" false in
  let* keepFiles :=
    if customizeRetention then
      let* keepFiles := letUserModifyRetention fuel duplicateGroups in
      displayModifiedRetention duplicateGroups keepFiles;;
      mret keepFiles
    else mret (default_plan duplicateGroups) in
  let* confirmDelete := askForConfirmation "confirm delete?" false in
  if negb confirmDelete then emit OutCancelled;; mret None
  else mret (Some keepFiles).

Definition processSingleFolder (fuel : nat) (folder : string) : M bool :=
  let* result := findDuplicatesInFolder folder in
  if negb (bool_decide (error result = "")) then mret false else
  savable (duplicateGroups_of result) 0;;
  if bool_decide (duplicateGroups_of result = []) then mret true else
  let* plan := plan_and_confirm fuel (duplicateGroups_of result) in
  match plan with
  | None => mret true
  | Some keepFiles =>
      performDeletionWithCustomRetention (duplicateGroups_of result) keepFiles;;
      mret true
  end.

(** [collectAllSubfolders]: the root and its subdirectories by ascending
    length of the path string.  [std::sort] leaves the order of paths of
    equal length open; the insertion order is taken here. *)
Definition collectAllSubfolders (rootFolder : string) : list string :=
  let folders := rootFolder :: recursive_directories rootFolder in
  std_sort (λ a b, (String.length a <? String.length b)%nat) folders.

(** The loop over the folders in per-folder mode. *)
Fixpoint folder_loop (fuel : nat) (folders : list string) : M unit :=
  match folders with
  | [] => mret tt
  | folder :: rest =>
      processSingleFolder fuel folder;;
      if negb autoConfirm && negb (bool_decide (rest = [])) then
        let* continueProcessing := askForConfirmation "continue?" true in
        if negb continueProcessing then mret tt
        else folder_loop fuel rest
      else folder_loop fuel rest
  end.

Definition deduplicate (fuel : nat) (directory : string) : M unit :=
  if negb (is_directory directory) then mret tt else
  if bool_decide (mode = "per-folder") || bool_decide (mode = "folder") then
    folder_loop fuel (collectAllSubfolders directory)
  else
    let* result := findDuplicatesInFolderRecursive directory in
    if negb (bool_decide (error result = "")) then mret tt else
    let* totalSpaceSaved := savable (duplicateGroups_of result) 0 in
    if bool_decide (duplicateGroups_of result = []) then mret tt else
    let* plan := plan_and_confirm fuel (duplicateGroups_of result) in
    match plan with
    | None => mret tt
    | Some keepFiles =>
        performGlobalDeletionWithCustomRetention (duplicateGroups_of result)
          keepFiles totalSpaceSaved
    end.

End InteractiveFileDeduplicator.

(** ** [main]: the command line

    The lines that only echo the arguments and the settings are left out.
    [unsigned long] is 32 or 64 bits wide depending on the platform, so its
    greatest value is a variable of the section. *)
Section main.

Variable ULONG_MAX : N.

Variable is_directory : string → bool.
Variable directory_iterator : filesystem → string → list path.
Variable recursive_directory_iterator : filesystem → string → list path.
Variable recursive_directories : string → list string.

(** [std::stoul]: white space, an optional sign and decimal digits; a
    negative text is negated in [unsigned long], as [strtoul] does; [None]
    stands for the two exceptions, which [main] catches alike. *)
Definition stoul (s : string) : option N :=
  match parse_integer s with
  | None => None
  | Some z =>
      let magnitude := Z.to_N (Z.abs z) in
      if ULONG_MAX <? magnitude then None
      else if (z <? 0)%Z then Some (ULONG_MAX + 1 - magnitude)
      else Some magnitude
  end.

(** The local variables of [main] that the arguments set. *)
Record options := Options {
  o_dryRun : bool;
  o_verbose : bool;
  o_autoConfirm : bool;
  o_skipEmptyFolders : bool;
  o_samplePoints : N;
  o_sampleSize : N;
  o_mode : string;
  o_directory : string
}.

Definition default_options : options :=
  Options false false false true 4 4096 "all" "".

(** Where the argument loop ends: [return code] or the end of [argv]. *)
Inductive parsed :=
| Exit (code : Z)
| Parsed (o : options).

(** [arg[0]], which is the terminating zero of an empty string. *)
Definition first_char (s : string) : ascii :=
  match s with
  | String c _ => c
  | EmptyString => zero
  end.

(** [for (int i = 1; i < argc; i++)] on the arguments from [argv[1]] on;
    an option that takes a value consumes the next argument ([argv[++i]]). *)
Fixpoint parse_arguments (args : list string) (o : options) : parsed :=
  match args with
  | [] => Parsed o
  | arg :: rest =>
      if bool_decide (arg = "-h") || bool_decide (arg = "--help") then Exit 0
      else if bool_decide (arg = "-d") || bool_decide (arg = "--dry-run") then
        parse_arguments rest
          (Options true (o_verbose o) (o_autoConfirm o) (o_skipEmptyFolders o)
             (o_samplePoints o) (o_sampleSize o) (o_mode o) (o_directory o))
      else if bool_decide (arg = "-v") || bool_decide (arg = "--verbose") then
        parse_arguments rest
          (Options (o_dryRun o) true (o_autoConfirm o) (o_skipEmptyFolders o)
             (o_samplePoints o) (o_sampleSize o) (o_mode o) (o_directory o))
      else if bool_decide (arg = "-y") || bool_decide (arg = "--yes") then
        parse_arguments rest
          (Options (o_dryRun o) (o_verbose o) true (o_skipEmptyFolders o)
             (o_samplePoints o) (o_sampleSize o) (o_mode o) (o_directory o))
      else if bool_decide (arg = "-m") || bool_decide (arg = "--mode") then
        match rest with
        | mode :: rest =>
            if negb (bool_decide (mode = "all")) && negb (bool_decide (mode = "folder"))
            then Exit 1
            else parse_arguments rest
                   (Options (o_dryRun o) (o_verbose o) (o_autoConfirm o)
                      (o_skipEmptyFolders o) (o_samplePoints o) (o_sampleSize o)
                      mode (o_directory o))
        | [] => Exit 1
        end
      else if bool_decide (arg = "-n") || bool_decide (arg = "--no-skip") then
        parse_arguments rest
          (Options (o_dryRun o) (o_verbose o) (o_autoConfirm o) false
             (o_samplePoints o) (o_sampleSize o) (o_mode o) (o_directory o))
      else if bool_decide (arg = "-p") || bool_decide (arg = "--points") then
        match rest with
        | value :: rest =>
            match stoul value with
            | Some samplePoints =>
                parse_arguments rest
                  (Options (o_dryRun o) (o_verbose o) (o_autoConfirm o)
                     (o_skipEmptyFolders o) samplePoints (o_sampleSize o)
                     (o_mode o) (o_directory o))
            | None => Exit 1
            end
        | [] => Exit 1
        end
      else if bool_decide (arg = "-s") || bool_decide (arg = "--size") then
        match rest with
        | value :: rest =>
            match stoul value with
            | Some sampleSize =>
                parse_arguments rest
                  (Options (o_dryRun o) (o_verbose o) (o_autoConfirm o)
                     (o_skipEmptyFolders o) (o_samplePoints o) sampleSize
                     (o_mode o) (o_directory o))
            | None => Exit 1
            end
        | [] => Exit 1
        end
      else if negb (bool_decide (first_char arg = "-"%char)) then
        parse_arguments rest
          (Options (o_dryRun o) (o_verbose o) (o_autoConfirm o)
             (o_skipEmptyFolders o) (o_samplePoints o) (o_sampleSize o)
             (o_mode o) arg)
      else Exit 1
  end.

(** [main]: the exit code.  [fuel] bounds the commands read by the
    retention loop, see [retention_loop]. *)
Definition main (fuel : nat) (argv : list string) : M Z :=
  match argv with
  | [] | [_] => mret 1%Z
  | _ :: args =>
      match parse_arguments args default_options with
      | Exit code => mret code
      | Parsed o =>
          if bool_decide (o_directory o = "") then mret 1%Z
          else if negb (is_directory (o_directory o)) then mret 1%Z
          else
            try_catch
              (deduplicate (o_dryRun o) (o_autoConfirm o) (o_samplePoints o)
                 (o_sampleSize o) (o_mode o) is_directory directory_iterator
                 recursive_directory_iterator recursive_directories fuel
                 (o_directory o);;
               mret 0%Z)
              (λ e, mret 1%Z)
      end
  end.

End main.

(** * Definitions that follow the words of the specification *)

(** The bytes of the sample window at offset [p]: [min(sampleSize, N - p)]
    bytes from [p] on. *)
Definition sample_window (sampleSize : N) (data : list byte) (p : N) : list byte :=
  take (N.to_nat (N.min sampleSize (N.of_nat (length data) - p)))
       (drop (N.to_nat p) data).

(** Membership in the set of sample offsets
    [{0} ∪ {⌊N·i/(samplePoints+1)⌋ | 1 ≤ i ≤ samplePoints} ∪ {N − min(sampleSize, N)}]. *)
Definition is_sample_offset (samplePoints sampleSize size p : N) : Prop :=
  p = 0
  ∨ (∃ i, 1 ≤ i ≤ samplePoints ∧ p = size * i / (samplePoints + 1))
  ∨ p = size - N.min sampleSize size.

(** ["{h0}|{h1}|...|"] for the given windows, each hash followed by the
    separator. *)
Definition hashes_text (sampleSize : N) (data : list byte) (offsets : list N) : string :=
  foldr (λ q text, to_string (simpleHash (sample_window sampleSize data q)) +:+ "|" +:+ text)
        "" offsets.

(** Identical length and identical bytes at every offset. *)
Definition same_bytes (c1 c2 : list byte) : Prop :=
  length c1 = length c2 ∧ ∀ i : nat, c1 !! i = c2 !! i.

(** A group is emitted iff it has at least two members. *)
Definition emit_group (group : list path) : list (list path) :=
  if (1 <? length group)%nat then [group] else [].

(** The procedure of the exact comparator on the records not yet
    processed: the first one anchors a group, the later ones that compare
    identical to it join the group and are processed, the others remain. *)
Equations? grouping (same : path → path → bool) (records : list path)
    : list (list path) by wf (length records) lt :=
  grouping same [] := [];
  grouping same (anchor :: later) :=
    emit_group (anchor :: List.filter (same anchor) later)
    ++ grouping same (List.filter (λ j, negb (same anchor j)) later).
Proof.
  pose proof (List.filter_length_le (λ j, negb (same anchor j)) later). simpl. lia.
Qed.

(** The anchors of the emitted groups, in the order of emission. *)
Definition anchors (groups : list (list path)) : list path := omap head groups.

(** The four strategies of the menu. *)
Definition strategies : list string :=
  ["newest"; "oldest"; "longest-name"; "shortest-name"].

(** [keep[g]] is a non-empty subset of [{1..|group g|}]. *)
Definition keep_ok (group : list path) (keepSet : gset nat) : Prop :=
  keepSet ≠ ∅ ∧ ∀ k, k ∈ keepSet → (1 ≤ k ≤ length group)%nat.

(** The invariant of the retention plan. *)
Definition plan_ok (duplicateGroups : list (list path)) (keepFiles : list (gset nat))
    : Prop :=
  Forall2 keep_ok duplicateGroups keepFiles.

(** What the deleter prints in a simulated run. *)
Definition simulation_event (e : out_event) : Prop :=
  match e with
  | OutSimulated _ _ | OutReport _ _ _ | OutDryRunNotice => True
  | _ => False
  end.

(** The line is none of the keywords, so it is taken as a group number. *)
Definition selects_group (input : string) : Prop :=
  (input ≠ "")
  ∧ (tolower_string input ∉ ["done"; "list"; "all"; "auto"])
  ∧ (String.prefix "view" (tolower_string input) = false).

(** The text starts with a decimal integer that fits an [int]. *)
Definition is_number (s : string) (n : Z) : Prop :=
  parse_integer s = Some n ∧ (INT_MIN ≤ n ≤ INT_MAX)%Z.


(** A character among ['1'..'9'] whose digit does not exceed the size of
    the group. *)
Definition valid_digit (members : nat) (c : ascii) : bool :=
  ((N_of_ascii "1" <=? N_of_ascii c) && (N_of_ascii c <=? N_of_ascii "9"))
  && (N.to_nat (N_of_ascii c - N_of_ascii "0") <=? members)%nat.

Fixpoint valid_selection (members : nat) (selection : string) : bool :=
  match selection with
  | EmptyString => true
  | String c rest => valid_digit members c && valid_selection members rest
  end.


(** Member [k] (1-based) has the least value of [crit] in the group and,
    among the members that tie with it, the lowest index. *)
Definition least_lowest_index (crit : path → Z) (group : list path) (k : nat) : Prop :=
  ∃ q, group !! (k - 1)%nat = Some q ∧ (1 ≤ k)%nat
       ∧ ∀ j p, group !! j = Some p →
           (crit q ≤ crit p)%Z ∧ (crit p = crit q → (k ≤ j + 1)%nat).

(** The same with the highest index among the members that tie. *)
Definition least_highest_index (crit : path → Z) (group : list path) (k : nat) : Prop :=
  ∃ q, group !! (k - 1)%nat = Some q ∧ (1 ≤ k)%nat
       ∧ ∀ j p, group !! j = Some p →
           (crit q ≤ crit p)%Z ∧ (crit p = crit q → (j + 1 ≤ k)%nat).

(** * Auxiliary definitions of the proofs *)

Definition add_reads (w : world) (reads : list io_event) : world :=
  World (w_fs w) (w_stdin w) (w_stdout w) (w_io w ++ reads).


(** What [areFilesIdentical] answers on a given filesystem (lemma
    [areFilesIdentical_run]). *)
Definition verdict (fs : filesystem) (file1 file2 : path) : res bool :=
  match fs !! file1, fs !! file2 with
  | None, _ => Raise (filesystem_error file1)
  | Some _, None => Raise (filesystem_error file2)
  | Some f1, Some f2 =>
      if negb (file_len f1 =? file_len f2) then Ret false
      else if file_len f1 =? 0 then Ret true
      else if can_open f1 && can_open f2
           then Ret (bool_decide (content f1 = content f2))
           else Ret false
  end.

(** [areFilesIdentical] answered [true]. *)
Definition identical (fs : filesystem) (file1 file2 : path) : bool :=
  match verdict fs file1 file2 with
  | Ret true => true
  | _ => false
  end.

(** The records whose [processed] flag is not set. *)
Fixpoint pending (records : list path) (processed : list bool) : list path :=
  match records, processed with
  | r :: records, p :: processed =>
      if p then pending records processed else r :: pending records processed
  | _, _ => []
  end.

Definition mtime_of (fs : filesystem) (p : path) : Z :=
  match fs !! p with
  | Some f => mtime f
  | None => 0%Z
  end.

(** The pairs (time, 1-based index) of the members from position [i] on. *)
Fixpoint times_from (fs : filesystem) (i : nat) (group : list path) : list (Z * nat) :=
  match group with
  | [] => []
  | p :: rest => (mtime_of fs p, (i + 1)%nat) :: times_from fs (S i) rest
  end.

(** The members the plan does not keep: position [i] of a group is doomed
    when [i + 1] is not in the keep-set of the group. *)
Fixpoint doomed_members (group : list path) (keepSet : gset nat) (i : nat) : list path :=
  match group with
  | [] => []
  | p :: rest =>
      if bool_decide ((i + 1)%nat ∈ keepSet) then doomed_members rest keepSet (S i)
      else p :: doomed_members rest keepSet (S i)
  end.

Fixpoint doomed (duplicateGroups : list (list path)) (keepFiles : list (gset nat))
    (groupIndex : nat) : list path :=
  match duplicateGroups with
  | [] => []
  | group :: rest =>
      match keepFiles !! groupIndex with
      | Some keepSet => doomed_members group keepSet 0
      | None => []
      end ++ doomed rest keepFiles (S groupIndex)
  end.

(** Every outcome of [m] leaves the world in relation [R] to the initial one. *)
Definition respects {A} (R : world → world → Prop) (m : M A) : Prop :=
  ∀ w r w', m w = (r, w') → R w w'.

(** Every value returned by [m] satisfies [Q]. *)
Definition returns {A} (m : M A) (Q : A → Prop) : Prop :=
  ∀ w a w', m w = (Ret a, w') → Q a.

(** The files outside [D] are as they were. *)
Definition frame (D : path → Prop) (w w' : world) : Prop :=
  ∀ p, ¬ D p → w_fs w' !! p = w_fs w !! p.

(** The console received only events that satisfy [P]. *)
Definition printed (P : out_event → Prop) (w w' : world) : Prop :=
  ∃ events, w_stdout w' = w_stdout w ++ events ∧ Forall P events.

(** Under the comparator [less], [a] may stand before [b]. *)
Definition not_after {A} (less : A → A → bool) (a b : A) : Prop := less b a = false.

(** * Sample data *)

Definition sample_a : path := Path "/data" "a.bin".
Definition sample_b : path := Path "/data" "bb.bin".
Definition sample_c : path := Path "/data" "c.bin".
Definition sample_d : path := Path "/data" "d.bin".

Definition five_bytes : file := File [x01; x02; x03; x04; x05] 100 true true.

Definition world_of (fs : filesystem) (input : list string) : world :=
  World fs input [] [].

(** Files that the system refuses to open: an empty one and two with the
    same bytes. *)
Definition locked_empty : file := File [] 100 false true.
Definition locked_five : file := File [x01; x02; x03; x04; x05] 100 false true.
Definition world_locked : world :=
  world_of {[ sample_a := locked_empty; sample_b := locked_empty;
              sample_c := locked_five; sample_d := locked_five ]} [].
Definition world_pair : world :=
  world_of {[ sample_a := five_bytes; sample_b := five_bytes ]} [].

Definition world_five : world := world_of {[ sample_a := five_bytes ]} [].

(** A run of the whole program in global mode over a directory that
    holds [sample_a] and [sample_b], two files with the same bytes and the
    same time; the operator only types [done]. *)
Definition sample_run (dryRun autoConfirm : bool) : res unit * world :=
  deduplicate dryRun autoConfirm 4 4096 "all"
    (λ _, true) (λ _ _, []) (λ _ _, [sample_a; sample_b]) (λ _, [])
    5 "/data"
    (world_of {[ sample_a := five_bytes; sample_b := five_bytes ]} ["done"]).

(** * Definitions for the further properties *)

(** The run changed no file, and what is left of the input is a final
    part of what there was. *)
Definition quiet (w w' : world) : Prop :=
  w_fs w' = w_fs w ∧ w_stdin w' `suffix_of` w_stdin w.

(** The run ended: it returned or it threw. *)
Definition completes {A} (r : res A) : Prop :=
  match r with
  | Ret _ | Raise _ => True
  | Undefined | OutOfFuel => False
  end.

(** The entries whose size can be read. *)
Definition existing (fs : filesystem) (entries : list path) : list path :=
  List.filter (λ p, bool_decide (is_Some (fs !! p))) entries.

(** The paths held by the buckets of a [std::map], bucket after bucket. *)
Definition bucket_values {K} (m : list (K * list path)) : list path :=
  concat (map snd m).

(** The members of the group exist and have the same bytes. *)
Definition duplicates_in (fs : filesystem) (group : list path) : Prop :=
  ∀ p q, p ∈ group → q ∈ group →
    ∃ f1 f2, fs !! p = Some f1 ∧ fs !! q = Some f2 ∧ content f1 = content f2.

(** The file can be compared: it can be opened, or it is empty (an empty
    file is never opened). *)
Definition readable (f : file) : Prop := can_open f = true ∨ content f = [].

(** The sizes of the entries added up; an entry without a file counts 0. *)
Definition size_sum (fs : filesystem) (entries : list path) : N :=
  fold_right N.add 0 (map (λ p, from_option file_len 0 (fs !! p)) entries).

(** Every group has two members or more, and its members exist and have
    the same bytes. *)
Definition duplicate_groups (fs : filesystem) (groups : list (list path)) : Prop :=
  Forall (λ g, (2 ≤ length g)%nat ∧ duplicates_in fs g) groups.

(** A directory listing for the examples. *)
Definition listing_pair : filesystem → string → list path :=
  λ _ _, [sample_a; sample_b].

(** [m.find(k)->second] of a [std::map], the empty vector when [k] is not
    a key. *)
Fixpoint map_at {K} (less : K → K → bool) (k : K) (m : list (K * list path))
    : list path :=
  match m with
  | [] => []
  | (k', ps) :: tl =>
      if less k k' then []
      else if less k' k then map_at less k tl
      else ps
  end.

(** What [generateFileSignature] answers for a file with the bytes [data]
    (lemma [generateFileSignature_run]). *)
Definition fingerprint (samplePoints sampleSize : N) (data : list byte) : string :=
  let size := N.of_nat (length data) in
  if size <=? 2 * sampleSize then to_string size +:+ "|SMALL"
  else to_string size +:+ "|"
       +:+ hashes_text sampleSize data (keyPositions samplePoints sampleSize size).

(** The file can be fingerprinted: it is small enough not to be sampled,
    or it can be opened and its sample offsets do not wrap in 64 bits. *)
Definition signable (samplePoints sampleSize : N) (f : file) : Prop :=
  file_len f ≤ 2 * sampleSize
  ∨ (can_open f = true ∧ file_len f * (samplePoints + 1) < 2 ^ 64).

(** When no line of input is left, no file changes and none appears. *)
Definition unattended (w w' : world) : Prop :=
  w_stdin w = [] → w_fs w' = w_fs w ∧ w_stdin w' = [].

(** Files are only removed: every path holds the file it held, or none. *)
Definition shrinks (w w' : world) : Prop :=
  ∀ p, w_fs w' !! p = w_fs w !! p ∨ w_fs w' !! p = None.

(** No content is lost: every path holds the file it held, or it was
    removed and a file with the same bytes is still there. *)
Definition no_loss (w w' : world) : Prop :=
  ∀ p, w_fs w' !! p = w_fs w !! p
       ∨ (w_fs w' !! p = None
          ∧ ∃ f q g, w_fs w !! p = Some f ∧ w_fs w' !! q = Some g
                     ∧ content g = content f).

(** The two values of [-m] that [main] accepts. *)
Definition valid_mode (mode : string) : Prop := mode = "all" ∨ mode = "folder".

(** How a scan ends: with a value that satisfies [Q], or in the division
    by [samplePoints + 1] when that sum wraps to 0. *)
Definition ends (samplePoints : N) {A} (r : res A) (Q : A → Prop) : Prop :=
  match r with
  | Ret a => Q a
  | Undefined => 2 ^ 64 ≤ samplePoints + 1
  | Raise _ | OutOfFuel => False
  end.

(** The answer that [askForConfirmation] reads from a line. *)
Definition answer (line : string) (defaultYes : bool) : bool :=
  match line with
  | EmptyString => defaultYes
  | String c _ => bool_decide (c = "y"%char) || bool_decide (c = "Y"%char)
  end.

(** [fs::remove] would succeed on the path. *)
Definition removable (fs : filesystem) (p : path) : bool :=
  match fs !! p with
  | Some f => can_remove f
  | None => false
  end.

(** The doomed files that a run of the deleter counts as deleted: all of
    them in a simulation, the removable ones otherwise. *)
Definition disposed (dryRun : bool) (fs : filesystem) (l : list path) : list path :=
  if dryRun then l else List.filter (removable fs) l.

(** The doomed files that a run of the deleter counts as failed. *)
Definition refused (dryRun : bool) (fs : filesystem) (l : list path) : list path :=
  if dryRun then [] else List.filter (λ p, negb (removable fs p)) l.

(** The counters after the doomed files [l] have been gone through. *)
Definition tally (dryRun : bool) (fs : filesystem) (l : list path) (c : counters)
    : counters :=
  Counters (successfullyDeleted c + Z.of_nat (length (disposed dryRun fs l)))
           (failedToDelete c + Z.of_nat (length (refused dryRun fs l)))
           (wrap64 (actualSpaceSaved c + size_sum fs (disposed dryRun fs l))).

(** The files [gone] have been removed, every other path holds what it
    held, [lines] have been printed, and nothing else has changed. *)
Definition removed_exactly (gone : list path) (lines : nat) (w w' : world) : Prop :=
  (∀ q, w_fs w' !! q = if bool_decide (q ∈ gone) then None else w_fs w !! q)
  ∧ w_stdin w' = w_stdin w ∧ w_io w' = w_io w
  ∧ ∃ events, w_stdout w' = w_stdout w ++ events ∧ length events = lines.

(** The lines the deleter prints about single files. *)
Definition deletion_line (e : out_event) : Prop :=
  match e with
  | OutDeleted _ _ | OutSimulated _ _ | ErrDeleteFailed _ _ => True
  | _ => False
  end.

(** How the loops of the deleter end on the doomed files [l]: normally, and
    then all of [l] existed at the start, or with the exception of
    [fs::file_size] for a doomed file that is not there. *)
Definition deleter_outcome {A} (l : list path) (w : world) (r : res A) (w' : world)
    : Prop :=
  match r with
  | Ret _ => Forall (λ p, is_Some (w_fs w !! p)) l
  | Raise e => ∃ q, e = filesystem_error q ∧ q ∈ l ∧ w_fs w' !! q = None
  | Undefined | OutOfFuel => False
  end.

(** The number of bytes an event of the I/O log stands for. *)
Definition bytes_read (e : io_event) : N :=
  match e with
  | EvRead _ n => n
  | EvOpen _ => 0
  end.

(** The file numbers named by the digits of a selection line. *)
Fixpoint selected (selection : string) : gset nat :=
  match selection with
  | EmptyString => ∅
  | String c rest => {[ N.to_nat (N_of_ascii c - N_of_ascii "0") ]} ∪ selected rest
  end.

(** The file an event of the I/O log is about. *)
Definition path_of (e : io_event) : path :=
  match e with
  | EvOpen p | EvRead p _ => p
  end.

(** The run opened and read only files that satisfy [S]. *)
Definition touches (S : path → Prop) (w w' : world) : Prop :=
  ∃ events, w_io w' = w_io w ++ events ∧ Forall (λ e, S (path_of e)) events.

(** Every path in a bucket of the size map has the size of the bucket. *)
Definition keyed_by_size (fs : filesystem) (m : list (N * list path)) : Prop :=
  ∀ b x, b ∈ m → x ∈ b.2 → ∃ f, fs !! x = Some f ∧ file_len f = b.1.

(** Another entry of the listing has the same size as [p]. *)
Definition has_twin (fs : filesystem) (entries : list path) (p : path) : Prop :=
  ∃ q f g, q ≠ p ∧ p ∈ entries ∧ q ∈ entries
           ∧ fs !! p = Some f ∧ fs !! q = Some g ∧ file_len f = file_len g.

(** No line of the input is the command [done], in any case of the
    letters. *)
Definition no_done (input : list string) : Prop :=
  ∀ line, line ∈ input → tolower_string line ≠ "done".

(** When the input holds no [done], no file changes and what is left of
    the input holds none either. *)
Definition undone (w w' : world) : Prop :=
  no_done (w_stdin w) → w_fs w' = w_fs w ∧ no_done (w_stdin w').


(** * Properties *)

(** ** Running the primitives *)

Lemma getFileSize_run p f w :
  w_fs w !! p = Some f → getFileSize p w = (Ret (file_len f), w).
Proof. intros H. unfold getFileSize, bind, get_fs. by rewrite H. Qed.

Lemma getFileSize_missing p w :
  w_fs w !! p = None → getFileSize p w = (Raise (filesystem_error p), w).
Proof. intros H. unfold getFileSize, bind, get_fs. by rewrite H. Qed.


(** ** Strings *)

Lemma append_assoc (a b c : string) : (a +:+ b) +:+ c = a +:+ (b +:+ c).
Proof.
  induction a as [|x a IH]; [done|].
  change (String x ((a +:+ b) +:+ c) = String x (a +:+ (b +:+ c))).
  by rewrite IH.
Qed.

Lemma append_empty_r (a : string) : a +:+ "" = a.
Proof.
  induction a as [|x a IH]; [done|].
  change (String x (a +:+ "") = String x a). by rewrite IH.
Qed.


(** ** [std::sort] and [std::unique] *)

Section std_sort_facts.
Context {A : Type} (less : A → A → bool).

Hypothesis less_asym : ∀ a b, less a b = true → less b a = false.
Hypothesis not_after_trans :
  ∀ a b c, not_after less a b → not_after less b c → not_after less a c.

Lemma sort_insert_perm x l : sort_insert less x l ≡ₚ x :: l.
Proof.
  induction l as [|y tl IH]; simpl; [done|].
  destruct (less y x); [|done].
  rewrite IH. apply perm_swap.
Qed.

Lemma std_sort_perm l : std_sort less l ≡ₚ l.
Proof.
  induction l as [|x l IH]; simpl; [done|].
  rewrite sort_insert_perm. by rewrite IH.
Qed.

Lemma sort_insert_sorted x l :
  StronglySorted (not_after less) l → StronglySorted (not_after less) (sort_insert less x l).
Proof.
  induction 1 as [|y tl Htl IH Hy]; simpl.
  - repeat constructor.
  - destruct (less y x) eqn:E.
    + constructor; [done|].
      rewrite sort_insert_perm. constructor; [|done].
      by apply less_asym.
    + constructor; [by constructor|].
      constructor; [done|].
      eapply Forall_impl; [exact Hy|].
      intros z Hz. by eapply not_after_trans.
Qed.

Lemma std_sort_sorted l : StronglySorted (not_after less) (std_sort less l).
Proof.
  induction l as [|x l IH]; simpl; [constructor|].
  by apply sort_insert_sorted.
Qed.
End std_sort_facts.

Lemma StronglySorted_mono {A} (R S : A → A → Prop) (l : list A) :
  (∀ a b, R a b → S a b) → StronglySorted R l → StronglySorted S l.
Proof.
  intros HRS. induction 1 as [|a tl Htl IH Ha]; constructor; [done|].
  eapply Forall_impl; [exact Ha|]. intros b. apply HRS.
Qed.


Lemma std_unique_elem (l : list N) x : x ∈ std_unique l ↔ x ∈ l.
Proof.
  induction l as [|a tl IH]; [done|].
  destruct tl as [|b tl]; [done|].
  change (std_unique (a :: b :: tl))
    with (if a =? b then std_unique (b :: tl) else a :: std_unique (b :: tl)).
  destruct (N.eqb_spec a b) as [->|Hne].
  - rewrite IH, !elem_of_cons. intuition congruence.
  - rewrite !elem_of_cons, IH, elem_of_cons. done.
Qed.


(** ** The sparse fingerprinter *)

Lemma fold_push_back {A B} (g : B → A) (l : list B) (acc : list A) :
  fold_left (λ kp i, kp ++ [g i]) l acc = acc ++ map g l.
Proof.
  revert acc. induction l as [|x l IH]; intros acc; simpl.
  - by rewrite app_nil_r.
  - rewrite IH, <- app_assoc. done.
Qed.

Lemma elem_of_sample_indices samplePoints i :
  i ∈ sample_indices samplePoints ↔ 1 ≤ i ≤ samplePoints.
Proof.
  unfold sample_indices. rewrite list_elem_of_In, in_map_iff.
  setoid_rewrite <- list_elem_of_In. split.
  - intros (n & <- & Hn). apply elem_of_seq in Hn. lia.
  - intros Hi. exists (N.to_nat i). split; [lia|]. apply elem_of_seq. lia.
Qed.

Lemma sub64_exact a b : b ≤ a → a < 2 ^ 64 → sub64 a b = a - b.
Proof.
  intros Hb Ha. unfold sub64, wrap64.
  replace (a + 2 ^ 64 - b) with ((a - b) + 1 * 2 ^ 64) by lia.
  rewrite N.Div0.mod_add. apply N.mod_small. lia.
Qed.


Lemma elem_of_keyPositions samplePoints sampleSize size q :
  size * (samplePoints + 1) < 2 ^ 64 → 0 < size →
  q ∈ keyPositions samplePoints sampleSize size
  ↔ is_sample_offset samplePoints sampleSize size q.
Proof.
  intros Hno Hpos. unfold keyPositions, is_sample_offset.
  assert (samplePoints + 1 < 2 ^ 64) as Hsp by nia.
  assert (size < 2 ^ 64) as Hsz by nia.
  rewrite std_unique_elem, (std_sort_perm N.ltb), fold_push_back.
  rewrite sub64_exact by lia.
  rewrite !elem_of_app, (list_elem_of_In (map _ _)), in_map_iff.
  setoid_rewrite <- list_elem_of_In. rewrite !list_elem_of_singleton.
  unfold wrap64 at 2. rewrite (N.mod_small (samplePoints + 1)) by done.
  split.
  - intros [[->|(i & <- & Hi)]| ->]; [by left| |by right; right].
    right; left. exists i. apply elem_of_sample_indices in Hi.
    split; [done|]. unfold wrap64. rewrite N.mod_small by nia. done.
  - intros [->|[(i & Hi & ->)| ->]]; [by left; left| |by right].
    left; right. exists i. split; [|by apply elem_of_sample_indices].
    unfold wrap64. rewrite N.mod_small by nia. done.
Qed.

Lemma keyPositions_bound samplePoints sampleSize size q :
  size * (samplePoints + 1) < 2 ^ 64 → 0 < size →
  q ∈ keyPositions samplePoints sampleSize size → q ≤ size.
Proof.
  intros Hno Hpos Hq. apply elem_of_keyPositions in Hq; [|done..].
  destruct Hq as [->|[(i & Hi & ->)| ->]]; [lia| |lia].
  apply N.Div0.div_le_upper_bound. nia.
Qed.


Lemma add_reads_nil w : add_reads w [] = w.
Proof. destruct w. unfold add_reads. simpl. by rewrite app_nil_r. Qed.

Lemma add_reads_app w l1 l2 : add_reads (add_reads w l1) l2 = add_reads w (l1 ++ l2).
Proof. unfold add_reads. simpl. by rewrite app_assoc. Qed.

Lemma sample_loop_run sampleSize filepath data file positions signature w :
  s_path file = filepath → s_data file = data →
  N.of_nat (length data) < 2 ^ 64 →
  Forall (λ q, q ≤ N.of_nat (length data)) positions →
  sample_loop sampleSize (N.of_nat (length data)) filepath file positions signature w
  = (Ret (signature +:+ hashes_text sampleSize data positions),
     add_reads w (map (λ q, EvRead filepath
                              (N.min sampleSize (N.of_nat (length data) - q)))
                      positions)).
Proof.
  intros Hp Hd Hlen Hall. revert file signature w Hp Hd.
  induction Hall as [|q positions Hq Hall IH]; intros file signature w Hp Hd.
  - simpl. by rewrite append_empty_r, add_reads_nil.
  - cbn [sample_loop map hashes_text foldr].
    rewrite sub64_exact by done.
    unfold bind at 1. unfold stream_read, bind, log_io, mret. cbn.
    rewrite Hd, Hp.
    assert (length (take (N.to_nat (N.min sampleSize (N.of_nat (length data) - q)))
                         (drop (N.to_nat q) data))
            = N.to_nat (N.min sampleSize (N.of_nat (length data) - q))) as Hgot.
    { rewrite length_take, length_drop. lia. }
    rewrite Hgot, N2Nat.id, N.eqb_refl. cbn.
    rewrite IH by done. cbn.
    f_equal.
    + f_equal. unfold sample_window. by rewrite !append_assoc.
    + unfold add_reads. cbn. by rewrite <- app_assoc.
Qed.

Lemma ifstream_open_run p f w :
  w_fs w !! p = Some f →
  ifstream_open p w
  = (Ret (if can_open f then Some (Stream p (content f) 0) else None),
     add_reads w [EvOpen p]).
Proof.
  intros H. unfold ifstream_open, bind, log_io, get_fs. cbn. by rewrite H.
Qed.






Example generateFileSignature_five_bytes :
  (generateFileSignature 1 1 sample_a world_five).1
  = Ret "5|1|3|5|".
Proof. vm_compute. reflexivity. Qed.

(** ** The exact comparator *)

Lemma same_bytes_eq c1 c2 : same_bytes c1 c2 ↔ c1 = c2.
Proof.
  split; [|by intros ->].
  intros [_ H]. by apply list_eq.
Qed.

Lemma stream_read_run p c t n w :
  stream_read (Stream p c t) n w
  = (Ret (take (N.to_nat n) (drop (N.to_nat t) c),
          Stream p c (t + N.of_nat (length (take (N.to_nat n) (drop (N.to_nat t) c))))),
     add_reads w [EvRead p (N.of_nat (length (take (N.to_nat n) (drop (N.to_nat t) c))))]).
Proof. reflexivity. Qed.

Lemma compare_loop_run fuel size1 p1 p2 c1 c2 t w :
  N.of_nat (length c1) = size1 → N.of_nat (length c2) = size1 →
  t ≤ size1 → (N.to_nat (size1 - t) ≤ fuel)%nat →
  ∃ reads,
    compare_loop fuel size1 (Stream p1 c1 t) (Stream p2 c2 t) t w
    = (Ret (bool_decide (drop (N.to_nat t) c1 = drop (N.to_nat t) c2)),
       add_reads w reads).
Proof.
  intros H1 H2. revert t w.
  induction fuel as [|fuel IH]; intros t w Ht Hfuel.
  - assert (t = size1) as -> by lia.
    exists []. cbn [compare_loop]. rewrite N.ltb_irrefl, add_reads_nil.
    unfold mret. do 2 f_equal.
    rewrite !drop_ge by lia. by rewrite bool_decide_eq_true_2.
  - cbn [compare_loop]. destruct (N.ltb_spec t size1) as [Hlt|Hge].
    + set (toRead := N.min bufferSize (size1 - t)).
      assert (0 < toRead ∧ toRead ≤ size1 - t) as [Hpos Hle].
      { unfold toRead, bufferSize. lia. }
      unfold bind at 1. rewrite stream_read_run.
      unfold bind at 1. rewrite stream_read_run.
      set (got1 := take (N.to_nat toRead) (drop (N.to_nat t) c1)).
      set (got2 := take (N.to_nat toRead) (drop (N.to_nat t) c2)).
      assert (length got1 = N.to_nat toRead) as Hg1.
      { unfold got1. rewrite length_take, length_drop. lia. }
      assert (length got2 = N.to_nat toRead) as Hg2.
      { unfold got2. rewrite length_take, length_drop. lia. }
      rewrite Hg1, Hg2, N2Nat.id, !N.eqb_refl. cbn [negb orb].
      assert (drop (N.to_nat t) c1 = got1 ++ drop (N.to_nat (t + toRead)) c1) as E1.
      { unfold got1. rewrite N2Nat.inj_add, <- drop_drop. by rewrite take_drop. }
      assert (drop (N.to_nat t) c2 = got2 ++ drop (N.to_nat (t + toRead)) c2) as E2.
      { unfold got2. rewrite N2Nat.inj_add, <- drop_drop. by rewrite take_drop. }
      unfold memcmp_differs. destruct (decide (got1 = got2)) as [Heq|Hne].
      * rewrite (bool_decide_eq_true_2 _ Heq). cbn [negb].
        destruct (IH (t + toRead) (add_reads (add_reads w [EvRead p1 toRead])
                                             [EvRead p2 toRead]))
          as [reads Hrun]; [lia|lia|].
        rewrite Hrun. eexists. rewrite !add_reads_app. f_equal. f_equal.
        rewrite E1, E2, Heq. apply bool_decide_ext. split; [by intros ->|].
        intros H. by apply app_inv_head in H.
      * rewrite (bool_decide_eq_false_2 _ Hne). cbn [negb].
        eexists. rewrite add_reads_app. unfold mret. f_equal. f_equal.
        symmetry. apply bool_decide_eq_false_2. rewrite E1, E2. intros H.
        apply app_inj_1 in H as [? _]; [done|congruence].
    + exists []. rewrite add_reads_nil. unfold mret. do 2 f_equal.
      rewrite !drop_ge by lia. by rewrite bool_decide_eq_true_2.
Qed.

Lemma areFilesIdentical_run file1 file2 w :
  ∃ reads, areFilesIdentical file1 file2 w
           = (verdict (w_fs w) file1 file2, add_reads w reads)
           ∧ (verdict (w_fs w) file1 file2 = Ret true →
              ∀ f1, w_fs w !! file1 = Some f1 → content f1 = [] → reads = []).
Proof.
  unfold areFilesIdentical, verdict.
  destruct (w_fs w !! file1) as [f1|] eqn:Hf1.
  2:{ exists []. rewrite add_reads_nil. unfold bind.
      rewrite (getFileSize_missing _ _ Hf1). done. }
  unfold bind at 1. rewrite (getFileSize_run _ _ _ Hf1).
  destruct (w_fs w !! file2) as [f2|] eqn:Hf2.
  2:{ exists []. rewrite add_reads_nil. unfold bind.
      rewrite (getFileSize_missing _ _ Hf2). done. }
  unfold bind at 1. rewrite (getFileSize_run _ _ _ Hf2).
  destruct (negb (file_len f1 =? file_len f2)) eqn:Hlen.
  { exists []. by rewrite add_reads_nil. }
  destruct (N.eqb_spec (file_len f1) 0) as [Hz|Hnz].
  { exists []. by rewrite add_reads_nil. }
  apply negb_false_iff, N.eqb_eq in Hlen.
  unfold bind at 1. rewrite (ifstream_open_run _ _ _ Hf1).
  unfold bind at 1. rewrite (ifstream_open_run file2 f2) by done.
  rewrite add_reads_app.
  assert (∀ f : file, content f = [] → file_len f = 0) as Hempty.
  { intros f E. unfold file_len. by rewrite E. }
  destruct (can_open f1), (can_open f2); cbn [andb].
  - destruct (compare_loop_run (N.to_nat (file_len f1)) (file_len f1)
                file1 file2 (content f1) (content f2) 0
                (add_reads w ([EvOpen file1] ++ [EvOpen file2])))
      as [reads Hrun]; [done|by rewrite Hlen|lia|lia|].
    rewrite Hrun. eexists. rewrite add_reads_app. split; [done|].
    intros _ f Hf E. simplify_eq. by apply Hempty in E.
  - eexists. split; [done|]. intros _ f Hf E. simplify_eq. by apply Hempty in E.
  - eexists. split; [done|]. intros _ f Hf E. simplify_eq. by apply Hempty in E.
  - eexists. split; [done|]. intros _ f Hf E. simplify_eq. by apply Hempty in E.
Qed.

(** C2: on two existing files [areFilesIdentical] always answers; a
    [true] answer means identical length and identical bytes at every
    offset; when both files can be opened the answer is [true] exactly in
    that case; two zero-length files give [true] with nothing opened and
    nothing read; files of different lengths give [false]. *)
Theorem areFilesIdentical_iff_same_bytes file1 file2 f1 f2 w :
  w_fs w !! file1 = Some f1 → w_fs w !! file2 = Some f2 →
  ∃ b reads,
    areFilesIdentical file1 file2 w = (Ret b, add_reads w reads)
    ∧ (b = true → same_bytes (content f1) (content f2))
    ∧ (can_open f1 = true → can_open f2 = true →
       (b = true ↔ same_bytes (content f1) (content f2)))
    ∧ (content f1 = [] → content f2 = [] → b = true ∧ reads = [])
    ∧ (length (content f1) ≠ length (content f2) → b = false).
Proof.
  intros Hf1 Hf2.
  destruct (areFilesIdentical_run file1 file2 w) as (reads & Hrun & Hnone).
  rewrite Hrun. unfold verdict in *. rewrite Hf1, Hf2 in *.
  unfold file_len in *.
  destruct (N.eqb_spec (N.of_nat (length (content f1)))
                       (N.of_nat (length (content f2)))) as [Hlen|Hlen];
    cbn [negb] in *.
  2:{ exists false, reads. split; [done|]. split; [done|].
      split; [|split; [|done]].
      - intros _ _. rewrite same_bytes_eq. split; [done|]. intros E.
        by rewrite E in Hlen.
      - intros E1 E2. by rewrite E1, E2 in Hlen. }
  destruct (N.eqb_spec (N.of_nat (length (content f1))) 0) as [Hz|Hnz].
  { assert (content f1 = []) as E1 by (destruct (content f1); [done|simpl in Hz; lia]).
    assert (content f2 = []) as E2.
    { rewrite Hz in Hlen. destruct (content f2); [done|simpl in Hlen; lia]. }
    exists true, reads. rewrite same_bytes_eq, E1, E2.
    split; [done|]. split; [done|]. split; [done|]. split; [|done].
    intros _ _. split; [done|]. by eapply Hnone. }
  assert (content f1 ≠ []) as Hne by (intros E; by rewrite E in Hnz).
  assert (∀ b, b = false →
    (b = true → same_bytes (content f1) (content f2))
    ∧ (content f1 = [] → content f2 = [] → b = true ∧ reads = [])
    ∧ (length (content f1) ≠ length (content f2) → b = false)) as Hfalse.
  { intros b ->. split; [done|]. split; [done|done]. }
  destruct (can_open f1), (can_open f2); cbn [andb] in *.
  - exists (bool_decide (content f1 = content f2)), reads.
    rewrite same_bytes_eq, bool_decide_eq_true.
    split; [done|]. split; [done|]. split; [done|]. split; [done|].
    intros E. lia.
  - exists false, reads. destruct (Hfalse false eq_refl) as (? & ? & ?). done.
  - exists false, reads. destruct (Hfalse false eq_refl) as (? & ? & ?). done.
  - exists false, reads. destruct (Hfalse false eq_refl) as (? & ? & ?). done.
Qed.

Lemma areFilesIdentical_iff_same_bytes_witness :
  ∃ b reads,
    areFilesIdentical sample_a sample_b world_pair = (Ret b, add_reads world_pair reads)
    ∧ (b = true → same_bytes (content five_bytes) (content five_bytes))
    ∧ (can_open five_bytes = true → can_open five_bytes = true →
       (b = true ↔ same_bytes (content five_bytes) (content five_bytes)))
    ∧ (content five_bytes = [] → content five_bytes = [] → b = true ∧ reads = [])
    ∧ (length (content five_bytes) ≠ length (content five_bytes) → b = false).
Proof.
  apply (areFilesIdentical_iff_same_bytes sample_a sample_b five_bytes five_bytes
           world_pair); vm_compute; reflexivity.
Defined.

Example areFilesIdentical_locked_empty :
  areFilesIdentical sample_a sample_b world_locked = (Ret true, world_locked).
Proof. vm_compute. reflexivity. Qed.

Example areFilesIdentical_locked_equal :
  areFilesIdentical sample_c sample_d world_locked
  = (Ret false, add_reads world_locked [EvOpen sample_c; EvOpen sample_d]).
Proof. vm_compute. reflexivity. Qed.

Example areFilesIdentical_pair :
  areFilesIdentical sample_a sample_b world_pair
  = (Ret true, add_reads world_pair [EvOpen sample_a; EvOpen sample_b;
                                     EvRead sample_a 5; EvRead sample_b 5]).
Proof. vm_compute. reflexivity. Qed.

Lemma verdict_defined fs file1 file2 :
  verdict fs file1 file2 ≠ Undefined ∧ verdict fs file1 file2 ≠ OutOfFuel.
Proof.
  unfold verdict.
  destruct (fs !! file1) as [f1|], (fs !! file2) as [f2|]; try done.
  destruct (negb _); [done|]. destruct (_ =? 0); [done|].
  by destruct (_ && _).
Qed.

Lemma identical_same_bytes fs file1 file2 :
  identical fs file1 file2 = true →
  ∃ f1 f2, fs !! file1 = Some f1 ∧ fs !! file2 = Some f2
           ∧ same_bytes (content f1) (content f2).
Proof.
  unfold identical, verdict.
  destruct (fs !! file1) as [f1|]; [|done].
  destruct (fs !! file2) as [f2|]; [|done].
  intros H. exists f1, f2. split; [done|]. split; [done|].
  apply same_bytes_eq. unfold file_len in H.
  destruct (N.eqb_spec (N.of_nat (length (content f1)))
                       (N.of_nat (length (content f2)))) as [Hlen|]; [|done].
  cbn [negb] in H.
  destruct (N.eqb_spec (N.of_nat (length (content f1))) 0) as [Hz|].
  - rewrite Hz in Hlen.
    destruct (content f1), (content f2); simpl in *; try done; lia.
  - destruct (can_open f1 && can_open f2); [|done].
    destruct (decide (content f1 = content f2)) as [|Hne]; [done|].
    by rewrite (bool_decide_eq_false_2 _ Hne) in H.
Qed.

(** ** The clustering loop of [findExactDuplicates] *)

Lemma pending_step (records : list path) (processed : list bool) (j : nat) r (p : bool) :
  records !! j = Some r → processed !! j = Some p →
  pending (drop j records) (drop j processed)
  = (if p then [] else [r]) ++ pending (drop (S j) records) (drop (S j) processed).
Proof.
  intros Hr Hp. rewrite (drop_S _ _ _ Hr), (drop_S _ _ _ Hp). by destruct p.
Qed.

Lemma pending_fresh records :
  pending records (replicate (length records) false) = records.
Proof. induction records as [|r records IH]; simpl; [done|]. by rewrite IH. Qed.

Lemma take_S_eq_take {A} (l1 l2 : list A) j :
  take (S j) l1 = take (S j) l2 → take j l1 = take j l2.
Proof.
  intros H. rewrite <- (Nat.min_l j (S j)), <- !take_take by lia. by rewrite H.
Qed.

Lemma take_S_eq_lookup {A} (l1 l2 : list A) j :
  take (S j) l1 = take (S j) l2 → l1 !! j = l2 !! j.
Proof.
  intros H. rewrite <- (lookup_take_lt l1 (S j)), <- (lookup_take_lt l2 (S j)) by lia.
  by rewrite H.
Qed.

Lemma compare_step ci cj j (processed : list bool) (duplicateGroup : list path) w :
  ∃ w',
    try_catch
      (let* same := areFilesIdentical ci cj in
       if same
       then mret (<[j:=true]> processed, duplicateGroup ++ [cj])
       else mret (processed, duplicateGroup))
      (λ e : exn, emit (ErrCompareFailed cj);; mret (processed, duplicateGroup)) w
    = (Ret (if identical (w_fs w) ci cj
            then (<[j:=true]> processed, duplicateGroup ++ [cj])
            else (processed, duplicateGroup)), w')
    ∧ w_fs w' = w_fs w.
Proof.
  destruct (areFilesIdentical_run ci cj w) as (reads & Hrun & _).
  destruct (verdict_defined (w_fs w) ci cj) as [Hu Ho].
  unfold try_catch, bind at 1. rewrite Hrun. unfold identical.
  destruct (verdict (w_fs w) ci cj) as [[|]|e| |]; try done; eexists; split; done.
Qed.

Lemma exact_inner_loop_run (c : list path) (i : nat) a count :
  ∀ j (processed : list bool) duplicateGroup w,
  c !! i = Some a → (j + count = length c)%nat → length processed = length c →
  ∃ processed' w',
    exact_inner_loop c i count j processed duplicateGroup w
    = (Ret (processed',
            duplicateGroup
            ++ List.filter (identical (w_fs w) a)
                 (pending (drop j c) (drop j processed))), w')
    ∧ w_fs w' = w_fs w
    ∧ length processed' = length c
    ∧ take j processed' = take j processed
    ∧ pending (drop j c) (drop j processed')
      = List.filter (λ x, negb (identical (w_fs w) a x))
          (pending (drop j c) (drop j processed)).
Proof.
  induction count as [|count IH]; intros j processed duplicateGroup w Ha Hj Hlen.
  - exists processed, w. cbn [exact_inner_loop].
    rewrite !drop_ge by lia. cbn. by rewrite app_nil_r.
  - cbn [exact_inner_loop].
    destruct (lookup_lt_is_Some_2 processed j) as [pj Hpj]; [lia|].
    destruct (lookup_lt_is_Some_2 c j) as [cj Hcj]; [lia|].
    rewrite Hpj, Ha, Hcj. rewrite (pending_step _ _ _ _ _ Hcj Hpj).
    destruct pj.
    + destruct (IH (S j) processed duplicateGroup w)
        as (P' & w' & Hrun & Hfs & HlenP & Htake & Hpend); [done|lia|done|].
      exists P', w'. rewrite Hrun. cbn [app].
      split; [done|]. split; [done|]. split; [done|].
      assert (P' !! j = Some true) as HP'j.
      { by rewrite (take_S_eq_lookup _ _ _ Htake). }
      split; [by apply take_S_eq_take|].
      rewrite (pending_step _ _ _ _ _ Hcj HP'j). done.
    + unfold bind at 1.
      destruct (compare_step a cj j processed duplicateGroup w) as (w1 & Hstep & Hfs1).
      rewrite Hstep.
      destruct (identical (w_fs w) a cj) eqn:Hsame.
      * destruct (IH (S j) (<[j:=true]> processed) (duplicateGroup ++ [cj]) w1)
          as (P' & w' & Hrun & Hfs & HlenP & Htake & Hpend);
          [done|lia|by rewrite length_insert|].
        exists P', w'. rewrite Hrun, Hfs1.
        rewrite drop_insert_lt in Hpend |- * by lia.
        cbn [app List.filter]. rewrite Hsame. cbn [negb].
        split; [by rewrite <- app_assoc|]. split; [congruence|]. split; [done|].
        assert (P' !! j = Some true) as HP'j.
        { rewrite (take_S_eq_lookup _ _ _ Htake). apply list_lookup_insert_eq. lia. }
        split.
        -- rewrite (take_S_eq_take _ _ _ Htake). by rewrite take_insert_ge by lia.
        -- rewrite (pending_step _ _ _ _ _ Hcj HP'j). cbn [app].
           by rewrite Hpend, Hfs1.
      * destruct (IH (S j) processed duplicateGroup w1)
          as (P' & w' & Hrun & Hfs & HlenP & Htake & Hpend); [done|lia|done|].
        exists P', w'. rewrite Hrun, Hfs1.
        cbn [app List.filter]. rewrite Hsame. cbn [negb].
        split; [done|]. split; [congruence|]. split; [done|].
        assert (P' !! j = Some false) as HP'j.
        { by rewrite (take_S_eq_lookup _ _ _ Htake). }
        split; [by apply take_S_eq_take|].
        rewrite (pending_step _ _ _ _ _ Hcj HP'j). cbn [app].
        by rewrite Hpend, Hfs1.
Qed.

Lemma exact_outer_loop_run (c : list path) count :
  ∀ i (processed : list bool) duplicateGroups w,
  (i + count = length c)%nat → length processed = length c →
  ∃ w',
    exact_outer_loop c count i processed duplicateGroups w
    = (Ret (duplicateGroups
            ++ grouping (identical (w_fs w))
                 (pending (drop i c) (drop i processed))), w')
    ∧ w_fs w' = w_fs w.
Proof.
  induction count as [|count IH]; intros i processed duplicateGroups w Hi Hlen.
  - exists w. cbn [exact_outer_loop]. rewrite !drop_ge by lia. cbn.
    simp grouping. by rewrite app_nil_r.
  - cbn [exact_outer_loop].
    destruct (lookup_lt_is_Some_2 processed i) as [pi Hpi]; [lia|].
    destruct (lookup_lt_is_Some_2 c i) as [ci Hci]; [lia|].
    rewrite Hpi, Hci, (pending_step _ _ _ _ _ Hci Hpi).
    destruct pi; cbn [app].
    + destruct (IH (S i) processed duplicateGroups w) as (w' & Hrun & Hfs); [lia|done|].
      exists w'. by rewrite Hrun.
    + unfold bind at 1.
      destruct (exact_inner_loop_run c i ci (length c - (i + 1)) (i + 1)
                  (<[i:=true]> processed) [ci] w)
        as (P' & w1 & Hrun & Hfs1 & HlenP & _ & Hpend);
        [done|lia|by rewrite length_insert|].
      rewrite Hrun. rewrite Nat.add_1_r in Hpend |- *.
      rewrite drop_insert_lt in Hpend |- * by lia.
      destruct (IH (S i) P'
                  (if (1 <? length ([ci] ++ List.filter (identical (w_fs w) ci)
                          (pending (drop (S i) c) (drop (S i) processed))))%nat
                   then duplicateGroups
                        ++ [[ci] ++ List.filter (identical (w_fs w) ci)
                              (pending (drop (S i) c) (drop (S i) processed))]
                   else duplicateGroups) w1) as (w' & Hrun' & Hfs'); [lia|done|].
      exists w'. rewrite Hrun', Hfs1, Hpend. split; [|congruence].
      simp grouping. unfold emit_group. cbn [app].
      destruct (1 <? _)%nat; [by rewrite <- app_assoc|done].
Qed.

(** ** Facts about the grouping procedure *)

Lemma List_filter_sublist {A} (f : A → bool) (l : list A) :
  sublist (List.filter f l) l.
Proof.
  induction l as [|x l IH]; simpl; [constructor|].
  destruct (f x); by constructor.
Qed.

Lemma elem_of_emit_group g group :
  g ∈ emit_group group ↔ g = group ∧ (2 ≤ length group)%nat.
Proof.
  unfold emit_group. destruct (Nat.ltb_spec 1 (length group)) as [H|H].
  - rewrite list_elem_of_singleton. intuition lia.
  - split; [by intros ?%not_elem_of_nil|lia].
Qed.

Lemma anchors_app g1 g2 : anchors (g1 ++ g2) = anchors g1 ++ anchors g2.
Proof. unfold anchors. apply omap_app. Qed.

Lemma grouping_facts same records :
  Forall (λ g, ∃ anchor members,
            g = anchor :: members ∧ members ≠ []
            ∧ Forall (λ m, same anchor m = true) members
            ∧ sublist g records)
         (grouping same records)
  ∧ sublist (anchors (grouping same records)) records.
Proof.
  funelim (grouping same records); simp grouping.
  - split; constructor.
  - destruct H as [IHg IHa]. split.
    + apply Forall_app. split.
      * apply Forall_forall. intros g [-> Hlen]%elem_of_emit_group.
        exists anchor, (List.filter (same anchor) later).
        split; [done|]. split.
        { intros E. rewrite E in Hlen. simpl in Hlen. lia. }
        split.
        { apply Forall_forall. intros m Hm.
          apply list_elem_of_In, filter_In in Hm. tauto. }
        apply sublist_skip, List_filter_sublist.
      * eapply Forall_impl; [exact IHg|].
        intros g (a & ms & -> & Hne & Hall & Hsub).
        exists a, ms. split; [done|]. split; [done|]. split; [done|].
        apply sublist_cons. etrans; [exact Hsub|]. apply List_filter_sublist.
    + rewrite anchors_app.
      assert (sublist (anchors (grouping same
                (List.filter (λ j, negb (same anchor j)) later))) later) as Hrest.
      { etrans; [exact IHa|]. apply List_filter_sublist. }
      unfold emit_group. destruct (1 <? _)%nat; cbn.
      * by apply sublist_skip.
      * by apply sublist_cons.
Qed.

(** C1: [findExactDuplicates] returns what the procedure of the exact
    comparator prescribes ([grouping]: the first record not yet processed
    anchors a group, every later record not yet processed that
    [areFilesIdentical] accepts joins it and is processed, the group is
    emitted iff it has two members or more), and it leaves the filesystem
    as it was; the test [identical] used by the procedure is the answer
    [true] of [areFilesIdentical] on that filesystem; every emitted group has at least two members; any two
    members of an emitted group exist and have identical length and
    identical bytes at every offset; the anchors of the emitted groups and
    the members of every group follow the order of the candidates. *)
Theorem findExactDuplicates_groups candidateGroup w :
  ∃ w',
    findExactDuplicates candidateGroup w
    = (Ret (grouping (identical (w_fs w)) candidateGroup), w')
    ∧ w_fs w' = w_fs w
    ∧ (∀ file1 file2 w0, w_fs w0 = w_fs w →
         (identical (w_fs w) file1 file2 = true
          ↔ (areFilesIdentical file1 file2 w0).1 = Ret true))
    ∧ (∀ anchor later,
         grouping (identical (w_fs w)) (anchor :: later)
         = emit_group (anchor :: List.filter (identical (w_fs w) anchor) later)
           ++ grouping (identical (w_fs w))
                (List.filter (λ j, negb (identical (w_fs w) anchor j)) later))
    ∧ (∀ group, [group] = emit_group group ↔ (2 ≤ length group)%nat)
    ∧ Forall (λ group, (2 ≤ length group)%nat)
             (grouping (identical (w_fs w)) candidateGroup)
    ∧ (∀ group p q,
         group ∈ grouping (identical (w_fs w)) candidateGroup →
         p ∈ group → q ∈ group →
         ∃ f1 f2, w_fs w !! p = Some f1 ∧ w_fs w !! q = Some f2
                  ∧ same_bytes (content f1) (content f2))
    ∧ sublist (anchors (grouping (identical (w_fs w)) candidateGroup)) candidateGroup
    ∧ Forall (λ group, sublist group candidateGroup)
             (grouping (identical (w_fs w)) candidateGroup).
Proof.
  destruct (exact_outer_loop_run candidateGroup (length candidateGroup) 0
              (replicate (length candidateGroup) false) [] w)
    as (w' & Hrun & Hfs); [done|by rewrite length_replicate|].
  exists w'. unfold findExactDuplicates. rewrite Hrun.
  rewrite !drop_0, pending_fresh. cbn [app].
  destruct (grouping_facts (identical (w_fs w)) candidateGroup) as [Hg Ha].
  split; [done|]. split; [done|].
  split.
  { intros file1 file2 w0 Hw0.
    destruct (areFilesIdentical_run file1 file2 w0) as (reads & -> & _).
    cbn [fst]. rewrite Hw0. unfold identical.
    destruct (verdict (w_fs w) file1 file2) as [[|]| | |]; split; done. }
  split; [intros anchor later; by simp grouping|].
  split.
  { intros group. unfold emit_group.
    destruct (Nat.ltb_spec 1 (length group)); split; try done; lia. }
  split.
  { eapply Forall_impl; [exact Hg|].
    intros g (a & ms & -> & Hne & _). destruct ms; [done|simpl; lia]. }
  split.
  { intros group p q Hgroup Hp Hq.
    rewrite Forall_forall in Hg.
    destruct (Hg _ Hgroup) as (a & ms & -> & Hne & Hall & _).
    rewrite Forall_forall in Hall.
    assert (∃ fa, w_fs w !! a = Some fa) as [fa Hfa].
    { destruct ms as [|m ms]; [done|].
      destruct (identical_same_bytes (w_fs w) a m) as (fa & _ & ? & _);
        [apply Hall; by left|]. by exists fa. }
    assert (∀ x, x ∈ a :: ms →
              ∃ fx, w_fs w !! x = Some fx ∧ content fa = content fx) as Hmember.
    { intros x [->|Hx]%elem_of_cons; [by exists fa|].
      destruct (identical_same_bytes (w_fs w) a x) as (fa' & fx & ? & ? & E);
        [by apply Hall|].
      apply same_bytes_eq in E. exists fx. split; [done|]. congruence. }
    destruct (Hmember p Hp) as (fp & ? & Ep), (Hmember q Hq) as (fq & ? & Eq).
    exists fp, fq. split; [done|]. split; [done|].
    apply same_bytes_eq. congruence. }
  split; [done|].
  eapply Forall_impl; [exact Hg|]. by intros g (a & ms & -> & _ & _ & Hsub).
Qed.

Example findExactDuplicates_pair :
  (findExactDuplicates [sample_a; sample_b] world_pair).1
  = Ret [[sample_a; sample_b]].
Proof. vm_compute. reflexivity. Qed.

(** ** Automatic selection *)

Lemma last_write_time_run p f w :
  w_fs w !! p = Some f → last_write_time p w = (Ret (mtime f), w).
Proof. intros H. unfold last_write_time, bind, get_fs. by rewrite H. Qed.

Lemma collect_times_run group : ∀ i times w,
  Forall (λ p, is_Some (w_fs w !! p)) group →
  collect_times group i times w = (Ret (times ++ times_from (w_fs w) i group), w).
Proof.
  induction group as [|p rest IH]; intros i times w Hall.
  - cbn. by rewrite app_nil_r.
  - apply Forall_cons in Hall as [[f Hf] Hall].
    cbn [collect_times times_from]. unfold bind at 1.
    rewrite (last_write_time_run _ _ _ Hf), IH by done.
    unfold mtime_of. rewrite Hf. by rewrite <- app_assoc.
Qed.

Lemma times_from_index fs group : ∀ i t k,
  (t, k) ∈ times_from fs i group →
  (i + 1 ≤ k ≤ i + length group)%nat ∧ ∃ p, group !! (k - (i + 1))%nat = Some p ∧ t = mtime_of fs p.
Proof.
  induction group as [|p rest IH]; intros i t k Hin.
  - by apply not_elem_of_nil in Hin.
  - cbn [times_from] in Hin. apply elem_of_cons in Hin as [E|Hin].
    + inversion E; subst. split; [simpl; lia|].
      exists p. by rewrite Nat.sub_diag.
    + apply IH in Hin as [Hk (q & Hq & ->)]. split; [simpl; lia|].
      exists q. split; [|done].
      replace (k - (i + 1))%nat with (S (k - (S i + 1))) by lia. done.
Qed.

Lemma longest_loop_range group : ∀ i maxLength keepIndex,
  let k := longest_loop group i maxLength keepIndex in
  k = keepIndex ∨ (i + 1 ≤ k ≤ i + length group)%nat.
Proof.
  induction group as [|p rest IH]; intros i maxLength keepIndex; cbn.
  - by left.
  - destruct (maxLength <? name_length p).
    + right. destruct (IH (S i) (name_length p) (i + 1)%nat) as [->|H]; lia.
    + destruct (IH (S i) maxLength keepIndex) as [->|H]; [by left|right; lia].
Qed.

Lemma shortest_loop_range group : ∀ i minLength keepIndex,
  let k := shortest_loop group i minLength keepIndex in
  k = keepIndex ∨ (i + 1 ≤ k ≤ i + length group)%nat.
Proof.
  induction group as [|p rest IH]; intros i minLength keepIndex; cbn.
  - by left.
  - destruct (name_length p <? minLength).
    + right. destruct (IH (S i) (name_length p) (i + 1)%nat) as [->|H]; lia.
    + destruct (IH (S i) minLength keepIndex) as [->|H]; [by left|right; lia].
Qed.

Lemma sorted_head_range {less : Z * nat → Z * nat → bool} fs group :
  group ≠ [] →
  ∃ t k rest, std_sort less (times_from fs 0 group) = (t, k) :: rest
              ∧ (1 ≤ k ≤ length group)%nat.
Proof.
  intros Hne.
  destruct (std_sort less (times_from fs 0 group)) as [|[t k] rest] eqn:E.
  - pose proof (std_sort_perm less (times_from fs 0 group)) as Hp.
    rewrite E in Hp. apply Permutation_nil_l in Hp. by destruct group.
  - exists t, k, rest. split; [done|].
    assert ((t, k) ∈ times_from fs 0 group) as Hin.
    { rewrite <- (std_sort_perm less), E. by left. }
    apply times_from_index in Hin as [Hk _]. lia.
Qed.

Lemma choose_strategy_run w :
  ∃ s w', choose_strategy w = (Ret s, w')
    ∧ s ∈ strategies
    ∧ w_fs w' = w_fs w
    ∧ (head (w_stdin w) ∉ [Some "1"; Some "2"; Some "3"; Some "4"] → s = "newest").
Proof.
  unfold choose_strategy, bind, emit, getline, strategies. cbn.
  destruct (w_stdin w) as [|l rest]; cbn.
  - eexists _, _. split; [done|]. split; [by left|]. done.
  - repeat case_decide; subst; eexists _, _; (split; [done|]);
      (split; [rewrite !elem_of_cons; tauto|]); (split; [done|]); try done;
      intros Habsurd; exfalso; apply Habsurd; rewrite !elem_of_cons; tauto.
Qed.

(** C10: on a non-empty group whose members exist, [autoSelectKeepFiles]
    returns a singleton [{k}] with [1 ≤ k ≤ |group|] for each of the four
    strategy names and the empty set for every other string; the empty set
    is not an admissible keep-set; the strategy menu of the controller only
    ever yields one of the four names, and yields ["newest"] for
    every input other than ["1"], ["2"], ["3"], ["4"]. *)
Theorem autoSelectKeepFiles_result group strategy w :
  group ≠ [] →
  Forall (λ p, is_Some (w_fs w !! p)) group →
  (strategy ∈ strategies →
     ∃ k, autoSelectKeepFiles group strategy w = (Ret {[ k ]}, w)
          ∧ (1 ≤ k ≤ length group)%nat)
  ∧ (strategy ∉ strategies → autoSelectKeepFiles group strategy w = (Ret ∅, w))
  ∧ ¬ keep_ok group ∅
  ∧ (∀ w0, ∃ s w1, choose_strategy w0 = (Ret s, w1)
        ∧ s ∈ strategies
        ∧ (head (w_stdin w0) ∉ [Some "1"; Some "2"; Some "3"; Some "4"]
           → s = "newest")).
Proof.
  intros Hne Hall. split; [|split; [|split]].
  - unfold strategies. rewrite !elem_of_cons.
    intros [->|[->|[->|[->|H]]]]; [| | | |by apply not_elem_of_nil in H];
      unfold autoSelectKeepFiles.
    + rewrite decide_True by done.
      unfold bind. rewrite collect_times_run by done. cbn [app].
      destruct (@sorted_head_range pair_greater (w_fs w) group Hne)
        as (t & k & rest & -> & Hk).
      exists k. cbn. by rewrite (right_id_L ∅ (∪)).
    + rewrite decide_False, decide_True by done.
      unfold bind. rewrite collect_times_run by done. cbn [app].
      destruct (@sorted_head_range pair_less (w_fs w) group Hne)
        as (t & k & rest & -> & Hk).
      exists k. cbn. by rewrite (right_id_L ∅ (∪)).
    + rewrite !decide_False, decide_True by done.
      eexists. rewrite (right_id_L ∅ (∪)). split; [done|].
      destruct (longest_loop_range group 0 0 1) as [->|H]; [|lia].
      destruct group; [done|simpl; lia].
    + rewrite !decide_False, decide_True by done.
      eexists. rewrite (right_id_L ∅ (∪)). split; [done|].
      destruct (shortest_loop_range group 0 SIZE_MAX 1) as [->|H]; [|lia].
      destruct group; [done|simpl; lia].
  - unfold strategies. rewrite !elem_of_cons. intros Hnot.
    unfold autoSelectKeepFiles.
    rewrite !decide_False by tauto. done.
  - intros [H _]. done.
  - intros w0. destruct (choose_strategy_run w0) as (s & w1 & ? & ? & _ & ?).
    by exists s, w1.
Qed.

(** ** Reasoning about runs *)

Section respects_rules.
Context (R : world → world → Prop) `{!PreOrder R}.

Lemma respects_mret {A} (a : A) : respects R (mret a).
Proof. intros w r w' E. inversion E; subst. reflexivity. Qed.

Lemma respects_throw {A} e : respects R (@throw A e).
Proof. intros w r w' E. inversion E; subst. reflexivity. Qed.

Lemma respects_undefined {A} : respects R (@undefined A).
Proof. intros w r w' E. inversion E; subst. reflexivity. Qed.

Lemma respects_out_of_fuel {A} : respects R (@out_of_fuel A).
Proof. intros w r w' E. inversion E; subst. reflexivity. Qed.

Lemma respects_bind {A B} (m : M A) (f : A → M B) :
  respects R m → (∀ a, respects R (f a)) → respects R (bind m f).
Proof.
  intros Hm Hf w r w' E. unfold bind in E.
  destruct (m w) as [r1 w1] eqn:E1. specialize (Hm _ _ _ E1).
  destruct r1 as [a|e| |]; try (inversion E; subst; done).
  etrans; [exact Hm|]. by eapply Hf.
Qed.

Lemma respects_try_catch {A} (body : M A) handler :
  respects R body → (∀ e, respects R (handler e)) → respects R (try_catch body handler).
Proof.
  intros Hm Hf w r w' E. unfold try_catch in E.
  destruct (body w) as [r1 w1] eqn:E1. specialize (Hm _ _ _ E1).
  destruct r1 as [a|e| |]; try (inversion E; subst; done).
  etrans; [exact Hm|]. by eapply Hf.
Qed.

Lemma respects_try_catch_total {A} (body : M A) handler :
  respects R body → (∀ w e w', body w ≠ (Raise e, w')) →
  respects R (try_catch body handler).
Proof.
  intros Hm Hno w r w' E. unfold try_catch in E.
  destruct (body w) as [r1 w1] eqn:E1. specialize (Hm _ _ _ E1).
  destruct r1 as [a|e| |]; try (inversion E; subst; done).
  by apply Hno in E1.
Qed.
End respects_rules.

Lemma returns_mret {A} (a : A) (Q : A → Prop) : Q a → returns (mret a) Q.
Proof. intros H w a' w' E. by inversion E; subst. Qed.

Lemma returns_throw {A} e (Q : A → Prop) : returns (throw e) Q.
Proof. intros w a w' E. inversion E. Qed.

Lemma returns_undefined {A} (Q : A → Prop) : returns undefined Q.
Proof. intros w a w' E. inversion E. Qed.

Lemma returns_out_of_fuel {A} (Q : A → Prop) : returns out_of_fuel Q.
Proof. intros w a w' E. inversion E. Qed.

Lemma returns_bind {A B} (m : M A) (f : A → M B) (Q1 : A → Prop) (Q : B → Prop) :
  returns m Q1 → (∀ a, Q1 a → returns (f a) Q) → returns (bind m f) Q.
Proof.
  intros Hm Hf w b w' E. unfold bind in E.
  destruct (m w) as [r1 w1] eqn:E1.
  destruct r1 as [a|e| |]; try (inversion E; subst; done).
  eapply Hf; [|exact E]. by eapply Hm.
Qed.

Lemma returns_any {A} (m : M A) : returns m (λ _, True).
Proof. by intros w a w' E. Qed.

Lemma returns_seq {A B} (m : M A) (k : M B) (Q : B → Prop) :
  returns k Q → returns (bind m (λ _, k)) Q.
Proof. intros Hk. eapply returns_bind; [apply returns_any|]. by intros _ _. Qed.

Lemma returns_try_catch {A} (body : M A) handler (Q : A → Prop) :
  returns body Q → (∀ e, returns (handler e) Q) → returns (try_catch body handler) Q.
Proof.
  intros Hm Hf w b w' E. unfold try_catch in E.
  destruct (body w) as [r1 w1] eqn:E1.
  destruct r1 as [a|e| |]; try (inversion E; subst; done).
  - inversion E; subst. by eapply Hm.
  - by eapply Hf.
Qed.

#[global] Instance frame_preorder D : PreOrder (frame D).
Proof.
  split.
  - by intros w p _.
  - intros w1 w2 w3 H12 H23 p Hp. rewrite H23, H12; done.
Qed.

#[global] Instance printed_preorder P : PreOrder (printed P).
Proof.
  split.
  - intros w. exists []. by rewrite app_nil_r.
  - intros w1 w2 w3 (e1 & E1 & H1) (e2 & E2 & H2).
    exists (e1 ++ e2). rewrite E2, E1, app_assoc. split; [done|].
    by apply Forall_app.
Qed.

(** ** The deleter *)

Lemma respects_emit R `{!PreOrder R} e :
  (∀ w, R w (World (w_fs w) (w_stdin w) (w_stdout w ++ [e]) (w_io w))) →
  respects R (emit e).
Proof. intros H w r w' E. inversion E; subst. apply H. Qed.

Lemma frame_emit D e : respects (frame D) (emit e).
Proof. apply respects_emit; [apply _|]. by intros w p _. Qed.

Lemma printed_emit (P : out_event → Prop) e : P e → respects (printed P) (emit e).
Proof.
  intros He. apply respects_emit; [apply _|]. intros w. exists [e]. split; [done|].
  by constructor.
Qed.

Lemma respects_getFileSize R `{!PreOrder R} p : respects R (getFileSize p).
Proof.
  intros w r w' E. unfold getFileSize, bind, get_fs in E.
  destruct (w_fs w !! p); inversion E; subst; reflexivity.
Qed.

Lemma frame_fs_remove (D : path → Prop) p : D p → respects (frame D) (fs_remove p).
Proof.
  intros HD w r w' E. unfold fs_remove, bind, get_fs, put_fs in E.
  destruct (w_fs w !! p) as [f|]; [|inversion E; subst; reflexivity].
  destruct (can_remove f); inversion E; subst; [|reflexivity].
  intros q Hq. cbn. apply lookup_delete_ne. by intros ->.
Qed.

Lemma frame_mono {A} (D D' : path → Prop) (m : M A) :
  (∀ p, D p → D' p) → respects (frame D) m → respects (frame D') m.
Proof. intros HD Hm w r w' E q Hq. eapply Hm; [exact E|]. naive_solver. Qed.

Lemma delete_members_frame dryRun group keepSet : ∀ i c,
  respects (frame (λ p, dryRun = false ∧ p ∈ doomed_members group keepSet i))
           (delete_members dryRun group keepSet i c).
Proof.
  induction group as [|p rest IH]; intros i c; cbn [delete_members doomed_members].
  - apply respects_mret, _.
  - destruct (bool_decide _); [apply IH|].
    apply respects_bind; [apply _|apply respects_getFileSize, _|]. intros fileSize.
    apply respects_bind; [apply _| |].
    + apply respects_try_catch; [apply _| |].
      * apply respects_bind; [apply _| |intros; apply respects_mret, _].
        destruct dryRun; cbn [negb]; [apply frame_emit|].
        apply respects_bind; [apply _| |intros; apply frame_emit].
        apply frame_fs_remove. split; [done|]. by left.
      * intros e. apply respects_bind; [apply _|apply frame_emit|].
        intros; apply respects_mret, _.
    + intros c'. eapply frame_mono; [|apply IH].
      intros q [? ?]. split; [done|]. by right.
Qed.

Lemma delete_members_printed group keepSet : ∀ i c,
  respects (printed simulation_event) (delete_members true group keepSet i c).
Proof.
  induction group as [|p rest IH]; intros i c; cbn [delete_members].
  - apply respects_mret, _.
  - destruct (bool_decide _); [apply IH|].
    apply respects_bind; [apply _|apply respects_getFileSize, _|]. intros fileSize.
    apply respects_bind; [apply _| |intros; apply IH].
    (* a simulated deletion is an [emit], which raises nothing, so the
       handler that reports a failure does not run *)
    apply respects_try_catch_total; [|done].
    apply respects_bind; [apply _| |intros; apply respects_mret, _].
    cbn [negb]. by apply printed_emit.
Qed.

Lemma delete_groups_frame dryRun duplicateGroups keepFiles : ∀ groupIndex c,
  respects (frame (λ p, dryRun = false ∧ p ∈ doomed duplicateGroups keepFiles groupIndex))
           (delete_groups dryRun duplicateGroups keepFiles groupIndex c).
Proof.
  induction duplicateGroups as [|group rest IH]; intros groupIndex c;
    cbn [delete_groups doomed].
  - apply respects_mret, _.
  - destruct (keepFiles !! groupIndex) as [keepSet|]; [|apply respects_undefined, _].
    apply respects_bind; [apply _| |].
    + eapply frame_mono; [|apply delete_members_frame].
      intros q [? ?]. split; [done|]. apply elem_of_app. by left.
    + intros c'. eapply frame_mono; [|apply IH].
      intros q [? ?]. split; [done|]. apply elem_of_app. by right.
Qed.

Lemma delete_groups_printed duplicateGroups keepFiles : ∀ groupIndex c,
  respects (printed simulation_event)
           (delete_groups true duplicateGroups keepFiles groupIndex c).
Proof.
  induction duplicateGroups as [|group rest IH]; intros groupIndex c;
    cbn [delete_groups].
  - apply respects_mret, _.
  - destruct (keepFiles !! groupIndex) as [keepSet|]; [|apply respects_undefined, _].
    apply respects_bind; [apply _|apply delete_members_printed|]. intros; apply IH.
Qed.

Lemma deletion_report_frame dryRun D c : respects (frame D) (deletion_report dryRun c).
Proof.
  unfold deletion_report.
  apply respects_bind; [apply _|apply frame_emit|]. intros _.
  destruct dryRun; [apply frame_emit|apply respects_mret, _].
Qed.

Lemma deletion_report_printed c :
  respects (printed simulation_event) (deletion_report true c).
Proof.
  unfold deletion_report.
  apply respects_bind; [apply _|by apply printed_emit|]. intros _.
  by apply printed_emit.
Qed.

Lemma performDeletion_frame dryRun duplicateGroups keepFiles :
  respects (frame (λ p, dryRun = false ∧ p ∈ doomed duplicateGroups keepFiles 0))
           (performDeletionWithCustomRetention dryRun duplicateGroups keepFiles).
Proof.
  unfold performDeletionWithCustomRetention.
  apply respects_bind; [apply _|apply delete_groups_frame|].
  intros c. apply deletion_report_frame.
Qed.

Lemma performDeletion_printed duplicateGroups keepFiles :
  respects (printed simulation_event)
           (performDeletionWithCustomRetention true duplicateGroups keepFiles).
Proof.
  unfold performDeletionWithCustomRetention.
  apply respects_bind; [apply _|apply delete_groups_printed|].
  intros c. apply deletion_report_printed.
Qed.

Lemma frame_nothing w w' : frame (λ p, true = false ∧ False) w w' → w_fs w' = w_fs w.
Proof. intros H. apply map_eq. intros p. apply H. by intros [? _]. Qed.

Example dry_run_sample :
  (sample_run true true).1 = Ret tt
  ∧ w_fs (sample_run true true).2 !! sample_a = Some five_bytes
  ∧ w_fs (sample_run true true).2 !! sample_b = Some five_bytes
  ∧ w_stdout (sample_run true true).2
    = [OutListGroups; OutAutoConfirm "customize retention?";
       OutShowRetention [{[ 1%nat ]}]; OutAutoConfirm "confirm delete?";
       OutSimulated 2 "bb.bin"; OutReport 1 0 5; OutDryRunNotice].
Proof. vm_compute. repeat split; reflexivity. Qed.

(** C4: with [dryRun] set, for every scan result, every retention plan
    and every world, both deleters end, whatever the outcome, in a world
    whose filesystem (the set of files, their bytes and their times) is the
    initial one, and everything they print is a simulated-deletion line,
    the final report or the dry-run notice; no line of an actual or failed
    deletion is printed. *)
Theorem dry_run_deletes_nothing duplicateGroups keepFiles totalSpaceSaved w :
  let global := performGlobalDeletionWithCustomRetention true duplicateGroups
                  keepFiles totalSpaceSaved w in
  let folder := performDeletionWithCustomRetention true duplicateGroups keepFiles w in
  w_fs global.2 = w_fs w
  ∧ printed simulation_event w global.2
  ∧ w_fs folder.2 = w_fs w
  ∧ printed simulation_event w folder.2.
Proof.
  assert (∀ r w', performDeletionWithCustomRetention true duplicateGroups keepFiles w
                  = (r, w') → w_fs w' = w_fs w ∧ printed simulation_event w w') as H.
  { intros r w' E. split.
    - apply frame_nothing. intros p Hp.
      eapply (performDeletion_frame true duplicateGroups keepFiles); [exact E|].
      intros [? _]. apply Hp. done.
    - by eapply performDeletion_printed. }
  cbn zeta.
  change (performGlobalDeletionWithCustomRetention true duplicateGroups keepFiles
            totalSpaceSaved w)
    with (performDeletionWithCustomRetention true duplicateGroups keepFiles w).
  destruct (performDeletionWithCustomRetention true duplicateGroups keepFiles w)
    as [r w'] eqn:E.
  destruct (H r w' eq_refl) as [? ?]. done.
Qed.

Lemma autoSelectKeepFiles_result_witness :
  ∃ k, autoSelectKeepFiles [sample_a; sample_b] "oldest" world_pair
       = (Ret {[ k ]}, world_pair)
       ∧ (1 ≤ k ≤ 2)%nat.
Proof.
  apply (proj1 (autoSelectKeepFiles_result [sample_a; sample_b] "oldest" world_pair
                  ltac:(discriminate)
                  ltac:(repeat constructor; eexists; vm_compute; reflexivity))).
  vm_compute. right. left.
Defined.

(** ** The retention plan *)

Lemma collect_times_indices group : ∀ i times,
  returns (collect_times group i times)
          (λ r, r.*2 = times.*2 ++ seq (i + 1) (length group)).
Proof.
  induction group as [|p rest IH]; intros i times; cbn [collect_times].
  - apply returns_mret. cbn. by rewrite app_nil_r.
  - eapply returns_bind; [apply returns_any|]. intros t _.
    intros w r w' E. apply IH in E. rewrite E, fmap_app. cbn.
    rewrite <- app_assoc. cbn. by rewrite Nat.add_1_r.
Qed.

Lemma sorted_head_index less (times : list (Z * nat)) first rest n :
  std_sort less times = first :: rest →
  times.*2 = seq 1 n → (1 ≤ first.2 ≤ n)%nat.
Proof.
  intros E Hidx.
  assert (first ∈ times) as Hin.
  { rewrite <- (std_sort_perm less), E. by left. }
  assert (first.2 ∈ times.*2) as Hin2 by (by apply list_elem_of_fmap_2).
  rewrite Hidx in Hin2. apply elem_of_seq in Hin2. lia.
Qed.

Lemma keep_ok_singleton group k :
  (1 ≤ k ≤ length group)%nat → keep_ok group ({[ k ]} ∪ ∅).
Proof.
  intros Hk. rewrite (right_id_L ∅ (∪)). split.
  - apply non_empty_singleton_L.
  - intros k' ->%elem_of_singleton. done.
Qed.

Lemma autoSelectKeepFiles_keep_ok group strategy :
  group ≠ [] → strategy ∈ strategies →
  returns (autoSelectKeepFiles group strategy) (keep_ok group).
Proof.
  intros Hne. unfold strategies. rewrite !elem_of_cons.
  intros [->|[->|[->|[->|H]]]]; [| | | |by apply not_elem_of_nil in H];
    unfold autoSelectKeepFiles.
  - rewrite decide_True by done.
    eapply returns_bind; [apply collect_times_indices|]. cbn. intros times Hidx.
    destruct (std_sort pair_greater times) as [|first rest] eqn:E;
      [apply returns_undefined|].
    apply returns_mret, keep_ok_singleton. by eapply sorted_head_index.
  - rewrite decide_False, decide_True by done.
    eapply returns_bind; [apply collect_times_indices|]. cbn. intros times Hidx.
    destruct (std_sort pair_less times) as [|first rest] eqn:E;
      [apply returns_undefined|].
    apply returns_mret, keep_ok_singleton. by eapply sorted_head_index.
  - rewrite !decide_False, decide_True by done.
    apply returns_mret, keep_ok_singleton.
    destruct (longest_loop_range group 0 0 1) as [->|H]; [|lia].
    destruct group; [done|simpl; lia].
  - rewrite !decide_False, decide_True by done.
    apply returns_mret, keep_ok_singleton.
    destruct (shortest_loop_range group 0 SIZE_MAX 1) as [->|H]; [|lia].
    destruct group; [done|simpl; lia].
Qed.

Lemma keep_ok_nonempty group keepSet : keep_ok group keepSet → group ≠ [].
Proof.
  intros [Hne Hsub] ->. apply set_choose_L in Hne as [k Hk].
  apply Hsub in Hk. simpl in Hk. lia.
Qed.

Lemma plan_ok_insert duplicateGroups keepFiles i group keepSet :
  plan_ok duplicateGroups keepFiles →
  duplicateGroups !! i = Some group → keep_ok group keepSet →
  plan_ok duplicateGroups (<[i:=keepSet]> keepFiles).
Proof.
  unfold plan_ok. intros Hok Hg Hk.
  rewrite <- (list_insert_id duplicateGroups i group) by done.
  by apply Forall2_insert.
Qed.

Lemma plan_ok_default duplicateGroups :
  Forall (λ g, g ≠ []) duplicateGroups →
  plan_ok duplicateGroups (default_plan duplicateGroups).
Proof.
  unfold plan_ok, default_plan. induction 1 as [|g gs Hg Hgs IH]; cbn.
  - constructor.
  - constructor; [|done]. split; [apply non_empty_singleton_L|].
    intros k ->%elem_of_singleton. destruct g; [done|simpl; lia].
Qed.

Lemma choose_strategy_returns : returns choose_strategy (λ s, s ∈ strategies).
Proof.
  intros w s w' E. destruct (choose_strategy_run w) as (s' & w1 & E' & Hs & _).
  rewrite E in E'. by inversion E'; subst.
Qed.

Lemma all_loop_plan_ok duplicateGroups strategy rest : ∀ i keepFiles,
  strategy ∈ strategies → rest = drop i duplicateGroups →
  plan_ok duplicateGroups keepFiles →
  returns (all_loop rest strategy i keepFiles) (plan_ok duplicateGroups).
Proof.
  induction rest as [|group rest IH]; intros i keepFiles Hs Hrest Hok;
    cbn [all_loop].
  - by apply returns_mret.
  - assert (duplicateGroups !! i = Some group) as Hg.
    { pose proof (f_equal (λ l, l !! 0%nat) Hrest) as H0. cbn in H0.
      rewrite lookup_drop, Nat.add_0_r in H0. done. }
    assert (group ≠ []) as Hne.
    { destruct (Forall2_lookup_l _ _ _ _ _ Hok Hg) as (ks & _ & Hks).
      by eapply keep_ok_nonempty. }
    eapply returns_bind; [by apply autoSelectKeepFiles_keep_ok|].
    intros keepSet Hk. apply IH; [done| |by eapply plan_ok_insert].
    pose proof (f_equal (drop 1) Hrest) as H1. cbn in H1.
    rewrite drop_0, drop_drop, Nat.add_1_r in H1. done.
Qed.

Lemma selection_loop_range selection members : ∀ newKeepSet,
  (∀ k, k ∈ newKeepSet → (1 ≤ k ≤ members)%nat) →
  returns (selection_loop selection members newKeepSet)
          (λ r, ∀ k, k ∈ r.1 → (1 ≤ k ≤ members)%nat).
Proof.
  induction selection as [|c rest IH]; intros newKeepSet Hacc; cbn [selection_loop].
  - by apply returns_mret.
  - destruct (_ || _); [apply returns_seq; by apply returns_mret|].
    destruct (Z.ltb_spec (Z.of_N (N_of_ascii c) - Z.of_N (N_of_ascii "0")) 1) as [|H1];
      cbn [orb]; [apply returns_seq; by apply returns_mret|].
    destruct (Z.ltb_spec (Z.of_nat members)
                (Z.of_N (N_of_ascii c) - Z.of_N (N_of_ascii "0"))) as [|H2];
      [apply returns_seq; by apply returns_mret|].
    apply IH. intros k [->%elem_of_singleton|Hk]%elem_of_union; [lia|by apply Hacc].
Qed.

Lemma plan_ok_group_nonempty duplicateGroups keepFiles i group :
  plan_ok duplicateGroups keepFiles → duplicateGroups !! i = Some group → group ≠ [].
Proof.
  intros Hok Hg. destruct (Forall2_lookup_l _ _ _ _ _ Hok Hg) as (ks & _ & Hks).
  by eapply keep_ok_nonempty.
Qed.

Lemma retention_iteration_plan_ok duplicateGroups keepFiles :
  plan_ok duplicateGroups keepFiles →
  returns (retention_iteration duplicateGroups keepFiles)
          (λ r, plan_ok duplicateGroups r.2).
Proof.
  intros Hok. unfold retention_iteration, all_command, view_command, auto_command,
    group_command.
  eapply returns_bind; [apply returns_any|]. intros input _.
  case_decide; [by apply returns_mret|].
  case_decide; [by apply returns_mret|].
  case_decide; [apply returns_seq; by apply returns_mret|].
  case_decide.
  { eapply returns_bind; [apply choose_strategy_returns|]. intros strategy Hs.
    eapply returns_bind; [by apply (all_loop_plan_ok duplicateGroups)|].
    intros keepFiles' Hok'. do 2 apply returns_seq. by apply returns_mret. }
  destruct (String.prefix _ _).
  { eapply returns_bind; [apply returns_any|]. intros groupNum _.
    apply returns_seq. by apply returns_mret. }
  case_decide.
  - eapply returns_bind; [apply returns_any|]. intros groupInput _.
    apply returns_try_catch; [|intros e; apply returns_seq; by apply returns_mret].
    eapply returns_bind; [apply returns_any|]. intros groupNum _.
    destruct (group_out_of_range _ _); [apply returns_seq; by apply returns_mret|].
    eapply returns_bind; [apply choose_strategy_returns|]. intros strategy Hs.
    destruct (duplicateGroups !! _) as [group|] eqn:Hg; [|apply returns_undefined].
    eapply returns_bind.
    { apply autoSelectKeepFiles_keep_ok; [|done]. by eapply plan_ok_group_nonempty. }
    intros keepSet Hk. apply returns_seq, returns_mret. by eapply plan_ok_insert.
  - apply returns_try_catch; [|intros e; apply returns_seq; by apply returns_mret].
    eapply returns_bind; [apply returns_any|]. intros groupNum _.
    destruct (group_out_of_range _ _); [apply returns_seq; by apply returns_mret|].
    destruct (duplicateGroups !! _) as [group|] eqn:Hg; [|apply returns_undefined].
    destruct (keepFiles !! _) as [current|]; [|apply returns_undefined].
    do 2 apply returns_seq.
    eapply returns_bind; [apply returns_any|]. intros selection _.
    eapply returns_bind; [by apply (selection_loop_range selection (length group) ∅)|].
    intros [newKeepSet validInput] Hrange. cbn [fst] in Hrange.
    destruct validInput; cbn [andb].
    + case_bool_decide as Hempty; cbn [negb].
      * apply returns_seq. by apply returns_mret.
      * apply returns_seq, returns_mret. by eapply plan_ok_insert.
    + case_bool_decide; [apply returns_seq|]; by apply returns_mret.
Qed.

Lemma retention_loop_plan_ok fuel duplicateGroups : ∀ keepFiles,
  plan_ok duplicateGroups keepFiles →
  returns (retention_loop fuel duplicateGroups keepFiles) (plan_ok duplicateGroups).
Proof.
  induction fuel as [|fuel IH]; intros keepFiles Hok; cbn [retention_loop].
  - apply returns_out_of_fuel.
  - eapply returns_bind; [by apply retention_iteration_plan_ok|].
    intros [ctl keepFiles'] Hok'. destruct ctl; [by apply IH|by apply returns_mret].
Qed.

Lemma plan_and_confirm_plan_ok autoConfirm fuel duplicateGroups :
  Forall (λ g, g ≠ []) duplicateGroups →
  returns (plan_and_confirm autoConfirm fuel duplicateGroups)
          (λ plan, ∀ keepFiles, plan = Some keepFiles → plan_ok duplicateGroups keepFiles).
Proof.
  intros Hne. unfold plan_and_confirm. apply returns_seq.
  eapply returns_bind; [apply returns_any|]. intros customizeRetention _.
  eapply (returns_bind _ _ (plan_ok duplicateGroups)).
  - destruct customizeRetention.
    + eapply returns_bind.
      * apply retention_loop_plan_ok. by apply plan_ok_default.
      * intros keepFiles Hok. apply returns_seq. by apply returns_mret.
    + apply returns_mret. by apply plan_ok_default.
  - intros keepFiles Hok.
    eapply returns_bind; [apply returns_any|]. intros confirmDelete _.
    destruct confirmDelete; cbn [negb].
    + apply returns_mret. by intros ? [= <-].
    + apply returns_seq, returns_mret. done.
Qed.

Lemma elem_of_doomed_members p group keepSet : ∀ i,
  p ∈ doomed_members group keepSet i →
  ∃ j, group !! j = Some p ∧ (i + j + 1)%nat ∉ keepSet.
Proof.
  induction group as [|q rest IH]; intros i Hp; cbn [doomed_members] in Hp.
  - by apply not_elem_of_nil in Hp.
  - case_bool_decide as Hk.
    + destruct (IH _ Hp) as (j & Hj & Hnot). exists (S j). split; [done|].
      by replace (i + S j + 1)%nat with (S i + j + 1)%nat by lia.
    + apply elem_of_cons in Hp as [->|Hp].
      * exists 0%nat. split; [done|]. by rewrite Nat.add_0_r.
      * destruct (IH _ Hp) as (j & Hj & Hnot). exists (S j). split; [done|].
        by replace (i + S j + 1)%nat with (S i + j + 1)%nat by lia.
Qed.

Lemma elem_of_doomed p duplicateGroups keepFiles : ∀ groupIndex,
  p ∈ doomed duplicateGroups keepFiles groupIndex →
  ∃ a group keepSet j,
    duplicateGroups !! a = Some group
    ∧ keepFiles !! (groupIndex + a)%nat = Some keepSet
    ∧ group !! j = Some p ∧ (j + 1)%nat ∉ keepSet.
Proof.
  induction duplicateGroups as [|group rest IH]; intros groupIndex Hp;
    cbn [doomed] in Hp.
  - by apply not_elem_of_nil in Hp.
  - apply elem_of_app in Hp as [Hp|Hp].
    + destruct (keepFiles !! groupIndex) as [keepSet|] eqn:Hk;
        [|by apply not_elem_of_nil in Hp].
      apply elem_of_doomed_members in Hp as (j & Hj & Hnot).
      exists 0%nat, group, keepSet, j. by rewrite Nat.add_0_r.
    + destruct (IH _ Hp) as (a & g & ks & j & Hg & Hks & Hj & Hnot).
      exists (S a), g, ks, j. split; [done|]. split; [|done].
      by replace (groupIndex + S a)%nat with (S groupIndex + a)%nat by lia.
Qed.

Lemma NoDup_concat_lookup (groups : list (list path)) : ∀ a b g1 g2 i j p,
  NoDup (concat groups) →
  groups !! a = Some g1 → g1 !! i = Some p →
  groups !! b = Some g2 → g2 !! j = Some p →
  a = b ∧ i = j.
Proof.
  induction groups as [|g groups IH]; intros a b g1 g2 i j p Hnd Ha Hi Hb Hj;
    [done|].
  cbn [concat] in Hnd. apply NoDup_app in Hnd as (Hg & Hdisj & Hrest).
  assert (∀ c g' k, groups !! c = Some g' → g' !! k = Some p → p ∈ concat groups)
    as Hin.
  { intros c g' k Hc Hk. apply list_elem_of_In, in_concat. exists g'.
    split; apply list_elem_of_In; by eapply list_elem_of_lookup_2. }
  destruct a as [|a], b as [|b]; cbn in Ha, Hb.
  - simplify_eq. split; [done|]. by apply (NoDup_lookup g1 i j p).
  - simplify_eq. exfalso. eapply Hdisj; [by eapply list_elem_of_lookup_2|].
    by eapply Hin.
  - simplify_eq. exfalso. eapply Hdisj; [by eapply list_elem_of_lookup_2|].
    by eapply Hin.
  - destruct (IH a b g1 g2 i j p) as [-> ->]; done.
Qed.

Lemma kept_member_survives dryRun duplicateGroups keepFiles w group :
  plan_ok duplicateGroups keepFiles → NoDup (concat duplicateGroups) →
  group ∈ duplicateGroups →
  ∃ p, p ∈ group
       ∧ w_fs (performDeletionWithCustomRetention dryRun duplicateGroups keepFiles w).2
           !! p = w_fs w !! p.
Proof.
  intros Hok Hnd Hgroup.
  apply list_elem_of_lookup in Hgroup as [gi Hgi].
  destruct (Forall2_lookup_l _ _ _ _ _ Hok Hgi) as (keepSet & Hks & Hne & Hsub).
  apply set_choose_L in Hne as [k Hk]. specialize (Hsub k Hk).
  destruct (lookup_lt_is_Some_2 group (k - 1)) as [p Hp]; [lia|].
  exists p. split; [by eapply list_elem_of_lookup_2|].
  destruct (performDeletionWithCustomRetention dryRun duplicateGroups keepFiles w)
    as [r w'] eqn:E. cbn [snd].
  eapply (performDeletion_frame dryRun duplicateGroups keepFiles); [exact E|].
  intros [_ Hdoomed].
  apply elem_of_doomed in Hdoomed as (a & g & ks & j & Hg & Hks' & Hj & Hnot).
  destruct (NoDup_concat_lookup duplicateGroups gi a group g (k - 1) j p)
    as [<- Hkj]; try done.
  cbn in Hks'. simplify_eq. apply Hnot.
  by replace (k - 1 + 1)%nat with k by lia.
Qed.

(** C3: when every group has a member, the plan built on construction
    is [{1}] for every group and satisfies the invariant (every [keep[g]]
    is a non-empty subset of [{1..|group g|}]); every assignment of an
    admissible set to [keepFiles[i]] preserves it; whatever one pass of
    the command loop returns satisfies it; so does the plan returned by
    [letUserModifyRetention] and the plan that [processSingleFolder] and
    [deduplicate] hand to the deleter; and with such a plan, the groups
    holding distinct paths, each deleter leaves the file of at least one
    member of every group as it was. *)
Theorem retention_floor duplicateGroups :
  Forall (λ g, g ≠ []) duplicateGroups →
  default_plan duplicateGroups = replicate (length duplicateGroups) {[ 1%nat ]}
  ∧ plan_ok duplicateGroups (default_plan duplicateGroups)
  ∧ (∀ keepFiles i group keepSet,
       plan_ok duplicateGroups keepFiles → duplicateGroups !! i = Some group →
       keep_ok group keepSet → plan_ok duplicateGroups (<[i:=keepSet]> keepFiles))
  ∧ (∀ keepFiles, plan_ok duplicateGroups keepFiles →
       returns (retention_iteration duplicateGroups keepFiles)
               (λ r, plan_ok duplicateGroups r.2))
  ∧ (∀ fuel, returns (letUserModifyRetention fuel duplicateGroups)
                     (plan_ok duplicateGroups))
  ∧ (∀ autoConfirm fuel,
       returns (plan_and_confirm autoConfirm fuel duplicateGroups)
               (λ plan, ∀ keepFiles, plan = Some keepFiles →
                                     plan_ok duplicateGroups keepFiles))
  ∧ (∀ dryRun keepFiles totalSpaceSaved w group,
       plan_ok duplicateGroups keepFiles → NoDup (concat duplicateGroups) →
       group ∈ duplicateGroups →
       (∃ p, p ∈ group
          ∧ w_fs (performDeletionWithCustomRetention dryRun duplicateGroups
                    keepFiles w).2 !! p = w_fs w !! p)
       ∧ (∃ p, p ∈ group
          ∧ w_fs (performGlobalDeletionWithCustomRetention dryRun duplicateGroups
                    keepFiles totalSpaceSaved w).2 !! p = w_fs w !! p)).
Proof.
  intros Hne. split; [done|].
  split; [by apply plan_ok_default|].
  split; [intros; by eapply plan_ok_insert|].
  split; [intros; by apply retention_iteration_plan_ok|].
  split.
  { intros fuel. apply retention_loop_plan_ok. by apply plan_ok_default. }
  split; [intros; by apply plan_and_confirm_plan_ok|].
  intros dryRun keepFiles totalSpaceSaved w group Hok Hnd Hgroup.
  split; by apply kept_member_survives.
Qed.

Lemma retention_floor_witness :
  plan_ok [[sample_a; sample_b]] (default_plan [[sample_a; sample_b]]).
Proof.
  apply (retention_floor [[sample_a; sample_b]]).
  repeat constructor; discriminate.
Defined.

(** ** Rejected input in the retention loop *)

Lemma stoi_number s n w : is_number s n → stoi s w = (Ret n, w).
Proof.
  intros [Hp [Hlo Hhi]]. unfold stoi. rewrite Hp.
  destruct (Z.ltb_spec n INT_MIN); [lia|].
  destruct (Z.ltb_spec INT_MAX n); [lia|]. done.
Qed.


Lemma retention_iteration_group duplicateGroups keepFiles fs input rest out io :
  selects_group input →
  retention_iteration duplicateGroups keepFiles (World fs (input :: rest) out io)
  = group_command duplicateGroups keepFiles input (World fs rest out io).
Proof.
  intros (Hne & Hkey & Hview). unfold retention_iteration, bind at 1, getline. cbn.
  rewrite !elem_of_cons in Hkey.
  destruct (decide (input = "")); [done|].
  do 3 (destruct (decide _); [tauto|]). rewrite Hview.
  destruct (decide _); [tauto|]. done.
Qed.





Lemma valid_digit_code members c :
  valid_digit members c
  = negb ((N_of_ascii c <? N_of_ascii "1") || (N_of_ascii "9" <? N_of_ascii c))
    && negb ((Z.of_N (N_of_ascii c) - Z.of_N (N_of_ascii "0") <? 1)%Z
             || (Z.of_nat members <? Z.of_N (N_of_ascii c) - Z.of_N (N_of_ascii "0"))%Z).
Proof.
  unfold valid_digit. change (N_of_ascii "1") with 49. change (N_of_ascii "9") with 57.
  change (N_of_ascii "0") with 48.
  destruct (N.leb_spec 49 (N_of_ascii c)), (N.ltb_spec (N_of_ascii c) 49),
    (N.leb_spec (N_of_ascii c) 57), (N.ltb_spec 57 (N_of_ascii c)),
    (Z.ltb_spec (Z.of_N (N_of_ascii c) - Z.of_N 48) 1),
    (Nat.leb_spec (N.to_nat (N_of_ascii c - 48)) members),
    (Z.ltb_spec (Z.of_nat members) (Z.of_N (N_of_ascii c) - Z.of_N 48));
    cbn [andb orb negb]; try done; lia.
Qed.




Example selection_with_letter_is_rejected :
  retention_iteration [[sample_a; sample_b]] [{[ 1%nat ]}]
    (World {[ sample_a := five_bytes; sample_b := five_bytes ]} ["1"; "2x"] [] [])
  = (Ret (Continue, [{[ 1%nat ]}]),
     World {[ sample_a := five_bytes; sample_b := five_bytes ]} []
       [OutShowGroup 1; OutCurrentKeep {[ 1%nat ]}; OutInvalidChar "x"] []).
Proof. vm_compute. reflexivity. Qed.

Example selection_of_both_members_is_applied :
  retention_iteration [[sample_a; sample_b]] [{[ 1%nat ]}]
    (World {[ sample_a := five_bytes; sample_b := five_bytes ]} ["1"; "12"] [] [])
  = (Ret (Continue, [{[ 1%nat; 2%nat ]}]),
     World {[ sample_a := five_bytes; sample_b := five_bytes ]} []
       [OutShowGroup 1; OutCurrentKeep {[ 1%nat ]}; OutUpdated 1 {[ 1%nat; 2%nat ]}] []).
Proof. vm_compute. reflexivity. Qed.

(** ** The [--yes] flag *)

Lemma askForConfirmation_yes question defaultYes w :
  askForConfirmation true question defaultYes w
  = (Ret true, World (w_fs w) (w_stdin w)
                     (w_stdout w ++ [OutAutoConfirm question]) (w_io w)).
Proof. reflexivity. Qed.



(** ** Ties in the automatic strategies *)

(** C5 fails for [newest]: of two members with the same modification
    time the second one is kept. *)
Example newest_tie_keeps_last :
  mtime_of (w_fs world_pair) sample_a = mtime_of (w_fs world_pair) sample_b
  ∧ autoSelectKeepFiles [sample_a; sample_b] "newest" world_pair
    = (Ret {[ 2%nat ]}, world_pair).
Proof. vm_compute. split; reflexivity. Qed.

Lemma pair_less_spec (a b : Z * nat) :
  pair_less a b = true ↔ (a.1 < b.1)%Z ∨ (a.1 = b.1 ∧ (a.2 < b.2)%nat).
Proof.
  unfold pair_less.
  destruct (Z.ltb_spec a.1 b.1), (Z.eqb_spec a.1 b.1), (Nat.ltb_spec a.2 b.2);
    cbn; intuition (try lia; try done).
Qed.

Lemma pair_less_false (a b : Z * nat) :
  pair_less a b = false ↔ (b.1 < a.1)%Z ∨ (a.1 = b.1 ∧ (b.2 ≤ a.2)%nat).
Proof.
  destruct (pair_less a b) eqn:E.
  - apply pair_less_spec in E. split; [done|]. lia.
  - split; [intros _|done].
    assert (¬ ((a.1 < b.1)%Z ∨ (a.1 = b.1 ∧ (a.2 < b.2)%nat))) as H.
    { rewrite <- pair_less_spec, E. done. }
    lia.
Qed.

Lemma times_from_elem fs group : ∀ i j p,
  group !! j = Some p → (mtime_of fs p, (i + j + 1)%nat) ∈ times_from fs i group.
Proof.
  induction group as [|q rest IH]; intros i j p Hj; [done|].
  destruct j as [|j]; cbn in Hj |- *.
  - simplify_eq. rewrite Nat.add_0_r. by left.
  - right. replace (i + S j + 1)%nat with (S i + j + 1)%nat by lia. by apply IH.
Qed.

Lemma sorted_head_least less (times : list (Z * nat)) first rest :
  (∀ a b, less a b = true → less b a = false) →
  (∀ a b c, not_after less a b → not_after less b c → not_after less a c) →
  std_sort less times = first :: rest →
  ∀ x, x ∈ times → less x first = false.
Proof.
  intros Hasym Htrans E x Hx.
  pose proof (std_sort_sorted less Hasym Htrans times) as Hsorted.
  rewrite E in Hsorted. apply StronglySorted_inv in Hsorted as [_ Hall].
  rewrite <- (std_sort_perm less), E in Hx.
  apply elem_of_cons in Hx as [->|Hx].
  - destruct (less first first) eqn:Hff; [|done]. by rewrite (Hasym _ _ Hff) in Hff.
  - rewrite Forall_forall in Hall. by apply Hall.
Qed.

Lemma longest_loop_spec group : ∀ i maxLength keepIndex,
  let k := longest_loop group i maxLength keepIndex in
  (k = keepIndex ∧ ∀ j p, group !! j = Some p → name_length p ≤ maxLength)
  ∨ (∃ j q, group !! j = Some q ∧ k = (i + j + 1)%nat ∧ maxLength < name_length q
       ∧ ∀ j' p, group !! j' = Some p →
           name_length p ≤ name_length q
           ∧ (name_length p = name_length q → (j ≤ j')%nat)).
Proof.
  induction group as [|p rest IH]; intros i maxLength keepIndex; cbn zeta.
  - left. split; [done|]. by intros j p.
  - cbn [longest_loop]. destruct (N.ltb_spec maxLength (name_length p)) as [Hlt|Hge].
    + right. destruct (IH (S i) (name_length p) (i + 1)%nat)
        as [[-> Hall]|(j & q & Hq & -> & Hm & Hall)].
      * exists 0%nat, p. split; [done|]. split; [lia|]. split; [done|].
        intros [|j'] p' Hp'; cbn in Hp'; simplify_eq; [lia|].
        split; [by eapply Hall|lia].
      * exists (S j), q. split; [done|]. split; [lia|]. split; [lia|].
        intros [|j'] p' Hp'; cbn in Hp'; simplify_eq; [lia|].
        destruct (Hall _ _ Hp'). split; [done|lia].
    + destruct (IH (S i) maxLength keepIndex)
        as [[-> Hall]|(j & q & Hq & -> & Hm & Hall)].
      * left. split; [done|].
        intros [|j'] p' Hp'; cbn in Hp'; simplify_eq; [done|by eapply Hall].
      * right. exists (S j), q. split; [done|]. split; [lia|]. split; [done|].
        intros [|j'] p' Hp'; cbn in Hp'; simplify_eq; [lia|].
        destruct (Hall _ _ Hp'). split; [done|lia].
Qed.

Lemma shortest_loop_spec group : ∀ i minLength keepIndex,
  let k := shortest_loop group i minLength keepIndex in
  (k = keepIndex ∧ ∀ j p, group !! j = Some p → minLength ≤ name_length p)
  ∨ (∃ j q, group !! j = Some q ∧ k = (i + j + 1)%nat ∧ name_length q < minLength
       ∧ ∀ j' p, group !! j' = Some p →
           name_length q ≤ name_length p
           ∧ (name_length p = name_length q → (j ≤ j')%nat)).
Proof.
  induction group as [|p rest IH]; intros i minLength keepIndex; cbn zeta.
  - left. split; [done|]. by intros j p.
  - cbn [shortest_loop]. destruct (N.ltb_spec (name_length p) minLength) as [Hlt|Hge].
    + right. destruct (IH (S i) (name_length p) (i + 1)%nat)
        as [[-> Hall]|(j & q & Hq & -> & Hm & Hall)].
      * exists 0%nat, p. split; [done|]. split; [lia|]. split; [done|].
        intros [|j'] p' Hp'; cbn in Hp'; simplify_eq; [lia|].
        split; [by eapply Hall|lia].
      * exists (S j), q. split; [done|]. split; [lia|]. split; [lia|].
        intros [|j'] p' Hp'; cbn in Hp'; simplify_eq; [lia|].
        destruct (Hall _ _ Hp'). split; [done|lia].
    + destruct (IH (S i) minLength keepIndex)
        as [[-> Hall]|(j & q & Hq & -> & Hm & Hall)].
      * left. split; [done|].
        intros [|j'] p' Hp'; cbn in Hp'; simplify_eq; [done|by eapply Hall].
      * right. exists (S j), q. split; [done|]. split; [lia|]. split; [done|].
        intros [|j'] p' Hp'; cbn in Hp'; simplify_eq; [lia|].
        destruct (Hall _ _ Hp'). split; [done|lia].
Qed.

Lemma pair_less_order :
  (∀ a b, pair_less a b = true → pair_less b a = false)
  ∧ (∀ a b c, not_after pair_less a b → not_after pair_less b c →
              not_after pair_less a c).
Proof.
  unfold not_after. split.
  - intros a b H. apply pair_less_spec in H. apply pair_less_false. lia.
  - intros a b c H1 H2. apply pair_less_false in H1, H2. apply pair_less_false. lia.
Qed.

Lemma pair_greater_order :
  (∀ a b, pair_greater a b = true → pair_greater b a = false)
  ∧ (∀ a b c, not_after pair_greater a b → not_after pair_greater b c →
              not_after pair_greater a c).
Proof.
  unfold not_after, pair_greater. split.
  - intros a b H. apply pair_less_spec in H. apply pair_less_false. lia.
  - intros a b c H1 H2. apply pair_less_false in H1, H2. apply pair_less_false. lia.
Qed.

(** What the four strategies do with ties, on a non-empty group whose
    members exist and have names shorter than [SIZE_MAX]: [oldest],
    [longest-name] and [shortest-name] keep the lowest index among the
    members that tie on the criterion, [newest] keeps the highest one. *)
Theorem autoSelectKeepFiles_ties group w :
  group ≠ [] →
  Forall (λ p, is_Some (w_fs w !! p)) group →
  Forall (λ p, name_length p < SIZE_MAX) group →
  (∃ k, autoSelectKeepFiles group "oldest" w = (Ret {[ k ]}, w)
        ∧ least_lowest_index (mtime_of (w_fs w)) group k)
  ∧ (∃ k, autoSelectKeepFiles group "longest-name" w = (Ret {[ k ]}, w)
        ∧ least_lowest_index (λ p, - Z.of_N (name_length p))%Z group k)
  ∧ (∃ k, autoSelectKeepFiles group "shortest-name" w = (Ret {[ k ]}, w)
        ∧ least_lowest_index (λ p, Z.of_N (name_length p)) group k)
  ∧ (∃ k, autoSelectKeepFiles group "newest" w = (Ret {[ k ]}, w)
        ∧ least_highest_index (λ p, - mtime_of (w_fs w) p)%Z group k).
Proof.
  intros Hne Hall Hnames. unfold autoSelectKeepFiles.
  split; [|split; [|split]].
  - rewrite decide_False, decide_True by done.
    unfold bind. rewrite collect_times_run by done. cbn [app].
    destruct (std_sort pair_less (times_from (w_fs w) 0 group))
      as [|[t k] rest] eqn:E.
    { pose proof (std_sort_perm pair_less (times_from (w_fs w) 0 group)) as Hp.
      rewrite E in Hp. apply Permutation_nil_l in Hp. by destruct group. }
    exists k. rewrite (right_id_L ∅ (∪)). split; [done|].
    destruct pair_less_order as [Hasym Htrans].
    pose proof (sorted_head_least _ _ _ _ Hasym Htrans E) as Hleast.
    assert ((t, k) ∈ times_from (w_fs w) 0 group) as Hin.
    { rewrite <- (std_sort_perm pair_less), E. by left. }
    apply times_from_index in Hin as [Hk (q & Hq & ->)].
    exists q. rewrite Nat.add_0_l in Hq. split; [done|]. split; [lia|].
    intros j p Hp. specialize (Hleast _ (times_from_elem (w_fs w) group 0 j p Hp)).
    apply pair_less_false in Hleast. cbn in Hleast. lia.
  - rewrite !decide_False, decide_True by done.
    rewrite (right_id_L ∅ (∪)). eexists. split; [done|].
    destruct (longest_loop_spec group 0 0 1) as [[-> Hmax]|(j & q & Hq & -> & _ & Hmax)].
    + destruct group as [|q rest]; [done|]. exists q. split; [done|]. split; [lia|].
      intros j p Hp. pose proof (Hmax _ _ Hp). pose proof (Hmax 0%nat q eq_refl). lia.
    + exists q. replace (0 + j + 1 - 1)%nat with j by lia. split; [done|]. split; [lia|].
      intros j' p Hp. destruct (Hmax _ _ Hp). lia.
  - rewrite !decide_False, decide_True by done.
    rewrite (right_id_L ∅ (∪)). eexists. split; [done|].
    destruct (shortest_loop_spec group 0 SIZE_MAX 1)
      as [[-> Hmin]|(j & q & Hq & -> & _ & Hmin)].
    + destruct group as [|q rest]; [done|]. exfalso.
      apply Forall_cons in Hnames as [Hq _]. pose proof (Hmin 0%nat q eq_refl). lia.
    + exists q. replace (0 + j + 1 - 1)%nat with j by lia. split; [done|]. split; [lia|].
      intros j' p Hp. destruct (Hmin _ _ Hp). lia.
  - rewrite decide_True by done.
    unfold bind. rewrite collect_times_run by done. cbn [app].
    destruct (std_sort pair_greater (times_from (w_fs w) 0 group))
      as [|[t k] rest] eqn:E.
    { pose proof (std_sort_perm pair_greater (times_from (w_fs w) 0 group)) as Hp.
      rewrite E in Hp. apply Permutation_nil_l in Hp. by destruct group. }
    exists k. rewrite (right_id_L ∅ (∪)). split; [done|].
    destruct pair_greater_order as [Hasym Htrans].
    pose proof (sorted_head_least _ _ _ _ Hasym Htrans E) as Hleast.
    assert ((t, k) ∈ times_from (w_fs w) 0 group) as Hin.
    { rewrite <- (std_sort_perm pair_greater), E. by left. }
    apply times_from_index in Hin as [Hk (q & Hq & ->)].
    exists q. rewrite Nat.add_0_l in Hq. split; [done|]. split; [lia|].
    intros j p Hp. specialize (Hleast _ (times_from_elem (w_fs w) group 0 j p Hp)).
    unfold pair_greater in Hleast.
    apply pair_less_false in Hleast. cbn in Hleast. lia.
Qed.

(** * Further properties of the program *)

(** ** Runs that change no file *)

#[global] Instance quiet_preorder : PreOrder quiet.
Proof.
  split.
  - by intros w.
  - intros w1 w2 w3 [F12 I12] [F23 I23]. split; [congruence|by etrans].
Qed.

Lemma quiet_eof w w' : quiet w w' → w_stdin w = [] → w_stdin w' = [].
Proof. intros [_ Hin] E. rewrite E in Hin. by apply suffix_nil_inv. Qed.

Lemma quiet_mret {A} (a : A) : respects quiet (mret a).
Proof. apply respects_mret, _. Qed.

Lemma quiet_throw {A} e : respects quiet (@throw A e).
Proof. apply respects_throw, _. Qed.

Lemma quiet_undefined {A} : respects quiet (@undefined A).
Proof. apply respects_undefined, _. Qed.

Lemma quiet_out_of_fuel {A} : respects quiet (@out_of_fuel A).
Proof. apply respects_out_of_fuel, _. Qed.

Lemma quiet_bind {A B} (m : M A) (f : A → M B) :
  respects quiet m → (∀ a, respects quiet (f a)) → respects quiet (bind m f).
Proof. apply respects_bind, _. Qed.

Lemma quiet_try_catch {A} (body : M A) handler :
  respects quiet body → (∀ e, respects quiet (handler e)) →
  respects quiet (try_catch body handler).
Proof. apply respects_try_catch, _. Qed.

Lemma quiet_emit e : respects quiet (emit e).
Proof. intros w r w' E. by inversion E; subst. Qed.

Lemma quiet_log_io e : respects quiet (log_io e).
Proof. intros w r w' E. by inversion E; subst. Qed.

Lemma quiet_get_fs : respects quiet get_fs.
Proof. intros w r w' E. by inversion E; subst. Qed.

Lemma quiet_getline : respects quiet getline.
Proof.
  intros w r w' E. unfold getline in E.
  destruct (w_stdin w) eqn:Hin; inversion E; subst; [done|].
  split; [done|]. cbn. rewrite Hin. by apply suffix_cons_r.
Qed.

(** One step of a proof that a run is quiet: the rule of the construct at
    the head of the program, or a case analysis on what it tests. *)
Ltac quiet_step :=
  first
    [ solve [auto with quiet]
    | apply quiet_mret | apply quiet_throw | apply quiet_undefined
    | apply quiet_out_of_fuel | apply quiet_emit | apply quiet_log_io
    | apply quiet_get_fs | apply quiet_getline
    | apply quiet_bind; [|intros ?]
    | apply quiet_try_catch; [|intros ?]
    | match goal with
      | |- respects quiet (if ?b then _ else _) => destruct b
      | |- respects quiet (match ?x with _ => _ end) => destruct x
      end ].

Create HintDb quiet.

Ltac quiet := repeat quiet_step.

Lemma quiet_getFileSize p : respects quiet (getFileSize p).
Proof. unfold getFileSize. quiet. Qed.

Lemma quiet_last_write_time p : respects quiet (last_write_time p).
Proof. unfold last_write_time. quiet. Qed.

Lemma quiet_ifstream_open p : respects quiet (ifstream_open p).
Proof. unfold ifstream_open. quiet. Qed.

Lemma quiet_stream_read s n : respects quiet (stream_read s n).
Proof. unfold stream_read. quiet. Qed.

#[global] Hint Resolve quiet_getFileSize quiet_last_write_time quiet_ifstream_open
  quiet_stream_read : quiet.

Lemma quiet_sample_loop sampleSize size filepath positions : ∀ file signature,
  respects quiet (sample_loop sampleSize size filepath file positions signature).
Proof.
  induction positions as [|pos rest IH]; intros file signature;
    cbn [sample_loop]; quiet.
Qed.

Lemma quiet_generateFileSignature samplePoints sampleSize filepath :
  respects quiet (generateFileSignature samplePoints sampleSize filepath).
Proof. unfold generateFileSignature. quiet. apply quiet_sample_loop. Qed.

Lemma quiet_compare_loop fuel size1 : ∀ f1 f2 totalRead,
  respects quiet (compare_loop fuel size1 f1 f2 totalRead).
Proof.
  induction fuel as [|fuel IH]; intros f1 f2 totalRead; cbn [compare_loop]; quiet.
Qed.

Lemma quiet_areFilesIdentical file1 file2 :
  respects quiet (areFilesIdentical file1 file2).
Proof. unfold areFilesIdentical. quiet; apply quiet_compare_loop. Qed.

#[global] Hint Resolve quiet_generateFileSignature quiet_areFilesIdentical : quiet.
#[global] Hint Opaque areFilesIdentical generateFileSignature : quiet.

Lemma quiet_exact_inner_loop candidateGroup i count : ∀ j processed duplicateGroup,
  respects quiet (exact_inner_loop candidateGroup i count j processed duplicateGroup).
Proof.
  induction count as [|count IH]; intros j processed duplicateGroup;
    cbn [exact_inner_loop]; quiet.
Qed.

Lemma quiet_exact_outer_loop candidateGroup count : ∀ i processed duplicateGroups,
  respects quiet (exact_outer_loop candidateGroup count i processed duplicateGroups).
Proof.
  induction count as [|count IH]; intros i processed duplicateGroups;
    cbn [exact_outer_loop]; quiet; apply quiet_exact_inner_loop.
Qed.

Lemma quiet_findExactDuplicates candidateGroup :
  respects quiet (findExactDuplicates candidateGroup).
Proof. apply quiet_exact_outer_loop. Qed.

#[global] Hint Resolve quiet_findExactDuplicates : quiet.

Lemma quiet_size_tier entries : ∀ sizeGroups files bytes,
  respects quiet (size_tier entries sizeGroups files bytes).
Proof.
  induction entries as [|entry rest IH]; intros sizeGroups files bytes;
    cbn [size_tier]; quiet.
Qed.

Lemma quiet_signature_files samplePoints sampleSize files : ∀ signatureGroups,
  respects quiet (signature_files samplePoints sampleSize files signatureGroups).
Proof.
  induction files as [|filepath rest IH]; intros signatureGroups;
    cbn [signature_files]; quiet.
Qed.

Lemma quiet_signature_tier samplePoints sampleSize sizeGroups : ∀ signatureGroups,
  respects quiet (signature_tier samplePoints sampleSize sizeGroups signatureGroups).
Proof.
  induction sizeGroups as [|[size files] rest IH]; intros signatureGroups;
    cbn [signature_tier]; quiet. apply quiet_signature_files.
Qed.

Lemma quiet_exact_tier signatureGroups : ∀ duplicateGroups,
  respects quiet (exact_tier signatureGroups duplicateGroups).
Proof.
  induction signatureGroups as [|[signature files] rest IH]; intros duplicateGroups;
    cbn [exact_tier]; quiet.
Qed.

Lemma quiet_scan samplePoints sampleSize entries :
  respects quiet (scan samplePoints sampleSize entries).
Proof.
  unfold scan. quiet;
    first [apply quiet_size_tier | apply quiet_signature_tier | apply quiet_exact_tier].
Qed.

Lemma quiet_for_each {A} (l : list A) (body : nat → A → M unit) : ∀ i,
  (∀ i a, respects quiet (body i a)) → respects quiet (for_each l i body).
Proof.
  induction l as [|x l IH]; intros i Hbody; cbn [for_each]; quiet.
Qed.

Lemma quiet_show_member p : respects quiet (show_member p).
Proof. unfold show_member. quiet. Qed.

Lemma quiet_displayDuplicateGroupsWithNumbers duplicateGroups :
  respects quiet (displayDuplicateGroupsWithNumbers duplicateGroups).
Proof.
  unfold displayDuplicateGroupsWithNumbers. quiet.
  apply quiet_for_each. intros; quiet.
  apply quiet_for_each. intros; apply quiet_show_member.
Qed.

Lemma quiet_displaySingleGroup group groupIndex :
  respects quiet (displaySingleGroup group groupIndex).
Proof.
  unfold displaySingleGroup. quiet.
  apply quiet_for_each. intros; apply quiet_show_member.
Qed.

Lemma quiet_displayModifiedRetention duplicateGroups keepFiles :
  respects quiet (displayModifiedRetention duplicateGroups keepFiles).
Proof.
  unfold displayModifiedRetention. quiet.
  apply quiet_for_each. intros; quiet.
  apply quiet_for_each. intros; quiet.
Qed.

#[global] Hint Resolve quiet_scan quiet_displayDuplicateGroupsWithNumbers
  quiet_displaySingleGroup quiet_displayModifiedRetention : quiet.
#[global] Hint Opaque scan displayDuplicateGroupsWithNumbers displaySingleGroup
  displayModifiedRetention : quiet.

Lemma quiet_collect_times group : ∀ i times,
  respects quiet (collect_times group i times).
Proof.
  induction group as [|p rest IH]; intros i times; cbn [collect_times]; quiet.
Qed.

Lemma quiet_autoSelectKeepFiles group strategy :
  respects quiet (autoSelectKeepFiles group strategy).
Proof. unfold autoSelectKeepFiles. quiet; apply quiet_collect_times. Qed.

Lemma quiet_choose_strategy : respects quiet choose_strategy.
Proof. unfold choose_strategy. quiet. Qed.

#[global] Hint Resolve quiet_autoSelectKeepFiles quiet_choose_strategy : quiet.
#[global] Hint Opaque autoSelectKeepFiles choose_strategy : quiet.

Lemma quiet_all_loop duplicateGroups strategy : ∀ i keepFiles,
  respects quiet (all_loop duplicateGroups strategy i keepFiles).
Proof.
  induction duplicateGroups as [|group rest IH]; intros i keepFiles;
    cbn [all_loop]; quiet.
Qed.

Lemma quiet_selection_loop selection members : ∀ newKeepSet,
  respects quiet (selection_loop selection members newKeepSet).
Proof.
  induction selection as [|c rest IH]; intros newKeepSet;
    cbn [selection_loop]; quiet.
Qed.

Lemma quiet_stoi s : respects quiet (stoi s).
Proof. unfold stoi. quiet. Qed.

Lemma quiet_extract_group_number input : respects quiet (extract_group_number input).
Proof. unfold extract_group_number. quiet. Qed.

#[global] Hint Resolve quiet_all_loop quiet_selection_loop quiet_stoi
  quiet_extract_group_number : quiet.

Lemma quiet_retention_iteration duplicateGroups keepFiles :
  respects quiet (retention_iteration duplicateGroups keepFiles).
Proof.
  unfold retention_iteration, all_command, view_command, auto_command, group_command.
  quiet.
Qed.

#[global] Hint Resolve quiet_retention_iteration : quiet.

Lemma quiet_retention_loop fuel duplicateGroups : ∀ keepFiles,
  respects quiet (retention_loop fuel duplicateGroups keepFiles).
Proof.
  induction fuel as [|fuel IH]; intros keepFiles; cbn [retention_loop]; quiet.
Qed.

Lemma quiet_askForConfirmation autoConfirm question defaultYes :
  respects quiet (askForConfirmation autoConfirm question defaultYes).
Proof. unfold askForConfirmation. quiet. Qed.

Lemma quiet_savable duplicateGroups : ∀ spaceSavable,
  respects quiet (savable duplicateGroups spaceSavable).
Proof.
  induction duplicateGroups as [|group rest IH]; intros spaceSavable;
    cbn [savable]; quiet.
Qed.

#[global] Hint Resolve quiet_retention_loop quiet_askForConfirmation quiet_savable
  : quiet.
#[global] Hint Opaque askForConfirmation : quiet.

Lemma quiet_plan_and_confirm autoConfirm fuel duplicateGroups :
  respects quiet (plan_and_confirm autoConfirm fuel duplicateGroups).
Proof. unfold plan_and_confirm, letUserModifyRetention. quiet. Qed.

(** ** The three tiers of the scan *)

Lemma findExactDuplicates_run candidateGroup w :
  ∃ w', findExactDuplicates candidateGroup w
        = (Ret (grouping (identical (w_fs w)) candidateGroup), w')
        ∧ w_fs w' = w_fs w.
Proof.
  destruct (exact_outer_loop_run candidateGroup (length candidateGroup) 0
              (replicate (length candidateGroup) false) [] w)
    as (w' & Hrun & Hfs); [done|by rewrite length_replicate|].
  exists w'. unfold findExactDuplicates. rewrite Hrun.
  by rewrite !drop_0, pending_fresh.
Qed.

Lemma grouping_sound fs records :
  Forall (λ g, (2 ≤ length g)%nat ∧ duplicates_in fs g) (grouping (identical fs) records).
Proof.
  destruct (grouping_facts (identical fs) records) as [Hg _].
  eapply Forall_impl; [exact Hg|].
  intros g (a & ms & -> & Hne & Hall & _). split.
  { destruct ms; [done|simpl; lia]. }
  rewrite Forall_forall in Hall.
  assert (∃ fa, fs !! a = Some fa) as [fa Hfa].
  { destruct ms as [|m ms]; [done|].
    destruct (identical_same_bytes fs a m) as (fa & _ & ? & _);
      [apply Hall; by left|]. by exists fa. }
  assert (∀ x, x ∈ a :: ms → ∃ fx, fs !! x = Some fx ∧ content fa = content fx)
    as Hmember.
  { intros x [->|Hx]%elem_of_cons; [by exists fa|].
    destruct (identical_same_bytes fs a x) as (fa' & fx & ? & ? & E); [by apply Hall|].
    apply same_bytes_eq in E. exists fx. split; [done|]. congruence. }
  intros p q Hp Hq.
  destruct (Hmember p Hp) as (fp & ? & Ep), (Hmember q Hq) as (fq & ? & Eq).
  exists fp, fq. split; [done|]. split; [done|]. congruence.
Qed.

Lemma List_filter_split {A} (f : A → bool) (l : list A) :
  List.filter f l ++ List.filter (λ x, negb (f x)) l ≡ₚ l.
Proof.
  induction l as [|x l IH]; [done|]. cbn. destruct (f x); cbn.
  - by rewrite IH.
  - rewrite <- Permutation_middle. by rewrite IH.
Qed.

Lemma grouping_submseteq same records : concat (grouping same records) ⊆+ records.
Proof.
  funelim (grouping same records); simp grouping; [done|].
  rewrite concat_app.
  assert (concat (emit_group (anchor :: List.filter (same anchor) later))
          ⊆+ anchor :: List.filter (same anchor) later) as Hemit.
  { unfold emit_group. destruct (1 <? _)%nat; cbn.
    - by rewrite app_nil_r.
    - apply submseteq_nil_l. }
  etrans; [apply submseteq_app; [exact Hemit|exact H]|].
  cbn. apply submseteq_skip. by rewrite List_filter_split.
Qed.

Lemma bucket_values_push {K} (less : K → K → bool) k p (m : list (K * list path)) :
  bucket_values (map_push_back less k p m) ≡ₚ p :: bucket_values m.
Proof.
  unfold bucket_values. induction m as [|[k' ps] m IH]; cbn; [done|].
  destruct (less k k'); cbn; [done|].
  destruct (less k' k); cbn.
  - rewrite IH. by rewrite Permutation_middle.
  - rewrite <- app_assoc. cbn. by rewrite <- Permutation_middle.
Qed.

(** *** [std::map] as a sorted association list *)

Section map_facts.

Context {K : Type} (less : K → K → bool).
Hypothesis less_trans : ∀ a b c, less a b = true → less b c = true → less a c = true.
Hypothesis less_total : ∀ a b, less a b = false → less b a = false → a = b.
Hypothesis less_irrefl : ∀ a, less a a = false.

Lemma map_at_push_same k p (m : list (K * list path)) :
  map_at less k (map_push_back less k p m) = map_at less k m ++ [p].
Proof.
  induction m as [|[k' ps] m IH]; cbn.
  - by rewrite less_irrefl.
  - destruct (less k k') eqn:E1; cbn.
    + by rewrite less_irrefl.
    + destruct (less k' k) eqn:E2; cbn; rewrite E1, E2; done.
Qed.

Lemma map_at_push_other k k' p (m : list (K * list path)) :
  k ≠ k' → map_at less k' (map_push_back less k p m) = map_at less k' m.
Proof.
  intros Hne. induction m as [|[k0 ps] m IH]; cbn.
  - destruct (less k' k) eqn:E1; [done|].
    destruct (less k k') eqn:E2; [done|].
    destruct Hne. by apply less_total.
  - destruct (less k k0) eqn:E1; cbn.
    + destruct (less k' k) eqn:E2.
      * by rewrite (less_trans k' k k0).
      * destruct (less k k') eqn:E3; [done|].
        destruct Hne. by apply less_total.
    + destruct (less k0 k) eqn:E2; cbn.
      * rewrite IH. done.
      * assert (k = k0) as <- by by apply less_total.
        destruct (less k' k) eqn:E3; [done|].
        destruct (less k k') eqn:E4; [done|].
        destruct Hne. by apply less_total.
Qed.

Lemma map_at_push_mono k k' p x (m : list (K * list path)) :
  x ∈ map_at less k' m → x ∈ map_at less k' (map_push_back less k p m).
Proof.
  intros Hx.
  destruct (less k k') eqn:E1.
  { rewrite map_at_push_other; [done|]. intros ->. by rewrite less_irrefl in E1. }
  destruct (less k' k) eqn:E2.
  { rewrite map_at_push_other; [done|]. intros ->. by rewrite less_irrefl in E2. }
  assert (k = k') as <- by by apply less_total.
  rewrite map_at_push_same. apply elem_of_app. by left.
Qed.

Lemma map_at_push_new k p (m : list (K * list path)) :
  p ∈ map_at less k (map_push_back less k p m).
Proof. rewrite map_at_push_same. apply elem_of_app. right. by left. Qed.

Lemma map_at_bucket k x (m : list (K * list path)) :
  x ∈ map_at less k m → ∃ b, b ∈ m ∧ b.2 = map_at less k m.
Proof.
  induction m as [|[k' ps] m IH]; cbn; [by intros ?%elem_of_nil|].
  destruct (less k k'); [by intros ?%elem_of_nil|].
  destruct (less k' k).
  - intros Hx. destruct (IH Hx) as (b & Hb & E). exists b. split; [by right|done].
  - intros _. exists (k', ps). split; [by left|done].
Qed.

End map_facts.

Lemma N_ltb_trans a b c : (a <? b) = true → (b <? c) = true → (a <? c) = true.
Proof. rewrite !N.ltb_lt. lia. Qed.

Lemma N_ltb_total a b : (a <? b) = false → (b <? a) = false → a = b.
Proof. rewrite !N.ltb_ge. lia. Qed.

Lemma String_compare_trans a : ∀ b c,
  String.compare a b = Lt → String.compare b c = Lt → String.compare a c = Lt.
Proof.
  induction a as [|x a IH]; intros [|y b] [|z c]; cbn; try done.
  unfold Ascii.compare.
  destruct (N.compare_spec (N_of_ascii x) (N_of_ascii y)) as [E1|L1|G1]; [| |done].
  - rewrite E1.
    destruct (N.compare_spec (N_of_ascii y) (N_of_ascii z)); [|done..].
    apply IH.
  - intros _.
    destruct (N.compare_spec (N_of_ascii y) (N_of_ascii z)) as [E2|L2|G2]; [| |done].
    + intros _. rewrite <- E2. by apply N.compare_lt_iff in L1 as ->.
    + intros _. assert (N_of_ascii x < N_of_ascii z) as L by lia.
      by apply N.compare_lt_iff in L as ->.
Qed.

Lemma String_ltb_trans a b c :
  String.ltb a b = true → String.ltb b c = true → String.ltb a c = true.
Proof.
  unfold String.ltb. intros H1 H2.
  destruct (String.compare a b) eqn:E1; try done.
  destruct (String.compare b c) eqn:E2; try done.
  by rewrite (String_compare_trans a b c).
Qed.

Lemma String_ltb_total a b :
  String.ltb a b = false → String.ltb b a = false → a = b.
Proof.
  unfold String.ltb. rewrite (String.compare_antisym b a).
  destruct (String.compare a b) eqn:E; try done.
  intros _ _. by apply String.compare_eq_iff.
Qed.

Lemma String_ltb_irrefl a : String.ltb a a = false.
Proof.
  unfold String.ltb. pose proof (String.compare_antisym a a) as H.
  by destruct (String.compare a a).
Qed.

(** *** The fingerprint of a file *)

Lemma generateFileSignature_run samplePoints sampleSize filepath f w :
  w_fs w !! filepath = Some f →
  sampleSize * 2 < 2 ^ 64 → samplePoints + 1 < 2 ^ 64 →
  signable samplePoints sampleSize f →
  ∃ w', generateFileSignature samplePoints sampleSize filepath w
        = (Ret (fingerprint samplePoints sampleSize (content f)), w').
Proof.
  intros Hf Hss Hsp Hsig. unfold generateFileSignature, fingerprint, bind at 1.
  rewrite (getFileSize_run _ _ _ Hf). unfold signable, file_len in *.
  unfold wrap64 at 1. rewrite N.mod_small by done.
  replace (2 * sampleSize) with (sampleSize * 2) by lia.
  destruct (N.leb_spec (N.of_nat (length (content f))) (sampleSize * 2)) as [Hle|Hgt].
  { exists w. unfold mret. by rewrite append_assoc. }
  destruct Hsig as [?|[Hopen Hno]]; [lia|].
  unfold bind at 1. rewrite (ifstream_open_run _ _ _ Hf), Hopen.
  unfold wrap64 at 1. rewrite N.mod_small by done.
  destruct (N.eqb_spec (samplePoints + 1) 0); [lia|].
  destruct (N.ltb_spec vector_max_size sampleSize) as [Hmax|_].
  { unfold vector_max_size in Hmax. lia. }
  eexists.
  rewrite (sample_loop_run sampleSize filepath (content f)); [|done|done|nia|].
  - by rewrite append_assoc.
  - apply Forall_forall. intros q Hq.
    eapply keyPositions_bound; [| |exact Hq]; [done|lia].
Qed.

(** *** The tiers *)

Lemma size_tier_run fs entries : ∀ sizeGroups files bytes w,
  w_fs w = fs → bytes < 2 ^ 64 →
  ∃ sizeGroups',
    size_tier entries sizeGroups files bytes w
    = (Ret (sizeGroups', (files + Z.of_nat (length (existing fs entries)))%Z,
            wrap64 (bytes + size_sum fs entries)), w)
    ∧ bucket_values sizeGroups' ≡ₚ bucket_values sizeGroups ++ existing fs entries
    ∧ (∀ x f, fs !! x = Some f →
         x ∈ map_at N.ltb (file_len f) sizeGroups ∨ x ∈ entries →
         x ∈ map_at N.ltb (file_len f) sizeGroups').
Proof.
  induction entries as [|entry rest IH]; intros sizeGroups files bytes w Hfs Hbytes.
  - exists sizeGroups. cbn. rewrite Z.add_0_r, app_nil_r, N.add_0_r.
    unfold wrap64. rewrite N.mod_small by done. split; [done|]. split; [done|].
    intros x f _ [?|?%elem_of_nil]; done.
  - cbn [size_tier]. unfold bind at 1, try_catch, bind at 1.
    unfold size_sum. cbn [map fold_right]. fold (size_sum fs rest).
    destruct (fs !! entry) as [f|] eqn:Hf.
    + rewrite getFileSize_run with (f := f) by congruence. unfold mret at 1.
      assert (existing fs (entry :: rest) = entry :: existing fs rest) as ->.
      { unfold existing. cbn [List.filter]. by rewrite Hf, bool_decide_eq_true_2. }
      destruct (IH (map_push_back N.ltb (file_len f) entry sizeGroups)
                   (files + 1)%Z (wrap64 (bytes + file_len f)) w Hfs)
        as (sg' & Hrun & Hperm & Hat).
      { apply N.mod_upper_bound. done. }
      exists sg'. rewrite Hrun. split; [|split].
      * replace (files + Z.of_nat (length (entry :: existing fs rest)))%Z
          with (files + 1 + Z.of_nat (length (existing fs rest)))%Z
          by (cbn [length]; lia).
        do 3 f_equal. unfold wrap64. cbn [from_option].
        rewrite N.Div0.add_mod_idemp_l. f_equal. lia.
      * rewrite Hperm, bucket_values_push. cbn. apply Permutation_middle.
      * intros x fx Hx [Hin|[E|Hin]%elem_of_cons]; apply (Hat x fx Hx).
        -- left. apply map_at_push_mono;
             [apply N_ltb_trans|apply N_ltb_total|apply N.ltb_irrefl|done].
        -- left. subst x. assert (fx = f) as -> by congruence.
           apply map_at_push_new. apply N.ltb_irrefl.
        -- by right.
    + rewrite getFileSize_missing by congruence. unfold mret at 1.
      assert (existing fs (entry :: rest) = existing fs rest) as ->.
      { unfold existing. cbn [List.filter]. rewrite Hf, bool_decide_eq_false_2; [done|].
        by intros [? ?]. }
      cbn [from_option]. rewrite N.add_0_l.
      destruct (IH sizeGroups files bytes w Hfs Hbytes) as (sg' & Hrun & Hperm & Hat).
      exists sg'. split; [done|]. split; [done|].
      intros x fx Hx [Hin|[E|Hin]%elem_of_cons]; [| congruence |];
        apply (Hat x fx Hx); first [by left|by right].
Qed.

Lemma sample_loop_completes sampleSize size filepath positions :
  ∀ file signature w,
    completes (sample_loop sampleSize size filepath file positions signature w).1.
Proof.
  induction positions as [|q positions IH]; intros file signature w; [done|].
  cbn [sample_loop]. unfold bind at 1.
  unfold stream_read, bind, log_io, mret. cbn.
  destruct (negb _); [done|]. apply IH.
Qed.

Lemma generateFileSignature_completes samplePoints sampleSize filepath w :
  match (generateFileSignature samplePoints sampleSize filepath w).1 with
  | Ret _ | Raise _ => True
  | Undefined => 2 ^ 64 ≤ samplePoints + 1
  | OutOfFuel => False
  end.
Proof.
  unfold generateFileSignature, bind at 1.
  destruct (w_fs w !! filepath) as [f|] eqn:Hf.
  2:{ by rewrite getFileSize_missing. }
  rewrite (getFileSize_run _ _ _ Hf).
  destruct (_ <=? _); [done|].
  unfold bind at 1. rewrite (ifstream_open_run _ _ _ Hf).
  destruct (can_open f); [|done].
  destruct (N.eqb_spec (wrap64 (samplePoints + 1)) 0) as [Hwrap|_].
  { cbn. destruct (N.lt_ge_cases (samplePoints + 1) (2 ^ 64)) as [Hlt|]; [|done].
    unfold wrap64 in Hwrap. rewrite N.mod_small in Hwrap by done. lia. }
  destruct (_ <? _); [done|].
  pose proof (sample_loop_completes sampleSize (file_len f) filepath
                (keyPositions samplePoints sampleSize (file_len f))
                (Stream filepath (content f) 0) (to_string (file_len f) +:+ "|")
                (add_reads w [EvOpen filepath])) as Hdone.
  by destruct (sample_loop _ _ _ _ _ _ _) as [[] ?].
Qed.

Lemma ends_ret samplePoints {A} (r : res A) (Q : A → Prop) :
  samplePoints + 1 < 2 ^ 64 → ends samplePoints r Q → ∃ a, r = Ret a ∧ Q a.
Proof. intros Hsp. destruct r; cbn; [by eauto|done|lia|done]. Qed.

Lemma signature_files_run samplePoints sampleSize fs files :
  ∀ signatureGroups w, w_fs w = fs →
  ∃ r w',
    signature_files samplePoints sampleSize files signatureGroups w = (r, w')
    ∧ w_fs w' = fs
    ∧ ends samplePoints r (λ signatureGroups',
        bucket_values signatureGroups' ⊆+ bucket_values signatureGroups ++ files
        ∧ (∀ x s,
             (∀ w0, w_fs w0 = fs →
                (generateFileSignature samplePoints sampleSize x w0).1 = Ret s) →
             x ∈ map_at String.ltb s signatureGroups ∨ x ∈ files →
             x ∈ map_at String.ltb s signatureGroups')).
Proof.
  induction files as [|filepath rest IH]; intros signatureGroups w Hfs.
  - exists (Ret signatureGroups), w. split; [done|]. split; [done|].
    split; [by rewrite app_nil_r|]. intros x s _ [?|?%elem_of_nil]; done.
  - cbn [signature_files]. unfold bind at 1, try_catch, bind at 1.
    pose proof (generateFileSignature_completes samplePoints sampleSize filepath w)
      as Hdone.
    destruct (generateFileSignature _ _ _ _) as [r w1] eqn:Hgen.
    assert (w_fs w1 = fs) as Hfs1.
    { destruct (quiet_generateFileSignature samplePoints sampleSize filepath w _ _ Hgen).
      congruence. }
    destruct r as [signature|e| |]; [| |by exists Undefined, w1|done].
    + unfold mret at 1.
      destruct (IH (map_push_back String.ltb signature filepath signatureGroups) w1 Hfs1)
        as (r' & w' & Hrun & Hfs' & Hend).
      exists r', w'. split; [done|]. split; [done|].
      destruct r' as [sg'| | |]; try done. destruct Hend as [Hsub Hat]. split.
      * etrans; [exact Hsub|]. rewrite bucket_values_push. cbn.
        by rewrite Permutation_middle.
      * intros x s Hs [Hin|[E|Hin]%elem_of_cons]; apply (Hat x s Hs).
        -- left. apply map_at_push_mono;
             [apply String_ltb_trans|apply String_ltb_total|apply String_ltb_irrefl|done].
        -- left. subst x. specialize (Hs w Hfs). rewrite Hgen in Hs. injection Hs as ->.
           apply map_at_push_new. apply String_ltb_irrefl.
        -- by right.
    + unfold mret at 1.
      destruct (IH signatureGroups w1 Hfs1) as (r' & w' & Hrun & Hfs' & Hend).
      exists r', w'. split; [done|]. split; [done|].
      destruct r' as [sg'| | |]; try done. destruct Hend as [Hsub Hat]. split.
      * etrans; [exact Hsub|]. apply submseteq_app; [done|]. by apply submseteq_cons.
      * intros x s Hs [Hin|[E|Hin]%elem_of_cons];
          [|by subst x; specialize (Hs w Hfs); rewrite Hgen in Hs|];
          apply (Hat x s Hs); first [by left|by right].
Qed.

Lemma signature_tier_run samplePoints sampleSize fs sizeGroups :
  ∀ signatureGroups w, w_fs w = fs →
  ∃ r w',
    signature_tier samplePoints sampleSize sizeGroups signatureGroups w = (r, w')
    ∧ w_fs w' = fs
    ∧ ends samplePoints r (λ signatureGroups',
        bucket_values signatureGroups'
        ⊆+ bucket_values signatureGroups ++ bucket_values sizeGroups
        ∧ (∀ x s,
             (∀ w0, w_fs w0 = fs →
                (generateFileSignature samplePoints sampleSize x w0).1 = Ret s) →
             x ∈ map_at String.ltb s signatureGroups
             ∨ (∃ b, b ∈ sizeGroups ∧ (1 < length b.2)%nat ∧ x ∈ b.2) →
             x ∈ map_at String.ltb s signatureGroups')).
Proof.
  induction sizeGroups as [|[size files] rest IH]; intros signatureGroups w Hfs.
  - exists (Ret signatureGroups), w. split; [done|]. split; [done|].
    split; [by rewrite app_nil_r|].
    intros x s _ [?|(b & ?%elem_of_nil & _)]; done.
  - cbn [signature_tier]. unfold bind at 1.
    assert (bucket_values ((size, files) :: rest) = files ++ bucket_values rest) as ->
      by done.
    destruct (Nat.ltb_spec 1 (length files)) as [Hlen|Hlen].
    + destruct (signature_files_run samplePoints sampleSize fs files
                  signatureGroups w Hfs)
        as (r1 & w1 & -> & Hfs1 & Hend1).
      destruct r1 as [sg1| | |]; [|done|by exists Undefined, w1|done].
      destruct Hend1 as [Hsub1 Hat1].
      destruct (IH sg1 w1 Hfs1) as (r' & w' & Hrun & Hfs' & Hend).
      exists r', w'. split; [done|]. split; [done|].
      destruct r' as [sg'| | |]; try done. destruct Hend as [Hsub Hat]. split.
      * etrans; [exact Hsub|]. rewrite app_assoc.
        apply submseteq_app; [done|done].
      * intros x s Hs [Hin|(b & [->|Hb]%elem_of_cons & Hlen' & Hx)]; apply (Hat x s Hs).
        -- left. apply (Hat1 x s Hs). by left.
        -- left. apply (Hat1 x s Hs). by right.
        -- right. by exists b.
    + unfold mret at 1.
      destruct (IH signatureGroups w Hfs) as (r' & w' & Hrun & Hfs' & Hend).
      exists r', w'. split; [done|]. split; [done|].
      destruct r' as [sg'| | |]; try done. destruct Hend as [Hsub Hat]. split.
      * etrans; [exact Hsub|]. apply submseteq_app; [done|].
        apply submseteq_inserts_l. done.
      * intros x s Hs [Hin|(b & [->|Hb]%elem_of_cons & Hlen' & Hx)].
        -- apply (Hat x s Hs). by left.
        -- cbn in Hlen'. lia.
        -- apply (Hat x s Hs). right. by exists b.
Qed.

Lemma exact_tier_run fs signatureGroups :
  ∀ duplicateGroups w, w_fs w = fs →
  ∃ duplicateGroups' w',
    exact_tier signatureGroups duplicateGroups w = (Ret duplicateGroups', w')
    ∧ w_fs w' = fs
    ∧ (duplicate_groups fs duplicateGroups → duplicate_groups fs duplicateGroups')
    ∧ concat duplicateGroups'
      ⊆+ concat duplicateGroups ++ bucket_values signatureGroups
    ∧ (∀ g, g ∈ duplicateGroups
            ∨ (∃ b, b ∈ signatureGroups ∧ (1 < length b.2)%nat
                    ∧ g ∈ grouping (identical fs) b.2) →
            g ∈ duplicateGroups').
Proof.
  induction signatureGroups as [|[signature files] rest IH];
    intros duplicateGroups w Hfs.
  - exists duplicateGroups, w. split; [done|]. split; [done|]. split; [done|].
    split; [by rewrite app_nil_r|].
    intros g [?|(b & ?%elem_of_nil & _)]; done.
  - cbn [exact_tier]. unfold bind at 1.
    assert (bucket_values ((signature, files) :: rest) = files ++ bucket_values rest)
      as -> by done.
    destruct (Nat.ltb_spec 1 (length files)) as [Hlen|Hlen].
    + unfold bind at 1.
      destruct (findExactDuplicates_run files w) as (w1 & -> & Hfs1).
      unfold mret at 1. rewrite Hfs.
      destruct (IH (duplicateGroups ++ grouping (identical fs) files) w1)
        as (dg' & w' & Hrun & Hfs' & Hgood & Hsub & Hin); [congruence|].
      exists dg', w'. split; [done|]. split; [done|]. split; [|split].
      * intros Hall. apply Hgood, Forall_app. split; [done|]. apply grouping_sound.
      * etrans; [exact Hsub|]. rewrite concat_app, <- app_assoc.
        apply submseteq_app; [done|].
        apply submseteq_app; [apply grouping_submseteq|done].
      * intros g [Hg|(b & [->|Hb]%elem_of_cons & Hlen' & Hg)]; apply Hin.
        -- left. apply elem_of_app. by left.
        -- left. apply elem_of_app. by right.
        -- right. by exists b.
    + unfold mret at 1.
      destruct (IH duplicateGroups w Hfs) as (dg' & w' & Hrun & Hfs' & Hgood & Hsub & Hin).
      exists dg', w'. split; [done|]. split; [done|]. split; [done|]. split.
      * etrans; [exact Hsub|]. apply submseteq_app; [done|].
        apply submseteq_inserts_l. done.
      * intros g [Hg|(b & [->|Hb]%elem_of_cons & Hlen' & Hg)].
        -- apply Hin. by left.
        -- cbn in Hlen'. lia.
        -- apply Hin. right. by exists b.
Qed.

Lemma submseteq_NoDup {A} (l k : list A) : l ⊆+ k → NoDup k → NoDup l.
Proof.
  intros (l2 & Hperm & Hsub)%submseteq_sublist_r Hk.
  rewrite Hperm. by eapply sublist_NoDup.
Qed.

Lemma length_two_members {A} (l : list A) x y :
  x ≠ y → x ∈ l → y ∈ l → (1 < length l)%nat.
Proof.
  intros Hne Hx Hy. destruct l as [|a [|b l]]; cbn; [by apply elem_of_nil in Hx| |lia].
  apply list_elem_of_singleton in Hx, Hy. congruence.
Qed.

Lemma identical_copies fs p q f g :
  fs !! p = Some f → fs !! q = Some g → content f = content g →
  readable f → readable g →
  identical fs p q = true.
Proof.
  intros Hp Hq Hc Hf Hg. unfold identical, verdict, file_len. rewrite Hp, Hq, Hc.
  rewrite N.eqb_refl. cbn [negb].
  destruct (N.eqb_spec (N.of_nat (length (content g))) 0) as [|Hne]; [done|].
  assert (content g ≠ []) as Hdata by (intros E; rewrite E in Hne; done).
  destruct Hf as [->|Hf]; [|congruence]. destruct Hg as [->|Hg]; [|done].
  cbn. by rewrite bool_decide_eq_true_2.
Qed.

Lemma identical_copies_r fs a p q f g :
  fs !! p = Some f → fs !! q = Some g → content f = content g →
  readable f → readable g →
  identical fs a p = identical fs a q.
Proof.
  intros Hp Hq Hc Hf Hg. unfold identical, verdict, file_len. rewrite Hp, Hq, Hc.
  destruct (fs !! a) as [fa|]; [|done].
  destruct (negb _) eqn:Hlen; [done|].
  destruct (N.eqb_spec (N.of_nat (length (content fa))) 0) as [|Hne]; [done|].
  apply negb_false_iff, N.eqb_eq in Hlen.
  assert (content g ≠ []) as Hdata.
  { intros E. rewrite E in Hlen. cbn in Hlen. lia. }
  destruct Hf as [->|Hf]; [|congruence]. destruct Hg as [->|Hg]; [|done].
  done.
Qed.

Lemma grouping_complete same records p q :
  (∀ a, same a p = same a q) → same p q = true → same q p = true →
  p ≠ q → p ∈ records → q ∈ records →
  ∃ g, g ∈ grouping same records ∧ p ∈ g ∧ q ∈ g.
Proof.
  funelim (grouping same records); simp grouping; intros Hr Hpq Hqp Hne.
  { by intros ?%elem_of_nil. }
  intros Hp Hq.
  assert (∀ x y, x ∈ anchor :: List.filter (same anchor) later →
                 y ∈ anchor :: List.filter (same anchor) later → x ≠ y →
                 ∃ g, g ∈ emit_group (anchor :: List.filter (same anchor) later)
                          ++ grouping same
                               (List.filter (λ j, negb (same anchor j)) later)
                      ∧ x ∈ g ∧ y ∈ g) as Hemit.
  { intros x y Hx Hy Hxy. exists (anchor :: List.filter (same anchor) later).
    split; [|done]. apply elem_of_app. left. unfold emit_group.
    pose proof (length_two_members _ x y Hxy Hx Hy) as Hlen.
    destruct (Nat.ltb_spec 1 (length (anchor :: List.filter (same anchor) later)));
      [by left|lia]. }
  assert (∀ x, x ∈ later → same anchor x = true →
               x ∈ anchor :: List.filter (same anchor) later) as Hjoin.
  { intros x Hx Hs. right. apply list_elem_of_In, filter_In.
    split; [by apply list_elem_of_In|done]. }
  apply elem_of_cons in Hp as [->|Hp]; apply elem_of_cons in Hq as [Hq|Hq].
  - done.
  - apply Hemit; [by left|by apply Hjoin|done].
  - subst. apply Hemit; [by apply Hjoin|by left|done].
  - destruct (same anchor p) eqn:Hap.
    + apply Hemit; [by apply Hjoin|apply Hjoin; [done|by rewrite <- Hr]|done].
    + destruct (H p q Hr Hpq Hqp Hne) as (g & Hg & Hpg & Hqg).
      * apply list_elem_of_In, filter_In. split; [by apply list_elem_of_In|].
        by rewrite Hap.
      * apply list_elem_of_In, filter_In. split; [by apply list_elem_of_In|].
        by rewrite <- Hr, Hap.
      * exists g. split; [|done]. apply elem_of_app. by right.
Qed.

Lemma scan_run samplePoints sampleSize entries w :
  ∃ r w',
    scan samplePoints sampleSize entries w = (r, w')
    ∧ quiet w w'
    ∧ ends samplePoints r (λ result,
        error result = ""
        ∧ totalFiles result = Z.of_nat (length (existing (w_fs w) entries))
        ∧ totalSize result = wrap64 (size_sum (w_fs w) entries)
        ∧ duplicate_groups (w_fs w) (duplicateGroups_of result)
        ∧ concat (duplicateGroups_of result) ⊆+ existing (w_fs w) entries
        ∧ (∀ p q f g,
             sampleSize * 2 < 2 ^ 64 → samplePoints + 1 < 2 ^ 64 →
             p ≠ q → p ∈ entries → q ∈ entries →
             w_fs w !! p = Some f → w_fs w !! q = Some g → content f = content g →
             readable f → readable g → signable samplePoints sampleSize f →
             ∃ group, group ∈ duplicateGroups_of result ∧ p ∈ group ∧ q ∈ group)).
Proof.
  destruct (scan samplePoints sampleSize entries w) as [r w'] eqn:Hscan.
  pose proof (quiet_scan samplePoints sampleSize entries w r w' Hscan) as Hquiet.
  exists r, w'. split; [done|]. split; [done|].
  revert Hscan. unfold scan, bind at 1.
  destruct (size_tier_run (w_fs w) entries [] 0%Z 0 w eq_refl)
    as (sg & -> & Hperm & Hat1); [done|].
  unfold bind at 1.
  destruct (signature_tier_run samplePoints sampleSize (w_fs w) sg [] w eq_refl)
    as (r1 & w1 & Hsig & Hfs1 & Hend1).
  rewrite Hsig.
  destruct r1 as [sig| | |]; [|done|by intros [= <- <-]|done].
  destruct Hend1 as [Hsub1 Hat2].
  unfold bind at 1.
  destruct (exact_tier_run (w_fs w) sig [] w1 Hfs1)
    as (dg & w2 & -> & Hfs2 & Hgood & Hsub2 & Hin).
  unfold mret. intros [= <- <-]. cbn.
  rewrite N.add_0_l, Z.add_0_l. split; [done|]. split; [done|]. split; [done|].
  split; [apply Hgood; constructor|]. split.
  { etrans; [exact Hsub2|]. cbn. etrans; [exact Hsub1|]. cbn. by rewrite Hperm. }
  intros p q f g Hss Hsp Hne Hp Hq Hfp Hfq Hc Hrf Hrg Hsf.
  assert (signable samplePoints sampleSize g) as Hsg.
  { unfold signable, file_len in *. rewrite <- Hc.
    destruct Hsf as [?|[Hopen ?]]; [by left|].
    destruct Hrg as [->|Hempty]; [by right|]. left. rewrite Hc, Hempty. cbn. lia. }
  (* the size bucket *)
  pose proof (Hat1 p f Hfp (or_intror Hp)) as Hp1.
  pose proof (Hat1 q g Hfq (or_intror Hq)) as Hq1.
  assert (file_len g = file_len f) as Hlen by (unfold file_len; by rewrite Hc).
  rewrite Hlen in Hq1.
  destruct (map_at_bucket N.ltb _ _ _ Hp1) as (b1 & Hb1 & E1).
  (* the fingerprint bucket *)
  set (s := fingerprint samplePoints sampleSize (content f)).
  assert (∀ x fx, w_fs w !! x = Some fx → content fx = content f →
                  signable samplePoints sampleSize fx →
                  ∀ w0, w_fs w0 = w_fs w →
                    (generateFileSignature samplePoints sampleSize x w0).1 = Ret s)
    as Hgen.
  { intros x fx Hx Hcx Hsx w0 Hw0. rewrite <- Hw0 in Hx.
    destruct (generateFileSignature_run samplePoints sampleSize x fx w0 Hx Hss Hsp Hsx)
      as (w0' & ->). unfold s. by rewrite Hcx. }
  assert (∀ x, x ∈ map_at N.ltb (file_len f) sg →
               ∃ b, b ∈ sg ∧ (1 < length b.2)%nat ∧ x ∈ b.2) as Hbucket.
  { intros x Hx. exists b1. split; [done|]. rewrite E1. split; [|done].
    by apply (length_two_members _ p q). }
  pose proof (Hat2 p s (Hgen p f Hfp eq_refl Hsf) (or_intror (Hbucket p Hp1))) as Hp2.
  pose proof (Hat2 q s (Hgen q g Hfq (eq_sym Hc) Hsg) (or_intror (Hbucket q Hq1))) as Hq2.
  destruct (map_at_bucket String.ltb _ _ _ Hp2) as (b2 & Hb2 & E2).
  (* the exact comparison *)
  destruct (grouping_complete (identical (w_fs w)) b2.2 p q) as (group & Hg & Hpg & Hqg).
  - intros a. by apply (identical_copies_r _ a p q f g).
  - by apply (identical_copies _ p q f g).
  - by apply (identical_copies _ q p g f).
  - done.
  - by rewrite E2.
  - by rewrite E2.
  - exists group. split; [|done]. apply Hin. right. exists b2.
    split; [done|]. split; [|done]. rewrite E2. by apply (length_two_members _ p q).
Qed.

(** What the scan of a listing guarantees about its result. *)
Lemma findDuplicatesInFolder_run samplePoints sampleSize is_directory
    directory_iterator folder w :
  ∃ r w',
    findDuplicatesInFolder samplePoints sampleSize is_directory directory_iterator
      folder w = (r, w')
    ∧ quiet w w'
    ∧ ends samplePoints r (λ result,
        duplicate_groups (w_fs w) (duplicateGroups_of result)
        ∧ concat (duplicateGroups_of result) ⊆+ directory_iterator (w_fs w) folder
        ∧ if is_directory folder then
            error result = ""
            ∧ totalFiles result
              = Z.of_nat (length (existing (w_fs w) (directory_iterator (w_fs w) folder)))
            ∧ totalSize result
              = wrap64 (size_sum (w_fs w) (directory_iterator (w_fs w) folder))
            ∧ (∀ p q f g,
                 sampleSize * 2 < 2 ^ 64 → samplePoints + 1 < 2 ^ 64 →
                 p ≠ q → p ∈ directory_iterator (w_fs w) folder →
                 q ∈ directory_iterator (w_fs w) folder →
                 w_fs w !! p = Some f → w_fs w !! q = Some g →
                 content f = content g →
                 readable f → readable g → signable samplePoints sampleSize f →
                 ∃ group, group ∈ duplicateGroups_of result ∧ p ∈ group ∧ q ∈ group)
          else result = Result [] 0 0 "not a directory").
Proof.
  unfold findDuplicatesInFolder.
  destruct (is_directory folder); cbn [negb].
  - unfold bind, get_fs.
    destruct (scan_run samplePoints sampleSize (directory_iterator (w_fs w) folder) w)
      as (r & w' & -> & Hquiet & Hend).
    exists r, w'. split; [done|]. split; [done|].
    destruct r as [result| | |]; try done.
    destruct Hend as (He & Hf & Hs & Hgood & Hsub & Hall).
    split; [done|]. split; [|done].
    etrans; [exact Hsub|]. apply sublist_submseteq, List_filter_sublist.
  - eexists _, w. split; [done|]. split; [reflexivity|]. cbn. split; [constructor|].
    split; [apply submseteq_nil_l|done].
Qed.

Lemma findDuplicatesInFolderRecursive_run samplePoints sampleSize is_directory
    recursive_directory_iterator folder w :
  ∃ r w',
    findDuplicatesInFolderRecursive samplePoints sampleSize is_directory
      recursive_directory_iterator folder w = (r, w')
    ∧ quiet w w'
    ∧ ends samplePoints r (λ result,
        duplicate_groups (w_fs w) (duplicateGroups_of result)
        ∧ concat (duplicateGroups_of result)
          ⊆+ recursive_directory_iterator (w_fs w) folder
        ∧ if is_directory folder then
            error result = ""
            ∧ totalFiles result
              = Z.of_nat (length (existing (w_fs w)
                                    (recursive_directory_iterator (w_fs w) folder)))
            ∧ totalSize result
              = wrap64 (size_sum (w_fs w) (recursive_directory_iterator (w_fs w) folder))
            ∧ (∀ p q f g,
                 sampleSize * 2 < 2 ^ 64 → samplePoints + 1 < 2 ^ 64 →
                 p ≠ q → p ∈ recursive_directory_iterator (w_fs w) folder →
                 q ∈ recursive_directory_iterator (w_fs w) folder →
                 w_fs w !! p = Some f → w_fs w !! q = Some g →
                 content f = content g →
                 readable f → readable g → signable samplePoints sampleSize f →
                 ∃ group, group ∈ duplicateGroups_of result ∧ p ∈ group ∧ q ∈ group)
          else result = Result [] 0 0 "not a directory").
Proof.
  unfold findDuplicatesInFolderRecursive.
  destruct (is_directory folder); cbn [negb].
  - unfold bind, get_fs.
    destruct (scan_run samplePoints sampleSize
                (recursive_directory_iterator (w_fs w) folder) w)
      as (r & w' & -> & Hquiet & Hend).
    exists r, w'. split; [done|]. split; [done|].
    destruct r as [result| | |]; try done.
    destruct Hend as (He & Hf & Hs & Hgood & Hsub & Hall).
    split; [done|]. split; [|done].
    etrans; [exact Hsub|]. apply sublist_submseteq, List_filter_sublist.
  - eexists _, w. split; [done|]. split; [reflexivity|]. cbn. split; [constructor|].
    split; [apply submseteq_nil_l|done].
Qed.



(** X2: every group reported by the scan of one folder has two members or
    more, all existing and with the same bytes; the groups taken together
    list no more than the directory listing does, so that no file is in two
    groups, or twice in one, when the listing has no repetition. *)
Theorem findDuplicatesInFolder_groups samplePoints sampleSize is_directory
    directory_iterator folder w :
  samplePoints + 1 < 2 ^ 64 →
  ∃ result w',
    findDuplicatesInFolder samplePoints sampleSize is_directory directory_iterator
      folder w = (Ret result, w')
    ∧ duplicate_groups (w_fs w) (duplicateGroups_of result)
    ∧ concat (duplicateGroups_of result) ⊆+ directory_iterator (w_fs w) folder
    ∧ (NoDup (directory_iterator (w_fs w) folder) →
       NoDup (concat (duplicateGroups_of result))).
Proof.
  intros Hsp.
  destruct (findDuplicatesInFolder_run samplePoints sampleSize is_directory
              directory_iterator folder w) as (r & w' & Hrun & Hquiet & Hend).
  apply (ends_ret _ _ _ Hsp) in Hend as (result & -> & Hgood & Hsub & _).
  exists result, w'. split; [done|]. split; [done|]. split; [done|].
  by apply submseteq_NoDup.
Qed.

Lemma findDuplicatesInFolder_groups_witness :
  ∃ result w',
    findDuplicatesInFolder 4 4096 (λ _, true) listing_pair "/data" world_pair
    = (Ret result, w')
    ∧ duplicate_groups (w_fs world_pair) (duplicateGroups_of result)
    ∧ concat (duplicateGroups_of result) ⊆+ listing_pair (w_fs world_pair) "/data"
    ∧ (NoDup (listing_pair (w_fs world_pair) "/data") →
       NoDup (concat (duplicateGroups_of result))).
Proof.
  apply (findDuplicatesInFolder_groups 4 4096 (λ _, true) listing_pair "/data"
           world_pair).
  reflexivity.
Defined.

(** X3: the recursive scan has the same guarantees over the recursive
    listing: it always returns, changes no file, and its groups have two
    members or more with the same bytes and repeat no listed file. *)
Theorem findDuplicatesInFolderRecursive_groups samplePoints sampleSize is_directory
    recursive_directory_iterator folder w :
  samplePoints + 1 < 2 ^ 64 →
  ∃ result w',
    findDuplicatesInFolderRecursive samplePoints sampleSize is_directory
      recursive_directory_iterator folder w = (Ret result, w')
    ∧ quiet w w'
    ∧ duplicate_groups (w_fs w) (duplicateGroups_of result)
    ∧ concat (duplicateGroups_of result) ⊆+ recursive_directory_iterator (w_fs w) folder
    ∧ (NoDup (recursive_directory_iterator (w_fs w) folder) →
       NoDup (concat (duplicateGroups_of result))).
Proof.
  intros Hsp.
  destruct (findDuplicatesInFolderRecursive_run samplePoints sampleSize is_directory
              recursive_directory_iterator folder w)
    as (r & w' & Hrun & Hquiet & Hend).
  apply (ends_ret _ _ _ Hsp) in Hend as (result & -> & Hgood & Hsub & _).
  exists result, w'. split; [done|]. split; [done|]. split; [done|]. split; [done|].
  by apply submseteq_NoDup.
Qed.

Lemma findDuplicatesInFolderRecursive_groups_witness :
  ∃ result w',
    findDuplicatesInFolderRecursive 4 4096 (λ _, true) listing_pair "/data" world_pair
    = (Ret result, w')
    ∧ quiet world_pair w'
    ∧ duplicate_groups (w_fs world_pair) (duplicateGroups_of result)
    ∧ concat (duplicateGroups_of result) ⊆+ listing_pair (w_fs world_pair) "/data"
    ∧ (NoDup (listing_pair (w_fs world_pair) "/data") →
       NoDup (concat (duplicateGroups_of result))).
Proof.
  apply (findDuplicatesInFolderRecursive_groups 4 4096 (λ _, true) listing_pair "/data"
           world_pair).
  reflexivity.
Defined.

(** X4: the exact comparator misses no pair: two different candidates
    that exist, have the same bytes and can be compared (each can be
    opened, or is empty) end up in one common group, whatever else is among
    the candidates. *)
Theorem findExactDuplicates_complete candidateGroup p q f g w :
  p ≠ q → p ∈ candidateGroup → q ∈ candidateGroup →
  w_fs w !! p = Some f → w_fs w !! q = Some g → content f = content g →
  readable f → readable g →
  ∃ groups w',
    findExactDuplicates candidateGroup w = (Ret groups, w')
    ∧ ∃ group, group ∈ groups ∧ p ∈ group ∧ q ∈ group.
Proof.
  intros Hne Hp Hq Hfp Hfq Hc Hrf Hrg.
  destruct (findExactDuplicates_run candidateGroup w) as (w' & -> & _).
  eexists _, w'. split; [done|].
  apply grouping_complete; [|..|done|done|done].
  - intros a. by apply (identical_copies_r _ a p q f g).
  - by apply (identical_copies _ p q f g).
  - by apply (identical_copies _ q p g f).
Qed.

Lemma findExactDuplicates_complete_witness :
  ∃ groups w',
    findExactDuplicates [sample_a; sample_b] world_pair = (Ret groups, w')
    ∧ ∃ group, group ∈ groups ∧ sample_a ∈ group ∧ sample_b ∈ group.
Proof.
  apply (findExactDuplicates_complete [sample_a; sample_b] sample_a sample_b
           five_bytes five_bytes world_pair).
  - discriminate.
  - by left.
  - right. by left.
  - vm_compute. reflexivity.
  - vm_compute. reflexivity.
  - reflexivity.
  - left. reflexivity.
  - left. reflexivity.
Defined.

(** X5: the scan of one folder misses no pair: two different listed files
    that exist, have the same bytes, can be compared and can be
    fingerprinted are reported in one common group, whatever else the
    folder holds.  The three tiers lose nothing: equal bytes give equal
    sizes and equal fingerprints.  The sample settings are in the range
    where [2·sampleSize] and [samplePoints + 1] do not wrap. *)
Theorem findDuplicatesInFolder_complete samplePoints sampleSize is_directory
    directory_iterator folder p q f g w :
  is_directory folder = true →
  sampleSize * 2 < 2 ^ 64 → samplePoints + 1 < 2 ^ 64 →
  p ≠ q →
  p ∈ directory_iterator (w_fs w) folder → q ∈ directory_iterator (w_fs w) folder →
  w_fs w !! p = Some f → w_fs w !! q = Some g → content f = content g →
  readable f → readable g → signable samplePoints sampleSize f →
  ∃ result w',
    findDuplicatesInFolder samplePoints sampleSize is_directory directory_iterator
      folder w = (Ret result, w')
    ∧ ∃ group, group ∈ duplicateGroups_of result ∧ p ∈ group ∧ q ∈ group.
Proof.
  intros Hdir Hss Hsp Hne Hp Hq Hfp Hfq Hc Hrf Hrg Hsf.
  destruct (findDuplicatesInFolder_run samplePoints sampleSize is_directory
              directory_iterator folder w) as (r & w' & Hrun & Hquiet & Hend).
  apply (ends_ret _ _ _ Hsp) in Hend as (result & -> & _ & _ & Hall).
  rewrite Hdir in Hall. destruct Hall as (_ & _ & _ & Hall).
  exists result, w'. split; [done|]. by apply (Hall p q f g).
Qed.

Lemma findDuplicatesInFolder_complete_witness :
  ∃ result w',
    findDuplicatesInFolder 4 4096 (λ _, true) listing_pair "/data" world_pair
    = (Ret result, w')
    ∧ ∃ group, group ∈ duplicateGroups_of result ∧ sample_a ∈ group ∧ sample_b ∈ group.
Proof.
  apply (findDuplicatesInFolder_complete 4 4096 (λ _, true) listing_pair "/data"
           sample_a sample_b five_bytes five_bytes world_pair).
  - reflexivity.
  - reflexivity.
  - reflexivity.
  - discriminate.
  - by left.
  - right. by left.
  - vm_compute. reflexivity.
  - vm_compute. reflexivity.
  - reflexivity.
  - left. reflexivity.
  - left. reflexivity.
  - left. vm_compute. discriminate.
Defined.

(** X6: the recursive scan misses no pair either, over the recursive
    listing. *)
Theorem findDuplicatesInFolderRecursive_complete samplePoints sampleSize is_directory
    recursive_directory_iterator folder p q f g w :
  is_directory folder = true →
  sampleSize * 2 < 2 ^ 64 → samplePoints + 1 < 2 ^ 64 →
  p ≠ q →
  p ∈ recursive_directory_iterator (w_fs w) folder →
  q ∈ recursive_directory_iterator (w_fs w) folder →
  w_fs w !! p = Some f → w_fs w !! q = Some g → content f = content g →
  readable f → readable g → signable samplePoints sampleSize f →
  ∃ result w',
    findDuplicatesInFolderRecursive samplePoints sampleSize is_directory
      recursive_directory_iterator folder w = (Ret result, w')
    ∧ ∃ group, group ∈ duplicateGroups_of result ∧ p ∈ group ∧ q ∈ group.
Proof.
  intros Hdir Hss Hsp Hne Hp Hq Hfp Hfq Hc Hrf Hrg Hsf.
  destruct (findDuplicatesInFolderRecursive_run samplePoints sampleSize is_directory
              recursive_directory_iterator folder w)
    as (r & w' & Hrun & Hquiet & Hend).
  apply (ends_ret _ _ _ Hsp) in Hend as (result & -> & _ & _ & Hall).
  rewrite Hdir in Hall. destruct Hall as (_ & _ & _ & Hall).
  exists result, w'. split; [done|]. by apply (Hall p q f g).
Qed.

Lemma findDuplicatesInFolderRecursive_complete_witness :
  ∃ result w',
    findDuplicatesInFolderRecursive 4 4096 (λ _, true) listing_pair "/data" world_pair
    = (Ret result, w')
    ∧ ∃ group, group ∈ duplicateGroups_of result ∧ sample_a ∈ group ∧ sample_b ∈ group.
Proof.
  apply (findDuplicatesInFolderRecursive_complete 4 4096 (λ _, true) listing_pair
           "/data" sample_a sample_b five_bytes five_bytes world_pair).
  - reflexivity.
  - reflexivity.
  - reflexivity.
  - discriminate.
  - by left.
  - right. by left.
  - vm_compute. reflexivity.
  - vm_compute. reflexivity.
  - reflexivity.
  - left. reflexivity.
  - left. reflexivity.
  - left. vm_compute. discriminate.
Defined.

(** ** Whole runs that change no file *)

Lemma quiet_delete_members_dry group keepSet : ∀ i c,
  respects quiet (delete_members true group keepSet i c).
Proof.
  induction group as [|p rest IH]; intros i c; cbn [delete_members negb]; quiet.
Qed.

Lemma quiet_delete_groups_dry duplicateGroups keepFiles : ∀ groupIndex c,
  respects quiet (delete_groups true duplicateGroups keepFiles groupIndex c).
Proof.
  induction duplicateGroups as [|group rest IH]; intros groupIndex c;
    cbn [delete_groups]; quiet. apply quiet_delete_members_dry.
Qed.

Lemma quiet_deletion_report dryRun c : respects quiet (deletion_report dryRun c).
Proof. unfold deletion_report. quiet. Qed.

Lemma quiet_performDeletion_dry duplicateGroups keepFiles :
  respects quiet (performDeletionWithCustomRetention true duplicateGroups keepFiles).
Proof.
  unfold performDeletionWithCustomRetention. quiet;
    first [apply quiet_delete_groups_dry|apply quiet_deletion_report].
Qed.

Lemma quiet_findDuplicatesInFolder samplePoints sampleSize is_directory
    directory_iterator folder :
  respects quiet (findDuplicatesInFolder samplePoints sampleSize is_directory
                    directory_iterator folder).
Proof. unfold findDuplicatesInFolder. quiet. Qed.

Lemma quiet_findDuplicatesInFolderRecursive samplePoints sampleSize is_directory
    recursive_directory_iterator folder :
  respects quiet (findDuplicatesInFolderRecursive samplePoints sampleSize is_directory
                    recursive_directory_iterator folder).
Proof. unfold findDuplicatesInFolderRecursive. quiet. Qed.

#[global] Hint Resolve quiet_performDeletion_dry quiet_findDuplicatesInFolder
  quiet_findDuplicatesInFolderRecursive quiet_plan_and_confirm : quiet.
#[global] Hint Opaque performDeletionWithCustomRetention findDuplicatesInFolder
  findDuplicatesInFolderRecursive plan_and_confirm : quiet.

Lemma quiet_processSingleFolder_dry autoConfirm samplePoints sampleSize is_directory
    directory_iterator fuel folder :
  respects quiet (processSingleFolder true autoConfirm samplePoints sampleSize
                    is_directory directory_iterator fuel folder).
Proof. unfold processSingleFolder. quiet. Qed.

Lemma quiet_folder_loop_dry autoConfirm samplePoints sampleSize is_directory
    directory_iterator fuel folders :
  respects quiet (folder_loop true autoConfirm samplePoints sampleSize is_directory
                    directory_iterator fuel folders).
Proof.
  induction folders as [|folder rest IH]; cbn [folder_loop]; quiet.
Qed.

Lemma quiet_deduplicate_dry autoConfirm samplePoints sampleSize mode is_directory
    directory_iterator recursive_directory_iterator recursive_directories
    fuel directory :
  respects quiet (deduplicate true autoConfirm samplePoints sampleSize mode is_directory
                    directory_iterator recursive_directory_iterator
                    recursive_directories fuel directory).
Proof.
  unfold deduplicate, performGlobalDeletionWithCustomRetention. quiet;
    try first [apply quiet_folder_loop_dry | apply quiet_delete_groups_dry
              | apply quiet_deletion_report].
Qed.

(** ** Runs without an operator *)

#[global] Instance unattended_preorder : PreOrder unattended.
Proof.
  split.
  - by intros w.
  - intros w1 w2 w3 H12 H23 Hin. destruct (H12 Hin) as [F12 I12].
    destruct (H23 I12) as [F23 I23]. split; congruence.
Qed.

Lemma quiet_unattended w w' : quiet w w' → unattended w w'.
Proof. intros Hquiet Hempty. split; [by destruct Hquiet|by eapply quiet_eof]. Qed.

Lemma respects_mono {A} (R R' : world → world → Prop) (m : M A) :
  (∀ w w', R w w' → R' w w') → respects R m → respects R' m.
Proof. intros HR Hm w r w' E. eapply HR, Hm, E. Qed.

Lemma bind_inv {A B} (m : M A) (f : A → M B) w r w' :
  bind m f w = (r, w') →
  ∃ r1 w1, m w = (r1, w1)
    ∧ match r1 with
      | Ret a => f a w1 = (r, w')
      | Raise e => r = Raise e ∧ w' = w1
      | Undefined => r = Undefined ∧ w' = w1
      | OutOfFuel => r = OutOfFuel ∧ w' = w1
      end.
Proof.
  unfold bind. destruct (m w) as [r1 w1]. intros E. exists r1, w1. split; [done|].
  destruct r1; [done|by inversion E..].
Qed.

Lemma askForConfirmation_eof question defaultYes w :
  w_stdin w = [] →
  askForConfirmation false question defaultYes w
  = (Ret defaultYes,
     World (w_fs w) [] (w_stdout w ++ [OutPrompt question defaultYes]) (w_io w)).
Proof.
  intros Hin. unfold askForConfirmation, bind, emit, getline. cbn. by rewrite Hin.
Qed.

Lemma retention_loop_eof duplicateGroups keepFiles w :
  w_stdin w = [] →
  ∀ fuel, retention_loop fuel duplicateGroups keepFiles w = (OutOfFuel, w).
Proof.
  intros Hin fuel. induction fuel as [|fuel IH]; [done|].
  cbn [retention_loop]. unfold bind at 1, retention_iteration, bind at 1, getline.
  rewrite Hin. cbn. exact IH.
Qed.

Lemma plan_and_confirm_eof autoConfirm fuel duplicateGroups w r w' :
  w_stdin w = [] →
  plan_and_confirm autoConfirm fuel duplicateGroups w = (r, w') →
  ∀ keepFiles, r ≠ Ret (Some keepFiles).
Proof.
  intros Hin Hrun keepFiles. unfold plan_and_confirm in Hrun.
  apply bind_inv in Hrun as (r1 & w1 & H1 & Hrun).
  pose proof (quiet_eof _ _ (quiet_displayDuplicateGroupsWithNumbers _ _ _ _ H1) Hin)
    as Hin1.
  destruct r1 as [[]| | |]; [|by destruct Hrun as [-> _]..].
  apply bind_inv in Hrun as (r2 & w2 & H2 & Hrun).
  destruct autoConfirm.
  - rewrite askForConfirmation_yes in H2. injection H2 as <- <-.
    apply bind_inv in Hrun as (r3 & w3 & H3 & Hrun).
    apply bind_inv in H3 as (r4 & w4 & H4 & H3).
    unfold letUserModifyRetention in H4.
    rewrite retention_loop_eof in H4 by done. injection H4 as <- <-.
    destruct H3 as [-> _]. by destruct Hrun as [-> _].
  - rewrite askForConfirmation_eof in H2 by done. injection H2 as <- <-.
    apply bind_inv in Hrun as (r3 & w3 & H3 & Hrun).
    unfold mret in H3. injection H3 as <- <-.
    apply bind_inv in Hrun as (r4 & w4 & H4 & Hrun).
    rewrite askForConfirmation_eof in H4 by done. injection H4 as <- <-.
    cbn in Hrun. by injection Hrun as <- <-.
Qed.

Lemma unattended_plan_then {A} autoConfirm fuel duplicateGroups
    (k : option (list (gset nat)) → M A) :
  respects unattended (k None) →
  respects unattended (bind (plan_and_confirm autoConfirm fuel duplicateGroups) k).
Proof.
  intros Hk w r w' Hrun Hin.
  apply bind_inv in Hrun as (r1 & w1 & H1 & Hrun).
  pose proof (quiet_plan_and_confirm _ _ _ _ _ _ H1) as Hquiet.
  pose proof (quiet_eof _ _ Hquiet Hin) as Hin1. destruct Hquiet as [Hfs1 _].
  pose proof (plan_and_confirm_eof _ _ _ _ _ _ Hin H1) as Hnone.
  destruct r1 as [[keepFiles|]| | |].
  - by destruct (Hnone keepFiles).
  - destruct (Hk _ _ _ Hrun Hin1) as [? ?]. split; congruence.
  - destruct Hrun as [_ ->]. done.
  - destruct Hrun as [_ ->]. done.
  - destruct Hrun as [_ ->]. done.
Qed.

Lemma unattended_quiet {A} (m : M A) : respects quiet m → respects unattended m.
Proof. apply respects_mono, quiet_unattended. Qed.

Lemma unattended_processSingleFolder dryRun autoConfirm samplePoints sampleSize
    is_directory directory_iterator fuel folder :
  respects unattended (processSingleFolder dryRun autoConfirm samplePoints sampleSize
                         is_directory directory_iterator fuel folder).
Proof.
  unfold processSingleFolder.
  apply respects_bind; [apply _|apply unattended_quiet, quiet_findDuplicatesInFolder|].
  intros result. destruct (negb _); [apply respects_mret, _|].
  apply respects_bind; [apply _|apply unattended_quiet, quiet_savable|]. intros _.
  destruct (bool_decide _); [apply respects_mret, _|].
  apply unattended_plan_then. apply respects_mret, _.
Qed.

Lemma unattended_folder_loop dryRun autoConfirm samplePoints sampleSize is_directory
    directory_iterator fuel folders :
  respects unattended (folder_loop dryRun autoConfirm samplePoints sampleSize
                         is_directory directory_iterator fuel folders).
Proof.
  induction folders as [|folder rest IH]; cbn [folder_loop]; [apply respects_mret, _|].
  apply respects_bind; [apply _|apply unattended_processSingleFolder|]. intros _.
  destruct (_ && _); [|done].
  apply respects_bind; [apply _|apply unattended_quiet, quiet_askForConfirmation|].
  intros continueProcessing. destruct (negb _); [apply respects_mret, _|done].
Qed.

Lemma unattended_deduplicate dryRun autoConfirm samplePoints sampleSize mode
    is_directory directory_iterator recursive_directory_iterator recursive_directories
    fuel directory :
  respects unattended (deduplicate dryRun autoConfirm samplePoints sampleSize mode
                         is_directory directory_iterator recursive_directory_iterator
                         recursive_directories fuel directory).
Proof.
  unfold deduplicate.
  destruct (negb _); [apply respects_mret, _|].
  destruct (_ || _); [apply unattended_folder_loop|].
  apply respects_bind;
    [apply _|apply unattended_quiet, quiet_findDuplicatesInFolderRecursive|].
  intros result. destruct (negb _); [apply respects_mret, _|].
  apply respects_bind; [apply _|apply unattended_quiet, quiet_savable|].
  intros totalSpaceSaved.
  destruct (bool_decide _); [apply respects_mret, _|].
  apply unattended_plan_then. apply respects_mret, _.
Qed.

(** ** Runs that lose no content *)

#[global] Instance shrinks_preorder : PreOrder shrinks.
Proof.
  split.
  - intros w p. by left.
  - intros w1 w2 w3 H12 H23 p.
    destruct (H23 p) as [E23|?]; [|by right].
    destruct (H12 p) as [E12|E12]; [left|right]; congruence.
Qed.

#[global] Instance no_loss_preorder : PreOrder no_loss.
Proof.
  split.
  - intros w p. by left.
  - intros w1 w2 w3 H12 H23 p.
    destruct (H12 p) as [E12|(N12 & f & q & g & Hp & Hq & Hc)].
    + destruct (H23 p) as [E23|(N23 & f & q & g & Hp & Hq & Hc)].
      * left. congruence.
      * right. split; [done|]. exists f, q, g. split; [congruence|done].
    + right. split.
      * destruct (H23 p) as [E23|[N23 _]]; congruence.
      * destruct (H23 q) as [E23|(N23 & f' & q' & g' & Hp' & Hq' & Hc')].
        -- exists f, q, g. split; [done|]. split; [congruence|done].
        -- exists f, q', g'. split; [done|]. split; [done|]. congruence.
Qed.














(** ** The command line *)

Lemma stoul_bound ULONG_MAX s n : stoul ULONG_MAX s = Some n → n ≤ ULONG_MAX.
Proof.
  unfold stoul. destruct (parse_integer s) as [z|]; [|done]. cbn zeta.
  destruct (N.ltb_spec ULONG_MAX (Z.to_N (Z.abs z))); [done|].
  destruct (Z.ltb_spec z 0); intros [= <-]; lia.
Qed.

Lemma stoul_option ULONG_MAX s n :
  stoul ULONG_MAX s = Some n →
  s ≠ "-d" ∧ s ≠ "--dry-run" ∧ s ≠ "-y" ∧ s ≠ "--yes".
Proof.
  intros H. repeat split; intros E; rewrite E in H; vm_compute in H; discriminate.
Qed.

Ltac parse_flag Hparsed :=
  match type of Hparsed with
  | (if ?b then _ else _) = _ =>
      let E := fresh "E" in
      destruct b eqn:E;
      [apply orb_true_iff in E as [E|E]; apply bool_decide_eq_true in E
      |apply orb_false_iff in E as [?%bool_decide_eq_false ?%bool_decide_eq_false]]
  end.

Lemma parse_arguments_facts ULONG_MAX n : ∀ args o o',
  (length args ≤ n)%nat →
  parse_arguments ULONG_MAX args o = Parsed o' →
  (o_dryRun o' = true ↔ o_dryRun o = true ∨ "-d" ∈ args ∨ "--dry-run" ∈ args)
  ∧ (o_autoConfirm o' = true ↔ o_autoConfirm o = true ∨ "-y" ∈ args ∨ "--yes" ∈ args)
  ∧ (valid_mode (o_mode o) → valid_mode (o_mode o'))
  ∧ (∀ bound, ULONG_MAX ≤ bound → o_samplePoints o ≤ bound → o_samplePoints o' ≤ bound)
  ∧ (∀ bound, ULONG_MAX ≤ bound → o_sampleSize o ≤ bound → o_sampleSize o' ≤ bound).
Proof.
  induction n as [|n IH]; intros args o o' Hlen Hparse.
  { destruct args; [|cbn in Hlen; lia]. injection Hparse as <-.
    rewrite !elem_of_nil. tauto. }
  destruct args as [|arg rest].
  { injection Hparse as <-. rewrite !elem_of_nil. tauto. }
  cbn [length] in Hlen. cbn [parse_arguments] in Hparse.
  rewrite !(elem_of_cons _ _ arg).
  parse_flag Hparse; [done|done|].
  parse_flag Hparse.
  1,2: apply IH in Hparse; [|lia]; cbn in Hparse; subst arg;
       intuition congruence.
  parse_flag Hparse.
  1,2: apply IH in Hparse; [|lia]; cbn in Hparse; subst arg;
       intuition congruence.
  parse_flag Hparse.
  1,2: apply IH in Hparse; [|lia]; cbn in Hparse; subst arg;
       intuition congruence.
  parse_flag Hparse.
  1,2: destruct rest as [|mode rest]; [done|];
       destruct (negb (bool_decide (mode = "all")) && negb (bool_decide (mode = "folder")))
         eqn:Hmode; [done|];
       apply IH in Hparse; [|cbn in Hlen; lia]; cbn in Hparse;
       rewrite !(elem_of_cons _ _ mode);
       assert (valid_mode mode) as Hvalid
         by (unfold valid_mode; apply andb_false_iff in Hmode as [Hm|Hm];
             apply negb_false_iff, bool_decide_eq_true in Hm; auto);
       assert (Hv := Hvalid); destruct Hvalid; subst arg mode; intuition congruence.
  parse_flag Hparse.
  1,2: apply IH in Hparse; [|lia]; cbn in Hparse; subst arg;
       intuition congruence.
  parse_flag Hparse.
  1,2: destruct rest as [|value rest]; [done|];
       destruct (stoul ULONG_MAX value) as [samplePoints|] eqn:Hvalue; [|done];
       apply IH in Hparse; [|cbn in Hlen; lia]; cbn in Hparse;
       rewrite !(elem_of_cons _ _ value);
       pose proof (stoul_bound _ _ _ Hvalue);
       destruct (stoul_option _ _ _ Hvalue) as (? & ? & ? & ?);
       subst arg; intuition (try congruence; try lia);
       match goal with
       | Hb : ∀ bound, _ → _ → ?x ≤ bound |- ?x ≤ _ => apply Hb; [done|lia]
       end.
  parse_flag Hparse.
  1,2: destruct rest as [|value rest]; [done|];
       destruct (stoul ULONG_MAX value) as [sampleSize|] eqn:Hvalue; [|done];
       apply IH in Hparse; [|cbn in Hlen; lia]; cbn in Hparse;
       rewrite !(elem_of_cons _ _ value);
       pose proof (stoul_bound _ _ _ Hvalue);
       destruct (stoul_option _ _ _ Hvalue) as (? & ? & ? & ?);
       subst arg; intuition (try congruence; try lia);
       match goal with
       | Hb : ∀ bound, _ → _ → ?x ≤ bound |- ?x ≤ _ => apply Hb; [done|lia]
       end.
  destruct (negb _) eqn:Hdash; [|done].
  apply IH in Hparse; [|lia]. cbn in Hparse. intuition congruence.
Qed.


Lemma main_respects (R : world → world → Prop) `{!PreOrder R} ULONG_MAX is_directory
    directory_iterator recursive_directory_iterator recursive_directories
    fuel argv :
  (∀ o, parse_arguments ULONG_MAX (tail argv) default_options = Parsed o →
        respects R (deduplicate (o_dryRun o) (o_autoConfirm o) (o_samplePoints o)
                      (o_sampleSize o) (o_mode o) is_directory directory_iterator
                      recursive_directory_iterator recursive_directories fuel
                      (o_directory o))) →
  respects R (main ULONG_MAX is_directory directory_iterator
                recursive_directory_iterator recursive_directories fuel argv).
Proof.
  intros Hrun. unfold main.
  destruct argv as [|program [|arg args]]; [apply respects_mret, _..|].
  cbn [tail] in Hrun.
  destruct (parse_arguments _ _ _) as [code|o]; [apply respects_mret, _|].
  destruct (bool_decide _); [apply respects_mret, _|].
  destruct (negb _); [apply respects_mret, _|].
  apply respects_try_catch; [apply _| |intros; apply respects_mret, _].
  apply respects_bind; [apply _|by apply Hrun|intros; apply respects_mret, _].
Qed.

(** X7: a dry run changes no file: whatever the mode, the sample settings,
    the answers of the operator and the state of the files, and however the
    run ends, [deduplicate] with [dryRun] set leaves the filesystem as it
    was. *)
Theorem dry_run_changes_no_file autoConfirm samplePoints sampleSize mode is_directory
    directory_iterator recursive_directory_iterator recursive_directories
    fuel directory w :
  w_fs (deduplicate true autoConfirm samplePoints sampleSize mode is_directory
          directory_iterator recursive_directory_iterator recursive_directories
          fuel directory w).2
  = w_fs w.
Proof.
  destruct (deduplicate _ _ _ _ _ _ _ _ _ _ _ _) as [r w'] eqn:Hrun.
  by destruct (quiet_deduplicate_dry _ _ _ _ _ _ _ _ _ _ _ _ _ Hrun).
Qed.

(** X8: [-d] or [--dry-run] anywhere on the command line protects the
    files: either the arguments are rejected or the run is a dry run, and
    in both cases [main] leaves the filesystem as it was. *)
Theorem main_dry_run ULONG_MAX is_directory directory_iterator
    recursive_directory_iterator recursive_directories fuel program args w :
  "-d" ∈ args ∨ "--dry-run" ∈ args →
  w_fs (main ULONG_MAX is_directory directory_iterator recursive_directory_iterator
          recursive_directories fuel (program :: args) w).2
  = w_fs w.
Proof.
  intros Hflag.
  destruct (main _ _ _ _ _ _ _ _) as [r w'] eqn:Hrun.
  eapply (main_respects quiet) in Hrun; [by destruct Hrun|].
  intros o Hparse. cbn [tail] in Hparse.
  destruct (parse_arguments_facts _ _ _ _ _ (Nat.le_refl _) Hparse) as [Hdry _].
  rewrite (proj2 Hdry) by auto. apply quiet_deduplicate_dry.
Qed.

Lemma main_dry_run_witness :
  w_fs (main (2 ^ 32 - 1) (λ _, true) listing_pair listing_pair (λ _, []) 5
          ["dedup"; "-y"; "/data"; "--dry-run"] world_pair).2
  = w_fs world_pair.
Proof.
  apply (main_dry_run (2 ^ 32 - 1) (λ _, true) listing_pair listing_pair (λ _, []) 5
           "dedup" ["-y"; "/data"; "--dry-run"] world_pair).
  right. right. right. by left.
Defined.

(** X9: without input nothing is deleted.  When no line of input is left,
    [deduplicate], and so [main], leaves the filesystem as it was, in both
    modes and also with [-y]: without [-y] the two prompts that lead to a
    deletion default to NO, and with [-y] the retention loop is entered and
    not left. *)
Theorem no_input_no_deletion is_directory directory_iterator
    recursive_directory_iterator recursive_directories w :
  w_stdin w = [] →
  (∀ dryRun autoConfirm samplePoints sampleSize mode fuel directory,
     w_fs (deduplicate dryRun autoConfirm samplePoints sampleSize mode is_directory
             directory_iterator recursive_directory_iterator recursive_directories
             fuel directory w).2
     = w_fs w)
  ∧ (∀ ULONG_MAX fuel argv,
       w_fs (main ULONG_MAX is_directory directory_iterator
               recursive_directory_iterator recursive_directories fuel argv w).2
       = w_fs w).
Proof.
  intros Hin. split.
  - intros dryRun autoConfirm samplePoints sampleSize mode fuel directory.
    destruct (deduplicate _ _ _ _ _ _ _ _ _ _ _ _) as [r w'] eqn:Hrun.
    by destruct (unattended_deduplicate _ _ _ _ _ _ _ _ _ _ _ _ _ _ Hrun Hin).
  - intros ULONG_MAX fuel argv.
    destruct (main _ _ _ _ _ _ _ _) as [r w'] eqn:Hrun.
    eapply (main_respects unattended) in Hrun; [by destruct (Hrun Hin)|].
    intros o _. apply unattended_deduplicate.
Qed.

Lemma no_input_no_deletion_witness :
  w_fs (deduplicate false true 4 4096 "all" (λ _, true) listing_pair listing_pair
          (λ _, []) 5 "/data" world_pair).2
  = w_fs world_pair.
Proof.
  apply (no_input_no_deletion (λ _, true) listing_pair listing_pair (λ _, [])
           world_pair).
  reflexivity.
Defined.



(** X11: what the argument loop of [main] accepts.  When it ends without an
    exit code, the dry-run flag is set exactly when [-d] or [--dry-run] is
    among the arguments and automatic confirmation exactly when [-y] or
    [--yes] is; the mode is ["all"] or ["folder"], so that the
    ["per-folder"] test of [deduplicate] is never met from the command
    line; the sample settings are the defaults or fit [unsigned long]. *)
Theorem parse_arguments_flags ULONG_MAX args o :
  parse_arguments ULONG_MAX args default_options = Parsed o →
  (o_dryRun o = true ↔ "-d" ∈ args ∨ "--dry-run" ∈ args)
  ∧ (o_autoConfirm o = true ↔ "-y" ∈ args ∨ "--yes" ∈ args)
  ∧ valid_mode (o_mode o)
  ∧ o_samplePoints o ≤ N.max 4 ULONG_MAX
  ∧ o_sampleSize o ≤ N.max 4096 ULONG_MAX.
Proof.
  intros Hparse.
  destruct (parse_arguments_facts _ _ _ _ _ (Nat.le_refl _) Hparse)
    as (Hdry & Hauto & Hmode & Hpoints & Hsize).
  cbn in Hdry, Hauto, Hmode, Hpoints, Hsize.
  split; [|split; [|split; [|split]]].
  - rewrite Hdry. intuition congruence.
  - rewrite Hauto. intuition congruence.
  - apply Hmode. by left.
  - apply Hpoints; lia.
  - apply Hsize; lia.
Qed.

Lemma parse_arguments_flags_witness :
  ∃ o, parse_arguments (2 ^ 32 - 1) ["-m"; "folder"; "-p"; "8"; "/data"; "-d"]
         default_options = Parsed o
       ∧ o_dryRun o = true ∧ valid_mode (o_mode o) ∧ o_samplePoints o ≤ 2 ^ 32 - 1.
Proof.
  eexists. split; [vm_compute; reflexivity|].
  destruct (parse_arguments_flags (2 ^ 32 - 1)
              ["-m"; "folder"; "-p"; "8"; "/data"; "-d"]
              (Options true false false true 8 4096 "folder" "/data"))
    as (Hdry & _ & Hmode & Hpoints & _).
  - vm_compute. reflexivity.
  - split; [|split; [exact Hmode|exact Hpoints]].
    apply Hdry. left. do 5 right. by left.
Defined.


(** ** The prompts *)

Lemma tolower_y c :
  bool_decide (tolower c = "y"%char)
  = bool_decide (c = "y"%char) || bool_decide (c = "Y"%char).
Proof. destruct c as [[] [] [] [] [] [] [] []]; reflexivity. Qed.

Lemma askForConfirmation_line question defaultYes fs line rest out io :
  askForConfirmation false question defaultYes (World fs (line :: rest) out io)
  = (Ret (answer line defaultYes),
     World fs rest (out ++ [OutPrompt question defaultYes]) io).
Proof.
  unfold askForConfirmation, bind, emit, getline, answer. cbn.
  destruct line as [|c line]; [done|]. unfold mret. by rewrite tolower_y.
Qed.

(** X13: what [askForConfirmation] makes of the input when automatic
    confirmation is off: it prints one prompt and consumes one line; an
    empty line, or the end of the input, gives the default; any other line
    gives YES exactly when its first character is [y] or [Y], so that a
    line such as ["n"], ["ok"] or [" yes"] declines even where the default
    is YES. *)
Theorem askForConfirmation_answer question defaultYes fs out io :
  (∀ line rest,
     askForConfirmation false question defaultYes (World fs (line :: rest) out io)
     = (Ret (answer line defaultYes),
        World fs rest (out ++ [OutPrompt question defaultYes]) io))
  ∧ askForConfirmation false question defaultYes (World fs [] out io)
    = (Ret defaultYes, World fs [] (out ++ [OutPrompt question defaultYes]) io)
  ∧ (∀ c line, answer (String c line) defaultYes = true ↔ c = "y"%char ∨ c = "Y"%char)
  ∧ answer "" defaultYes = defaultYes.
Proof.
  split; [intros line rest; apply askForConfirmation_line|].
  split; [by apply askForConfirmation_eof|]. split; [|done].
  intros c line. cbn. rewrite orb_true_iff, !bool_decide_eq_true. done.
Qed.

(** X14: with [-y] the retention loop is entered and waits for the command
    [done]: once the input is exhausted every read gives the empty line,
    the loop starts over, and neither [letUserModifyRetention] nor the
    planning step returns, however many rounds are allowed. *)
Theorem yes_flag_without_input duplicateGroups w :
  w_stdin w = [] →
  ∀ fuel,
    letUserModifyRetention fuel duplicateGroups w = (OutOfFuel, w)
    ∧ ∀ plan, (plan_and_confirm true fuel duplicateGroups w).1 ≠ Ret plan.
Proof.
  intros Hin fuel. split.
  - unfold letUserModifyRetention. by apply retention_loop_eof.
  - intros plan.
    destruct (plan_and_confirm true fuel duplicateGroups w) as [r w'] eqn:Hrun.
    cbn. unfold plan_and_confirm in Hrun.
    apply bind_inv in Hrun as (r1 & w1 & H1 & Hrun).
    pose proof (quiet_eof _ _ (quiet_displayDuplicateGroupsWithNumbers _ _ _ _ H1) Hin)
      as Hin1.
    destruct r1 as [[]| | |]; [|by destruct Hrun as [-> _]..].
    apply bind_inv in Hrun as (r2 & w2 & H2 & Hrun).
    rewrite askForConfirmation_yes in H2. injection H2 as <- <-.
    apply bind_inv in Hrun as (r3 & w3 & H3 & Hrun).
    apply bind_inv in H3 as (r4 & w4 & H4 & H3).
    unfold letUserModifyRetention in H4.
    rewrite retention_loop_eof in H4 by done. injection H4 as <- <-.
    destruct H3 as [-> _]. by destruct Hrun as [-> _].
Qed.

Lemma yes_flag_without_input_witness :
  letUserModifyRetention 7 [[sample_a; sample_b]] world_pair = (OutOfFuel, world_pair)
  ∧ ∀ plan, (plan_and_confirm true 7 [[sample_a; sample_b]] world_pair).1 ≠ Ret plan.
Proof.
  apply (yes_flag_without_input [[sample_a; sample_b]] world_pair).
  reflexivity.
Defined.

(** ** The exact comparator as a relation *)

Lemma verdict_sym fs a b : verdict fs a b = Ret true → verdict fs b a = Ret true.
Proof.
  unfold verdict.
  destruct (fs !! a) as [fa|], (fs !! b) as [fb|]; try done.
  destruct (N.eqb_spec (file_len fa) (file_len fb)) as [E|]; [|done].
  rewrite <- E, N.eqb_refl. cbn [negb].
  destruct (file_len fa =? 0); [done|].
  rewrite (andb_comm (can_open fb)). destruct (_ && _); [|done].
  intros [= H]. apply bool_decide_eq_true in H. by rewrite bool_decide_eq_true_2.
Qed.

Lemma verdict_trans fs a b c :
  verdict fs a b = Ret true → verdict fs b c = Ret true → verdict fs a c = Ret true.
Proof.
  unfold verdict.
  destruct (fs !! a) as [fa|], (fs !! b) as [fb|], (fs !! c) as [fc|]; try done.
  destruct (N.eqb_spec (file_len fa) (file_len fb)) as [E1|]; [|done].
  destruct (N.eqb_spec (file_len fb) (file_len fc)) as [E2|]; [|done].
  rewrite <- E1, E1, E2, N.eqb_refl. cbn [negb]. rewrite <- E2, <- E1.
  destruct (file_len fa =? 0); [done|].
  destruct (can_open fa), (can_open fb), (can_open fc); try done. cbn.
  intros [= H1] [= H2]. apply bool_decide_eq_true in H1, H2.
  rewrite bool_decide_eq_true_2; [done|congruence].
Qed.

(** X15: on a given filesystem the answer [true] of [areFilesIdentical] is
    symmetric and transitive, and it is given for a file against itself
    when the file can be compared; so the groups of the exact comparator do
    not depend on which member anchors them. *)
Theorem areFilesIdentical_equivalence w w1 w2 file1 file2 file3 :
  w_fs w1 = w_fs w → w_fs w2 = w_fs w →
  ((areFilesIdentical file1 file2 w).1 = Ret true →
   (areFilesIdentical file2 file1 w1).1 = Ret true)
  ∧ ((areFilesIdentical file1 file2 w).1 = Ret true →
     (areFilesIdentical file2 file3 w1).1 = Ret true →
     (areFilesIdentical file1 file3 w2).1 = Ret true)
  ∧ (∀ f, w_fs w !! file1 = Some f → readable f →
          (areFilesIdentical file1 file1 w).1 = Ret true).
Proof.
  intros Hw1 Hw2.
  assert (∀ a b w0, w_fs w0 = w_fs w →
            (areFilesIdentical a b w0).1 = verdict (w_fs w) a b) as Hrun.
  { intros a b w0 Hw0. destruct (areFilesIdentical_run a b w0) as (reads & -> & _).
    by rewrite Hw0. }
  rewrite !Hrun by done. split; [apply verdict_sym|]. split; [apply verdict_trans|].
  intros f Hf Hread.
  pose proof (identical_copies (w_fs w) file1 file1 f f Hf Hf eq_refl Hread Hread) as H.
  unfold identical in H. by destruct (verdict _ _ _) as [[]| | |].
Qed.

Lemma areFilesIdentical_equivalence_witness :
  ((areFilesIdentical sample_a sample_b world_pair).1 = Ret true →
   (areFilesIdentical sample_b sample_a world_pair).1 = Ret true)
  ∧ ((areFilesIdentical sample_a sample_b world_pair).1 = Ret true →
     (areFilesIdentical sample_b sample_a world_pair).1 = Ret true →
     (areFilesIdentical sample_a sample_a world_pair).1 = Ret true)
  ∧ (∀ f, w_fs world_pair !! sample_a = Some f → readable f →
          (areFilesIdentical sample_a sample_a world_pair).1 = Ret true).
Proof.
  apply (areFilesIdentical_equivalence world_pair world_pair world_pair
           sample_a sample_b sample_a); reflexivity.
Defined.

(** ** The order of the folders *)

(** X16: [collectAllSubfolders] returns the root and the subdirectories,
    each as often as the traversal met it, arranged so that no path stands
    after a longer one; a folder whose path is shorter than that of
    another, as that of a parent is, comes first. *)
Theorem collectAllSubfolders_order recursive_directories rootFolder :
  collectAllSubfolders recursive_directories rootFolder
  ≡ₚ rootFolder :: recursive_directories rootFolder
  ∧ StronglySorted (λ a b, (String.length a ≤ String.length b)%nat)
      (collectAllSubfolders recursive_directories rootFolder).
Proof.
  unfold collectAllSubfolders. split; [apply std_sort_perm|].
  eapply StronglySorted_mono; [|apply std_sort_sorted].
  - unfold not_after. intros a b H. apply Nat.ltb_ge in H. done.
  - intros a b H. apply Nat.ltb_lt in H. apply Nat.ltb_ge. lia.
  - unfold not_after. intros a b c H1 H2.
    apply Nat.ltb_ge in H1, H2. apply Nat.ltb_ge. lia.
Qed.

(** ** What the deleter does *)

Lemma List_filter_ext_elem {A} (f g : A → bool) (l : list A) :
  (∀ x, x ∈ l → f x = g x) → List.filter f l = List.filter g l.
Proof.
  induction l as [|x l IH]; intros H; cbn; [done|].
  rewrite (H x) by by left. rewrite IH; [done|]. intros y Hy. apply H. by right.
Qed.

Lemma size_sum_ext fs fs' (l : list path) :
  (∀ x, x ∈ l → fs' !! x = fs !! x) → size_sum fs' l = size_sum fs l.
Proof.
  unfold size_sum. induction l as [|x l IH]; intros H; cbn; [done|].
  rewrite (H x) by by left. rewrite IH; [done|]. intros y Hy. apply H. by right.
Qed.

Lemma size_sum_app fs l1 l2 : size_sum fs (l1 ++ l2) = size_sum fs l1 + size_sum fs l2.
Proof.
  unfold size_sum. induction l1 as [|x l1 IH]; cbn; [done|]. rewrite IH. lia.
Qed.

Lemma wrap64_add_l a b : wrap64 (wrap64 a + b) = wrap64 (a + b).
Proof. unfold wrap64. by rewrite N.Div0.add_mod_idemp_l. Qed.

Lemma removed_exactly_refl w : removed_exactly [] 0 w w.
Proof.
  split; [done|]. split; [done|]. split; [done|]. exists []. by rewrite app_nil_r.
Qed.

Lemma removed_exactly_trans gone1 gone2 n1 n2 w1 w2 w3 :
  removed_exactly gone1 n1 w1 w2 → removed_exactly gone2 n2 w2 w3 →
  removed_exactly (gone1 ++ gone2) (n1 + n2) w1 w3.
Proof.
  intros (F1 & I1 & O1 & ev1 & E1 & L1) (F2 & I2 & O2 & ev2 & E2 & L2).
  split; [|split; [congruence|split; [congruence|]]].
  - intros q. rewrite F2, F1.
    destruct (decide (q ∈ gone2)), (decide (q ∈ gone1)).
    + by rewrite !bool_decide_eq_true_2 by (try apply elem_of_app; auto).
    + by rewrite !bool_decide_eq_true_2 by (try apply elem_of_app; auto).
    + rewrite (bool_decide_eq_false_2 (q ∈ gone2)) by done.
      by rewrite !bool_decide_eq_true_2 by (try apply elem_of_app; auto).
    + rewrite !bool_decide_eq_false_2; [done|..]; try done.
      rewrite elem_of_app. tauto.
  - exists (ev1 ++ ev2). rewrite E2, E1, app_assoc, length_app. split; [done|lia].
Qed.

Lemma removed_exactly_emit gone n w w' e :
  removed_exactly gone n w w' →
  removed_exactly gone (S n) w
    (World (w_fs w') (w_stdin w') (w_stdout w' ++ [e]) (w_io w')).
Proof.
  intros (F & I & O & ev & E & L). split; [done|]. split; [done|]. split; [done|].
  exists (ev ++ [e]). cbn. rewrite E, app_assoc, length_app. cbn. split; [done|lia].
Qed.

Lemma removable_ext fs fs' p : fs' !! p = fs !! p → removable fs' p = removable fs p.
Proof. unfold removable. by intros ->. Qed.

Lemma tally_ext dryRun fs fs' l c :
  (∀ x, x ∈ l → fs' !! x = fs !! x) → tally dryRun fs' l c = tally dryRun fs l c.
Proof.
  intros H. unfold tally, disposed, refused. destruct dryRun.
  - by rewrite (size_sum_ext fs fs' l).
  - rewrite (List_filter_ext_elem (removable fs') (removable fs) l)
      by (intros; by apply removable_ext, H).
    rewrite (List_filter_ext_elem (λ p, negb (removable fs' p))
               (λ p, negb (removable fs p)) l)
      by (intros; f_equal; by apply removable_ext, H).
    rewrite (size_sum_ext fs fs'); [done|].
    intros x Hx%list_elem_of_In%filter_In. apply H, list_elem_of_In, Hx.
Qed.

Lemma tally_nil dryRun fs c : actualSpaceSaved c < 2 ^ 64 → tally dryRun fs [] c = c.
Proof.
  intros Hc. unfold tally, disposed, refused. destruct c, dryRun; cbn in *;
    rewrite ?Z.add_0_r, ?N.add_0_r; unfold wrap64; by rewrite N.mod_small.
Qed.

Lemma tally_cons_disposed dryRun fs p f l c :
  fs !! p = Some f → dryRun = true ∨ can_remove f = true →
  tally dryRun fs (p :: l) c
  = tally dryRun fs l (Counters (successfullyDeleted c + 1) (failedToDelete c)
                         (wrap64 (actualSpaceSaved c + file_len f))).
Proof.
  intros Hf Hok. unfold tally, disposed, refused.
  assert (dryRun = false → removable fs p = true) as Hrem.
  { intros ->. destruct Hok as [?|Hok]; [done|]. unfold removable. by rewrite Hf. }
  destruct dryRun; cbn [List.filter]; rewrite ?Hrem by done; cbn [negb];
    unfold size_sum; cbn [map fold_right length successfullyDeleted failedToDelete
                           actualSpaceSaved];
    rewrite Hf; cbn [from_option]; rewrite wrap64_add_l; f_equal; try lia;
    f_equal; lia.
Qed.

Lemma tally_cons_refused fs p f l c :
  fs !! p = Some f → can_remove f = false →
  tally false fs (p :: l) c
  = tally false fs l (Counters (successfullyDeleted c) (failedToDelete c + 1)
                        (actualSpaceSaved c)).
Proof.
  intros Hf Hno. unfold tally, disposed, refused.
  assert (removable fs p = false) as Hrem by (unfold removable; by rewrite Hf).
  cbn [List.filter]. rewrite Hrem. cbn [negb length successfullyDeleted failedToDelete
                                        actualSpaceSaved].
  f_equal. lia.
Qed.

Lemma fs_remove_ok p f w :
  w_fs w !! p = Some f → can_remove f = true →
  fs_remove p w = (Ret true, World (delete p (w_fs w)) (w_stdin w) (w_stdout w) (w_io w)).
Proof. intros Hf Hok. unfold fs_remove, bind, get_fs, put_fs. by rewrite Hf, Hok. Qed.

Lemma fs_remove_refused p f w :
  w_fs w !! p = Some f → can_remove f = false →
  fs_remove p w = (Raise (filesystem_error p), w).
Proof. intros Hf Hno. unfold fs_remove, bind, get_fs. by rewrite Hf, Hno. Qed.

Lemma removed_exactly_delete p w :
  removed_exactly [p] 0 w (World (delete p (w_fs w)) (w_stdin w) (w_stdout w) (w_io w)).
Proof.
  split; [|split; [done|split; [done|]]].
  - intros q. cbn. destruct (decide (q = p)) as [->|Hne].
    + rewrite bool_decide_eq_true_2 by by left. apply lookup_delete_eq.
    + rewrite bool_decide_eq_false_2 by by intros ?%list_elem_of_singleton.
      by apply lookup_delete_ne.
  - exists []. by rewrite app_nil_r.
Qed.

Lemma delete_members_effect dryRun group keepSet : ∀ i c w,
  Forall (λ p, is_Some (w_fs w !! p)) (doomed_members group keepSet i) →
  NoDup (doomed_members group keepSet i) →
  actualSpaceSaved c < 2 ^ 64 →
  ∃ w',
    delete_members dryRun group keepSet i c w
    = (Ret (tally dryRun (w_fs w) (doomed_members group keepSet i) c), w')
    ∧ removed_exactly (if dryRun then []
                       else List.filter (removable (w_fs w))
                              (doomed_members group keepSet i))
        (length (doomed_members group keepSet i)) w w'.
Proof.
  induction group as [|p rest IH]; intros i c w Hexist Hnd Hc;
    cbn [delete_members doomed_members] in *.
  { exists w. rewrite tally_nil by done. split; [done|].
    destruct dryRun; apply removed_exactly_refl. }
  destruct (bool_decide ((i + 1)%nat ∈ keepSet)); [by apply IH|].
  apply Forall_cons in Hexist as [[f Hf] Hexist]. apply NoDup_cons in Hnd as [Hp Hnd].
  unfold bind at 1. rewrite (getFileSize_run _ _ _ Hf).
  unfold bind at 1, try_catch, bind at 1.
  destruct dryRun; cbn [negb].
  - (* a simulated deletion *)
    unfold emit at 1, mret at 1.
    set (w1 := World _ _ _ _).
    destruct (IH (S i) (Counters (successfullyDeleted c + 1) (failedToDelete c)
                          (wrap64 (actualSpaceSaved c + file_len f))) w1)
      as (w' & -> & Hrem); [done|done|by apply N.mod_upper_bound|].
    exists w'. split.
    + by rewrite (tally_cons_disposed true _ p f) by auto.
    + apply (removed_exactly_trans [] [] 1 _ w w1 w'); [|done].
      apply (removed_exactly_emit [] 0 w w), removed_exactly_refl.
  - destruct (can_remove f) eqn:Hcan.
    + (* the file is removed *)
      unfold bind at 1. rewrite (fs_remove_ok _ _ _ Hf Hcan).
      unfold emit at 1, mret at 1. cbn [w_fs w_stdin w_stdout w_io].
      set (w1 := World _ _ _ _).
      assert (∀ x, x ∈ doomed_members rest keepSet (S i) →
                   w_fs w1 !! x = w_fs w !! x) as Hsame.
      { intros x Hx. cbn. apply lookup_delete_ne. by intros ->. }
      destruct (IH (S i) (Counters (successfullyDeleted c + 1) (failedToDelete c)
                            (wrap64 (actualSpaceSaved c + file_len f))) w1)
        as (w' & -> & Hrem); [|done|by apply N.mod_upper_bound|].
      { apply Forall_forall. intros x Hx. rewrite Hsame by done.
        rewrite Forall_forall in Hexist. by apply Hexist. }
      exists w'. split.
      * rewrite (tally_ext false (w_fs w) (w_fs w1)) by done.
        by rewrite (tally_cons_disposed false _ p f) by auto.
      * assert (List.filter (removable (w_fs w)) (p :: doomed_members rest keepSet (S i))
                = [p] ++ List.filter (removable (w_fs w1))
                           (doomed_members rest keepSet (S i))) as ->.
        { cbn [List.filter]. unfold removable at 1. rewrite Hf, Hcan. cbn. f_equal.
          apply List_filter_ext_elem. intros x Hx. symmetry.
          by apply removable_ext, Hsame. }
        apply (removed_exactly_trans [p] _ 1 _ w w1 w'); [|done].
        apply (removed_exactly_emit [p] 0 w
                 (World (delete p (w_fs w)) (w_stdin w) (w_stdout w) (w_io w))),
          removed_exactly_delete.
    + (* the system refuses *)
      unfold bind at 1. rewrite (fs_remove_refused _ _ _ Hf Hcan).
      unfold bind at 1, emit at 1, mret at 1.
      set (w1 := World _ _ _ _).
      destruct (IH (S i) (Counters (successfullyDeleted c) (failedToDelete c + 1)
                            (actualSpaceSaved c)) w1)
        as (w' & -> & Hrem); [done|done|done|].
      exists w'. split.
      * by rewrite (tally_cons_refused _ p f).
      * assert (List.filter (removable (w_fs w)) (p :: doomed_members rest keepSet (S i))
                = [] ++ List.filter (removable (w_fs w1))
                          (doomed_members rest keepSet (S i))) as ->.
        { cbn [List.filter]. unfold removable at 1. by rewrite Hf, Hcan. }
        apply (removed_exactly_trans [] _ 1 _ w w1 w'); [|done].
        apply (removed_exactly_emit [] 0 w w), removed_exactly_refl.
Qed.

Lemma tally_app dryRun fs l1 l2 c :
  tally dryRun fs (l1 ++ l2) c = tally dryRun fs l2 (tally dryRun fs l1 c).
Proof.
  unfold tally, disposed, refused. cbn [successfullyDeleted failedToDelete
                                        actualSpaceSaved].
  destruct dryRun.
  - rewrite length_app, size_sum_app, wrap64_add_l. f_equal; try (cbn; lia).
    f_equal. lia.
  - rewrite !List.filter_app, !length_app, size_sum_app, wrap64_add_l.
    f_equal; try lia. f_equal. lia.
Qed.

Lemma tally_bound dryRun fs l c : actualSpaceSaved (tally dryRun fs l c) < 2 ^ 64.
Proof. cbn. by apply N.mod_upper_bound. Qed.

Lemma delete_groups_effect dryRun duplicateGroups keepFiles : ∀ groupIndex c w,
  (groupIndex + length duplicateGroups ≤ length keepFiles)%nat →
  Forall (λ p, is_Some (w_fs w !! p)) (doomed duplicateGroups keepFiles groupIndex) →
  NoDup (doomed duplicateGroups keepFiles groupIndex) →
  actualSpaceSaved c < 2 ^ 64 →
  ∃ w',
    delete_groups dryRun duplicateGroups keepFiles groupIndex c w
    = (Ret (tally dryRun (w_fs w) (doomed duplicateGroups keepFiles groupIndex) c), w')
    ∧ removed_exactly (if dryRun then []
                       else List.filter (removable (w_fs w))
                              (doomed duplicateGroups keepFiles groupIndex))
        (length (doomed duplicateGroups keepFiles groupIndex)) w w'.
Proof.
  induction duplicateGroups as [|group rest IH]; intros groupIndex c w Hlen Hexist Hnd Hc;
    cbn [delete_groups doomed] in *.
  { exists w. rewrite tally_nil by done. split; [done|].
    destruct dryRun; apply removed_exactly_refl. }
  cbn [length] in Hlen.
  destruct (lookup_lt_is_Some_2 keepFiles groupIndex) as [keepSet Hkeep]; [lia|].
  rewrite Hkeep in *.
  apply Forall_app in Hexist as [Hexist1 Hexist2].
  apply NoDup_app in Hnd as (Hnd1 & Hdisjoint & Hnd2).
  unfold bind at 1.
  destruct (delete_members_effect dryRun group keepSet 0 c w Hexist1 Hnd1 Hc)
    as (w1 & -> & Hrem1).
  assert (∀ x, x ∈ doomed rest keepFiles (S groupIndex) → w_fs w1 !! x = w_fs w !! x)
    as Hsame.
  { intros x Hx. destruct Hrem1 as [Hfs _]. rewrite Hfs.
    rewrite bool_decide_eq_false_2; [done|]. intros Hgone.
    apply (Hdisjoint x); [|done].
    destruct dryRun; [by apply elem_of_nil in Hgone|].
    by apply list_elem_of_In, filter_In, proj1, list_elem_of_In in Hgone. }
  destruct (IH (S groupIndex)
              (tally dryRun (w_fs w) (doomed_members group keepSet 0) c) w1)
    as (w' & -> & Hrem2); [lia| |done|apply tally_bound|].
  { apply Forall_forall. intros x Hx. rewrite Hsame by done.
    rewrite Forall_forall in Hexist2. by apply Hexist2. }
  exists w'. split.
  - by rewrite (tally_ext dryRun (w_fs w) (w_fs w1)), tally_app.
  - rewrite length_app.
    assert ((if dryRun then []
             else List.filter (removable (w_fs w))
                    (doomed_members group keepSet 0
                     ++ doomed rest keepFiles (S groupIndex)))
            = (if dryRun then []
               else List.filter (removable (w_fs w)) (doomed_members group keepSet 0))
              ++ (if dryRun then []
                  else List.filter (removable (w_fs w1))
                         (doomed rest keepFiles (S groupIndex)))) as ->.
    { destruct dryRun; [done|]. rewrite List.filter_app. f_equal.
      apply List_filter_ext_elem. intros x Hx. symmetry. by apply removable_ext, Hsame. }
    by eapply removed_exactly_trans.
Qed.

(** X17: what the deleter does when every file it is to delete exists and
    the plan names no file twice.  It returns; it tries the doomed files in
    the order of the plan; in a live run exactly those whose removal the
    system allows are gone and every other path holds what it held, in a
    dry run no path changes; a refused removal is counted and does not stop
    the run; one line is printed per doomed file, then the report: the
    number of files disposed of, the number of refusals and the sum of the
    sizes of the files disposed of in 64 bits, then the dry-run notice in a
    dry run. *)
Theorem performDeletion_effect dryRun duplicateGroups keepFiles w :
  (length duplicateGroups ≤ length keepFiles)%nat →
  Forall (λ p, is_Some (w_fs w !! p)) (doomed duplicateGroups keepFiles 0) →
  NoDup (doomed duplicateGroups keepFiles 0) →
  ∃ w' events,
    performDeletionWithCustomRetention dryRun duplicateGroups keepFiles w = (Ret tt, w')
    ∧ (∀ q, w_fs w' !! q
            = if bool_decide (dryRun = false
                              ∧ q ∈ doomed duplicateGroups keepFiles 0
                              ∧ removable (w_fs w) q = true)
              then None else w_fs w !! q)
    ∧ w_stdin w' = w_stdin w ∧ w_io w' = w_io w
    ∧ length events = length (doomed duplicateGroups keepFiles 0)
    ∧ w_stdout w'
      = w_stdout w ++ events
        ++ [OutReport
              (Z.of_nat (length (disposed dryRun (w_fs w)
                                   (doomed duplicateGroups keepFiles 0))))
              (Z.of_nat (length (refused dryRun (w_fs w)
                                   (doomed duplicateGroups keepFiles 0))))
              (wrap64 (size_sum (w_fs w)
                         (disposed dryRun (w_fs w)
                            (doomed duplicateGroups keepFiles 0))))]
        ++ (if dryRun then [OutDryRunNotice] else []).
Proof.
  intros Hlen Hexist Hnd. unfold performDeletionWithCustomRetention, bind at 1.
  destruct (delete_groups_effect dryRun duplicateGroups keepFiles 0 (Counters 0 0 0) w)
    as (w1 & -> & Hfs & Hin & Hio & events & Hout & Hevents); [done..|].
  unfold deletion_report, bind, emit.
  destruct dryRun; cbn; eexists _, events; (split; [done|]); cbn;
    rewrite N.add_0_l, Hout, <- ?app_assoc;
    (split; [|split; [done|split; [done|split; [done|done]]]]);
    intros q; rewrite Hfs.
  - rewrite !bool_decide_eq_false_2; [done|by intros [? _]|by intros ?%elem_of_nil].
  - apply (f_equal (λ b : bool, if b then None else w_fs w !! q)).
    apply bool_decide_ext. rewrite list_elem_of_In, filter_In, <- list_elem_of_In.
    tauto.
Qed.

Lemma performDeletion_effect_witness :
  ∃ w' events,
    performDeletionWithCustomRetention false [[sample_a; sample_b]] [{[ 1%nat ]}]
      world_pair = (Ret tt, w')
    ∧ (∀ q, w_fs w' !! q
            = if bool_decide (false = false
                              ∧ q ∈ doomed [[sample_a; sample_b]] [{[ 1%nat ]}] 0
                              ∧ removable (w_fs world_pair) q = true)
              then None else w_fs world_pair !! q)
    ∧ w_stdin w' = w_stdin world_pair ∧ w_io w' = w_io world_pair
    ∧ length events = length (doomed [[sample_a; sample_b]] [{[ 1%nat ]}] 0)
    ∧ w_stdout w'
      = w_stdout world_pair ++ events
        ++ [OutReport
              (Z.of_nat (length (disposed false (w_fs world_pair)
                                   (doomed [[sample_a; sample_b]] [{[ 1%nat ]}] 0))))
              (Z.of_nat (length (refused false (w_fs world_pair)
                                   (doomed [[sample_a; sample_b]] [{[ 1%nat ]}] 0))))
              (wrap64 (size_sum (w_fs world_pair)
                         (disposed false (w_fs world_pair)
                            (doomed [[sample_a; sample_b]] [{[ 1%nat ]}] 0))))]
        ++ [].
Proof.
  apply (performDeletion_effect false [[sample_a; sample_b]] [{[ 1%nat ]}] world_pair).
  - cbn. lia.
  - vm_compute. repeat constructor. by eexists.
  - vm_compute. repeat constructor. by intros ?%elem_of_nil.
Defined.

Lemma shrinks_is_Some w w' p :
  shrinks w w' → is_Some (w_fs w' !! p) → is_Some (w_fs w !! p).
Proof. intros H [f Hf]. destruct (H p) as [E|E]; [|congruence]. rewrite <- E. eauto. Qed.

Lemma delete_members_outcome dryRun group keepSet : ∀ i c w,
  ∃ r w',
    delete_members dryRun group keepSet i c w = (r, w')
    ∧ shrinks w w' ∧ printed deletion_line w w'
    ∧ deleter_outcome (doomed_members group keepSet i) w r w'.
Proof.
  induction group as [|p rest IH]; intros i c w; cbn [delete_members doomed_members].
  { exists (Ret c), w. split; [done|]. split; [reflexivity|]. split; [reflexivity|].
    constructor. }
  destruct (bool_decide ((i + 1)%nat ∈ keepSet)); [by apply IH|].
  unfold bind at 1.
  destruct (w_fs w !! p) as [f|] eqn:Hf.
  2:{ rewrite (getFileSize_missing _ _ Hf).
      eexists _, w. split; [done|]. split; [reflexivity|]. split; [reflexivity|].
      exists p. split; [done|]. split; [by left|done]. }
  rewrite (getFileSize_run _ _ _ Hf).
  assert (∃ c1 w1,
            try_catch
              ((if negb dryRun then
                  fs_remove p;; emit (OutDeleted (i + 1) (filename p))
                else emit (OutSimulated (i + 1) (filename p)));;
               mret (Counters (successfullyDeleted c + 1) (failedToDelete c)
                              (wrap64 (actualSpaceSaved c + file_len f))))
              (λ e, emit (ErrDeleteFailed (i + 1) p);;
                    mret (Counters (successfullyDeleted c) (failedToDelete c + 1)
                                   (actualSpaceSaved c))) w = (Ret c1, w1)
            ∧ shrinks w w1 ∧ printed deletion_line w w1) as (c1 & w1 & Hstep & Hs1 & Hp1).
  { unfold try_catch, bind at 1. destruct dryRun; cbn [negb].
    - eexists _, _. split; [done|]. split; [intros q; by left|].
      exists [OutSimulated (i + 1) (filename p)]. split; [done|]. by repeat constructor.
    - unfold bind at 1. destruct (can_remove f) eqn:Hcan.
      + rewrite (fs_remove_ok _ _ _ Hf Hcan).
        eexists _, _. split; [done|]. split.
        * intros q. cbn. destruct (decide (q = p)) as [->|Hne].
          -- right. apply lookup_delete_eq.
          -- left. by apply lookup_delete_ne.
        * exists [OutDeleted (i + 1) (filename p)]. split; [done|]. by repeat constructor.
      + rewrite (fs_remove_refused _ _ _ Hf Hcan).
        eexists _, _. split; [done|]. split; [intros q; by left|].
        exists [ErrDeleteFailed (i + 1) p]. split; [done|]. by repeat constructor. }
  unfold bind at 1. rewrite Hstep.
  destruct (IH (S i) c1 w1) as (r & w' & -> & Hs & Hp & Hout).
  exists r, w'. split; [done|]. split; [by etrans|]. split; [by etrans|].
  destruct r as [c'|e| |]; cbn in *; [| |done..].
  - constructor; [by eexists|].
    eapply Forall_impl; [exact Hout|]. intros q. by apply shrinks_is_Some.
  - destruct Hout as (q & -> & Hq & Hnone). exists q. split; [done|].
    split; [by right|done].
Qed.

Lemma delete_groups_outcome dryRun duplicateGroups keepFiles : ∀ groupIndex c w,
  (groupIndex + length duplicateGroups ≤ length keepFiles)%nat →
  ∃ r w',
    delete_groups dryRun duplicateGroups keepFiles groupIndex c w = (r, w')
    ∧ shrinks w w' ∧ printed deletion_line w w'
    ∧ deleter_outcome (doomed duplicateGroups keepFiles groupIndex) w r w'.
Proof.
  induction duplicateGroups as [|group rest IH]; intros groupIndex c w Hlen;
    cbn [delete_groups doomed].
  { exists (Ret c), w. split; [done|]. split; [reflexivity|]. split; [reflexivity|].
    constructor. }
  cbn [length] in Hlen.
  destruct (lookup_lt_is_Some_2 keepFiles groupIndex) as [keepSet Hkeep]; [lia|].
  rewrite Hkeep. unfold bind at 1.
  destruct (delete_members_outcome dryRun group keepSet 0 c w)
    as (r1 & w1 & -> & Hs1 & Hp1 & Hout1).
  destruct r1 as [c1|e| |]; cbn in Hout1; [| |done..].
  - destruct (IH (S groupIndex) c1 w1) as (r & w' & -> & Hs & Hp & Hout); [lia|].
    exists r, w'. split; [done|]. split; [by etrans|]. split; [by etrans|].
    destruct r as [c'|e| |]; cbn in *; [| |done..].
    + apply Forall_app. split; [done|].
      eapply Forall_impl; [exact Hout|]. intros q. by apply shrinks_is_Some.
    + destruct Hout as (q & -> & Hq & Hnone). exists q. split; [done|].
      split; [apply elem_of_app; by right|done].
  - exists (Raise e), w1. split; [done|]. split; [done|]. split; [done|].
    destruct Hout1 as (q & -> & Hq & Hnone). exists q. split; [done|].
    split; [apply elem_of_app; by left|done].
Qed.

(** X18: a doomed file that is not there stops the deleter.  Its size is
    read outside the [try] block, so the exception of [fs::file_size]
    leaves [performDeletionWithCustomRetention]: the files before it have
    been dealt with, the remaining ones are not tried, and no report is
    printed. *)
Theorem deleter_stops_at_missing_file dryRun duplicateGroups keepFiles p w :
  (length duplicateGroups ≤ length keepFiles)%nat →
  p ∈ doomed duplicateGroups keepFiles 0 → w_fs w !! p = None →
  ∃ q w',
    performDeletionWithCustomRetention dryRun duplicateGroups keepFiles w
    = (Raise (filesystem_error q), w')
    ∧ q ∈ doomed duplicateGroups keepFiles 0 ∧ w_fs w' !! q = None
    ∧ shrinks w w' ∧ printed deletion_line w w'.
Proof.
  intros Hlen Hp Hnone. unfold performDeletionWithCustomRetention, bind at 1.
  destruct (delete_groups_outcome dryRun duplicateGroups keepFiles 0 (Counters 0 0 0) w)
    as (r & w' & -> & Hs & Hpr & Hout); [done|].
  destruct r as [c|e| |]; cbn in Hout; [| |done..].
  - rewrite Forall_forall in Hout. destruct (Hout p Hp) as [f Hf]. congruence.
  - destruct Hout as (q & -> & Hq & Hq'). by exists q, w'.
Qed.

Lemma deleter_stops_at_missing_file_witness :
  ∃ q w',
    performDeletionWithCustomRetention false [[sample_a; sample_b; sample_c]]
      [{[ 1%nat ]}] world_pair
    = (Raise (filesystem_error q), w')
    ∧ q ∈ doomed [[sample_a; sample_b; sample_c]] [{[ 1%nat ]}] 0
    ∧ w_fs w' !! q = None
    ∧ shrinks world_pair w' ∧ printed deletion_line world_pair w'.
Proof.
  apply (deleter_stops_at_missing_file false [[sample_a; sample_b; sample_c]]
           [{[ 1%nat ]}] sample_c world_pair).
  - cbn. lia.
  - vm_compute. right. by left.
  - vm_compute. reflexivity.
Defined.

(** ** The cost of a fingerprint *)

Lemma std_unique_length (l : list N) : (length (std_unique l) ≤ length l)%nat.
Proof.
  induction l as [|x [|y tl] IH]; cbn [std_unique length] in *; [lia..|].
  destruct (x =? y); cbn [length]; lia.
Qed.

Lemma keyPositions_length samplePoints sampleSize size :
  N.of_nat (length (keyPositions samplePoints sampleSize size)) ≤ samplePoints + 2.
Proof.
  unfold keyPositions. rewrite fold_push_back.
  match goal with
  | |- N.of_nat (length (std_unique ?l)) ≤ _ => pose proof (std_unique_length l) as Hle
  end.
  rewrite (Permutation_length (std_sort_perm N.ltb _)) in Hle.
  rewrite !length_app, length_map in Hle.
  unfold sample_indices in *. rewrite length_map, length_seq in Hle.
  cbn [length] in Hle. lia.
Qed.

Lemma generateFileSignature_io samplePoints sampleSize filepath f w :
  w_fs w !! filepath = Some f →
  can_open f = true → 2 * sampleSize < file_len f →
  file_len f * (samplePoints + 1) < 2 ^ 64 →
  (generateFileSignature samplePoints sampleSize filepath w).2
  = add_reads w
      (EvOpen filepath
       :: map (λ q, EvRead filepath (N.min sampleSize (file_len f - q)))
            (keyPositions samplePoints sampleSize (file_len f))).
Proof.
  intros Hf Hopen Hbig Hno.
  assert (samplePoints + 1 < 2 ^ 64) as Hsp by nia.
  assert (file_len f < 2 ^ 64) as Hlen by nia.
  unfold generateFileSignature, bind at 1.
  rewrite (getFileSize_run _ _ _ Hf).
  unfold wrap64 at 1. rewrite N.mod_small by lia.
  destruct (N.leb_spec (file_len f) (sampleSize * 2)); [lia|].
  unfold bind at 1. rewrite (ifstream_open_run _ _ _ Hf), Hopen.
  unfold wrap64. rewrite N.mod_small by done.
  destruct (N.eqb_spec (samplePoints + 1) 0); [lia|].
  destruct (N.ltb_spec vector_max_size sampleSize) as [Hmax|_].
  { unfold vector_max_size in Hmax. lia. }
  unfold file_len in *.
  rewrite (sample_loop_run sampleSize filepath (content f)); [|done|done|done|].
  - cbn [snd]. by rewrite add_reads_app.
  - apply Forall_forall. intros q Hq.
    eapply keyPositions_bound; [| |exact Hq]; [done|lia].
Qed.

(** X19: the fingerprint of a large file is cheap.  For a file of more
    than [2·sampleSize] bytes that can be opened, [generateFileSignature]
    opens the file once and then makes at most [samplePoints + 2] reads of
    at most [sampleSize] bytes each, all of them on that file, so that it
    reads at most [(samplePoints + 2)·sampleSize] bytes whatever the size
    of the file.  The sizes are in the range where
    [N·(samplePoints+1)] does not wrap in 64 bits. *)
Theorem generateFileSignature_sparse samplePoints sampleSize filepath f w :
  w_fs w !! filepath = Some f →
  can_open f = true → 2 * sampleSize < file_len f →
  file_len f * (samplePoints + 1) < 2 ^ 64 →
  ∃ reads,
    (generateFileSignature samplePoints sampleSize filepath w).2
    = add_reads w (EvOpen filepath :: reads)
    ∧ N.of_nat (length reads) ≤ samplePoints + 2
    ∧ Forall (λ e, ∃ n, e = EvRead filepath n ∧ n ≤ sampleSize) reads
    ∧ fold_right N.add 0 (map bytes_read reads) ≤ (samplePoints + 2) * sampleSize.
Proof.
  intros Hf Hopen Hbig Hno.
  rewrite (generateFileSignature_io _ _ _ f) by done.
  eexists. split; [done|].
  pose proof (keyPositions_length samplePoints sampleSize (file_len f)) as Hlen.
  revert Hlen. generalize (keyPositions samplePoints sampleSize (file_len f)).
  intros positions Hlen. rewrite length_map. split; [done|]. split.
  - apply Forall_forall. intros e (q & <- & _)%list_elem_of_In%in_map_iff.
    eexists. split; [done|]. lia.
  - etrans; [|apply N.mul_le_mono_r, Hlen].
    clear. induction positions as [|q positions IH]; cbn [map fold_right length bytes_read];
      [lia|]. lia.
Qed.

Lemma generateFileSignature_sparse_witness :
  ∃ reads,
    (generateFileSignature 1 1 sample_a world_five).2
    = add_reads world_five (EvOpen sample_a :: reads)
    ∧ N.of_nat (length reads) ≤ 1 + 2
    ∧ Forall (λ e, ∃ n, e = EvRead sample_a n ∧ n ≤ 1) reads
    ∧ fold_right N.add 0 (map bytes_read reads) ≤ (1 + 2) * 1.
Proof.
  apply (generateFileSignature_sparse 1 1 sample_a five_bytes world_five);
    vm_compute; reflexivity.
Defined.

(** X20: the fingerprint is a function of the bytes alone: two files with
    the same bytes that can be fingerprinted get the same fingerprint,
    whatever their names, times and places and whatever was read before.
    The sample settings are in the range where [2·sampleSize] and
    [samplePoints + 1] do not wrap. *)
Theorem generateFileSignature_same_bytes samplePoints sampleSize
    file1 file2 f1 f2 w1 w2 :
  sampleSize * 2 < 2 ^ 64 → samplePoints + 1 < 2 ^ 64 →
  w_fs w1 !! file1 = Some f1 → w_fs w2 !! file2 = Some f2 →
  content f1 = content f2 →
  signable samplePoints sampleSize f1 → signable samplePoints sampleSize f2 →
  ∃ signature,
    (generateFileSignature samplePoints sampleSize file1 w1).1 = Ret signature
    ∧ (generateFileSignature samplePoints sampleSize file2 w2).1 = Ret signature.
Proof.
  intros Hss Hsp Hf1 Hf2 Hc Hs1 Hs2.
  destruct (generateFileSignature_run samplePoints sampleSize file1 f1 w1)
    as (w1' & ->); [done..|].
  destruct (generateFileSignature_run samplePoints sampleSize file2 f2 w2)
    as (w2' & ->); [done..|].
  exists (fingerprint samplePoints sampleSize (content f1)). by rewrite Hc.
Qed.

Lemma generateFileSignature_same_bytes_witness :
  ∃ signature,
    (generateFileSignature 1 1 sample_a world_pair).1 = Ret signature
    ∧ (generateFileSignature 1 1 sample_b world_pair).1 = Ret signature.
Proof.
  apply (generateFileSignature_same_bytes 1 1 sample_a sample_b five_bytes five_bytes
           world_pair world_pair).
  - reflexivity.
  - reflexivity.
  - vm_compute. reflexivity.
  - vm_compute. reflexivity.
  - reflexivity.
  - right. split; [reflexivity|vm_compute; reflexivity].
  - right. split; [reflexivity|vm_compute; reflexivity].
Defined.

(** ** Commands of the retention loop *)




Lemma selection_loop_valid selection members : ∀ newKeepSet w,
  valid_selection members selection = true →
  selection_loop selection members newKeepSet w
  = (Ret (selected selection ∪ newKeepSet, true), w).
Proof.
  induction selection as [|c rest IH]; intros newKeepSet w Hvalid;
    cbn [selection_loop valid_selection selected] in *.
  { by rewrite (left_id_L ∅ (∪)). }
  apply andb_true_iff in Hvalid as [Hdigit Hvalid].
  pose proof Hdigit as Hrange. unfold valid_digit in Hrange.
  rewrite valid_digit_code in Hdigit.
  apply andb_true_iff in Hdigit as [->%negb_true_iff ->%negb_true_iff].
  rewrite IH by done. do 2 f_equal. f_equal.
  rewrite (assoc_L (∪)), (comm_L (∪) (selected rest)). do 2 f_equal.
  change (N_of_ascii "0") with 48 in *. change (N_of_ascii "1") with 49 in *.
  apply andb_true_iff in Hrange as [[?%N.leb_le _]%andb_true_iff _]. f_equal. lia.
Qed.

Lemma for_each_show_ok group : ∀ i w,
  Forall (λ p, is_Some (w_fs w !! p)) group →
  for_each group i (λ _ p, show_member p) w = (Ret tt, w).
Proof.
  induction group as [|p rest IH]; intros i w Hall; cbn [for_each]; [done|].
  apply Forall_cons in Hall as [[f Hf] Hall].
  unfold bind at 1, show_member, bind at 1.
  rewrite (getFileSize_run _ _ _ Hf). unfold bind at 1.
  rewrite (last_write_time_run _ _ _ Hf). unfold mret at 1. by apply IH.
Qed.

(** X22: an accepted selection replaces the keep set of its group.  When
    the line is the number [n] of a group whose members all exist, and the
    next line is a non-empty row of digits from ['1'] to ['9'] none of
    which exceeds the size of the group, the keep set of group [n] becomes
    exactly the set of the file numbers named, the keep sets of the other
    groups stay, both lines are consumed, no file changes and the loop goes
    on; what the group kept before does not matter. *)
Theorem selection_replaces_keep_set duplicateGroups keepFiles fs input selection rest
    out io n group current :
  selects_group input → is_number input n →
  (1 ≤ n ≤ Z.of_nat (length duplicateGroups))%Z →
  duplicateGroups !! Z.to_nat (n - 1) = Some group →
  keepFiles !! Z.to_nat (n - 1) = Some current →
  Forall (λ p, is_Some (fs !! p)) group →
  selection ≠ "" → valid_selection (length group) selection = true →
  retention_iteration duplicateGroups keepFiles
    (World fs (input :: selection :: rest) out io)
  = (Ret (Continue, <[Z.to_nat (n - 1) := selected selection]> keepFiles),
     World fs rest
       (out ++ [OutShowGroup n; OutCurrentKeep current;
                OutUpdated n (selected selection)]) io).
Proof.
  intros Hgroup Hnum Hrange Hg Hk Hexist Hne Hvalid.
  rewrite retention_iteration_group by done.
  unfold group_command, try_catch, bind at 1.
  rewrite (stoi_number _ _ _ Hnum).
  unfold group_out_of_range.
  destruct (Z.ltb_spec n 1); [lia|].
  destruct (Z.ltb_spec (Z.of_nat (length duplicateGroups)) n); [lia|].
  cbn [orb]. rewrite Hg, Hk.
  unfold bind at 1, displaySingleGroup, bind at 1, emit at 1.
  rewrite for_each_show_ok by done.
  unfold bind at 1, emit at 1. unfold bind at 1, getline. cbn.
  unfold bind at 1. rewrite selection_loop_valid by done.
  rewrite (right_id_L ∅ (∪)).
  assert (selected selection ≠ ∅) as Hsome.
  { destruct selection as [|c tl]; [done|]. cbn. intros E.
    assert (N.to_nat (N_of_ascii c - N_of_ascii "0") ∈ (∅ : gset nat)) as Hin;
      [|by apply not_elem_of_empty in Hin].
    rewrite <- E. apply elem_of_union. left. by apply elem_of_singleton. }
  rewrite bool_decide_eq_false_2 by done. cbn.
  by rewrite <- !app_assoc.
Qed.

Lemma selection_replaces_keep_set_witness :
  retention_iteration [[sample_a; sample_b]] [{[ 1%nat ]}]
    (World (w_fs world_pair) ["1"; "22"; "done"] [] [])
  = (Ret (Continue, <[Z.to_nat (1 - 1) := selected "22"]> [{[ 1%nat ]}]),
     World (w_fs world_pair) ["done"]
       ([] ++ [OutShowGroup 1; OutCurrentKeep {[ 1%nat ]};
               OutUpdated 1 (selected "22")]) []).
Proof.
  apply (selection_replaces_keep_set [[sample_a; sample_b]] [{[ 1%nat ]}]
           (w_fs world_pair) "1" "22" ["done"] [] [] 1 [sample_a; sample_b]
           {[ 1%nat ]}).
  - split; [done|]. split; [|reflexivity]. vm_compute.
    intros H. repeat (apply elem_of_cons in H as [H|H]; [discriminate H|]).
    by apply elem_of_nil in H.
  - split; [reflexivity|]. vm_compute. split; discriminate.
  - cbn. lia.
  - reflexivity.
  - reflexivity.
  - repeat constructor; eexists; vm_compute; reflexivity.
  - discriminate.
  - reflexivity.
Defined.

(** ** Which files the scan opens *)

#[global] Instance touches_preorder S : PreOrder (touches S).
Proof.
  split.
  - intros w. exists []. by rewrite app_nil_r.
  - intros w1 w2 w3 (e1 & E1 & F1) (e2 & E2 & F2). exists (e1 ++ e2).
    rewrite E2, E1, app_assoc. split; [done|]. by apply Forall_app.
Qed.

Lemma touches_mono (S S' : path → Prop) w w' :
  (∀ p, S p → S' p) → touches S w w' → touches S' w w'.
Proof.
  intros HS (events & E & F). exists events. split; [done|].
  eapply Forall_impl; [exact F|]. intros e. apply HS.
Qed.

Lemma touches_add_reads S w reads :
  Forall (λ e, S (path_of e)) reads → touches S w (add_reads w reads).
Proof. intros F. by exists reads. Qed.

Lemma touches_quiet_io S {A} (m : M A) :
  (∀ w r w', m w = (r, w') → w_io w' = w_io w) → respects (touches S) m.
Proof.
  intros H w r w' E. exists []. rewrite app_nil_r. split; [by eapply H|constructor].
Qed.

Lemma touches_emit S e : respects (touches S) (emit e).
Proof. apply touches_quiet_io. intros w r w' E. by inversion E. Qed.

Lemma touches_getFileSize S p : respects (touches S) (getFileSize p).
Proof. apply respects_getFileSize, _. Qed.

Lemma touches_sample_loop S sampleSize size filepath positions :
  S filepath →
  ∀ file signature, s_path file = filepath →
    respects (touches S) (sample_loop sampleSize size filepath file positions signature).
Proof.
  intros HS. induction positions as [|q positions IH]; intros file signature Hpath;
    cbn [sample_loop]; [apply respects_mret, _|].
  intros w r w' E. unfold bind at 1 in E.
  unfold stream_read, bind, log_io, mret in E. cbn in E.
  set (w1 := World _ _ _ _) in E.
  assert (touches S w w1) as H1.
  { eexists [_]. split; [done|]. repeat constructor. cbn. by rewrite Hpath. }
  destruct (negb _).
  - injection E as <- <-. done.
  - etrans; [exact H1|]. eapply IH; [|exact E]. done.
Qed.

Lemma touches_generateFileSignature S samplePoints sampleSize filepath :
  S filepath →
  respects (touches S) (generateFileSignature samplePoints sampleSize filepath).
Proof.
  intros HS w r w' E. unfold generateFileSignature, bind at 1 in E.
  destruct (w_fs w !! filepath) as [f|] eqn:Hf.
  2:{ rewrite getFileSize_missing in E by done. injection E as <- <-. reflexivity. }
  rewrite (getFileSize_run _ _ _ Hf) in E.
  destruct (_ <=? _); [injection E as <- <-; reflexivity|].
  unfold bind at 1 in E. rewrite (ifstream_open_run _ _ _ Hf) in E.
  assert (touches S w (add_reads w [EvOpen filepath])) as H1.
  { apply touches_add_reads. by repeat constructor. }
  destruct (can_open f); [|injection E as <- <-; done].
  destruct (_ =? 0); [injection E as <- <-; done|].
  destruct (_ <? _); [injection E as <- <-; done|].
  etrans; [exact H1|]. eapply touches_sample_loop; [done| |exact E]. done.
Qed.

Lemma touches_compare_loop S fuel size1 : ∀ f1 f2 totalRead,
  S (s_path f1) → S (s_path f2) →
  respects (touches S) (compare_loop fuel size1 f1 f2 totalRead).
Proof.
  induction fuel as [|fuel IH]; intros f1 f2 totalRead H1 H2; cbn [compare_loop].
  { destruct (_ <? _); [apply respects_out_of_fuel, _|apply respects_mret, _]. }
  destruct (_ <? _); [|apply respects_mret, _].
  destruct f1 as [p1 c1 t1], f2 as [p2 c2 t2]. cbn [s_path] in H1, H2.
  intros w r w' E. unfold bind at 1 in E. rewrite stream_read_run in E.
  unfold bind at 1 in E. rewrite stream_read_run in E.
  set (w1 := add_reads (add_reads w _) _) in E.
  assert (touches S w w1) as Hw1.
  { unfold w1. rewrite add_reads_app. apply touches_add_reads. by repeat constructor. }
  destruct (_ || _); [injection E as <- <-; done|].
  destruct (memcmp_differs _ _); [injection E as <- <-; done|].
  etrans; [exact Hw1|]. eapply IH; [| |exact E]; done.
Qed.

Lemma touches_areFilesIdentical S file1 file2 :
  S file1 → S file2 → respects (touches S) (areFilesIdentical file1 file2).
Proof.
  intros H1 H2 w r w' E. unfold areFilesIdentical, bind at 1 in E.
  destruct (w_fs w !! file1) as [f1|] eqn:Hf1.
  2:{ rewrite getFileSize_missing in E by done. injection E as <- <-. reflexivity. }
  rewrite (getFileSize_run _ _ _ Hf1) in E. unfold bind at 1 in E.
  destruct (w_fs w !! file2) as [f2|] eqn:Hf2.
  2:{ rewrite getFileSize_missing in E by done. injection E as <- <-. reflexivity. }
  rewrite (getFileSize_run _ _ _ Hf2) in E.
  destruct (negb _); [injection E as <- <-; reflexivity|].
  destruct (_ =? 0); [injection E as <- <-; reflexivity|].
  unfold bind at 1 in E. rewrite (ifstream_open_run _ _ _ Hf1) in E.
  unfold bind at 1 in E. rewrite ifstream_open_run with (f := f2) in E by done.
  set (w1 := add_reads (add_reads w _) _) in E.
  assert (touches S w w1) as Hw1.
  { unfold w1. rewrite add_reads_app. apply touches_add_reads. by repeat constructor. }
  destruct (can_open f1), (can_open f2); try (injection E as <- <-; done).
  etrans; [exact Hw1|]. eapply touches_compare_loop; [| |exact E]; done.
Qed.

Lemma touches_exact_inner_loop S candidateGroup i count :
  (∀ x, x ∈ candidateGroup → S x) →
  ∀ j processed duplicateGroup,
    respects (touches S)
      (exact_inner_loop candidateGroup i count j processed duplicateGroup).
Proof.
  intros HS. induction count as [|count IH]; intros j processed duplicateGroup;
    cbn [exact_inner_loop]; [apply respects_mret, _|].
  destruct (processed !! j) as [pj|]; [|apply respects_undefined, _].
  destruct (candidateGroup !! i) as [ci|] eqn:Hi; [|apply respects_undefined, _].
  destruct (candidateGroup !! j) as [cj|] eqn:Hj; [|apply respects_undefined, _].
  destruct pj; [apply IH|].
  apply respects_bind; [apply _| |intros [? ?]; apply IH].
  apply respects_try_catch; [apply _| |].
  - apply respects_bind; [apply _| |].
    + apply touches_areFilesIdentical; apply HS; by eapply list_elem_of_lookup_2.
    + intros same. destruct same; apply respects_mret, _.
  - intros e. apply respects_bind; [apply _|apply touches_emit|].
    intros; apply respects_mret, _.
Qed.

Lemma touches_findExactDuplicates S candidateGroup :
  (∀ x, x ∈ candidateGroup → S x) →
  respects (touches S) (findExactDuplicates candidateGroup).
Proof.
  intros HS. unfold findExactDuplicates.
  generalize (replicate (length candidateGroup) false) (@nil (list path)) 0%nat.
  induction (length candidateGroup) as [|count IH]; intros processed duplicateGroups i;
    cbn [exact_outer_loop]; [apply respects_mret, _|].
  destruct (processed !! i) as [pi|]; [|apply respects_undefined, _].
  destruct (candidateGroup !! i) as [ci|]; [|apply respects_undefined, _].
  destruct pi; [apply IH|].
  apply respects_bind; [apply _|by apply touches_exact_inner_loop|].
  intros [? ?]. apply IH.
Qed.

Lemma touches_signature_files S samplePoints sampleSize files :
  (∀ x, x ∈ files → S x) →
  ∀ signatureGroups,
    respects (touches S) (signature_files samplePoints sampleSize files signatureGroups).
Proof.
  induction files as [|filepath rest IH]; intros HS signatureGroups;
    cbn [signature_files]; [apply respects_mret, _|].
  apply respects_bind; [apply _| |].
  - apply respects_try_catch; [apply _| |intros; apply respects_mret, _].
    apply respects_bind; [apply _| |intros; apply respects_mret, _].
    apply touches_generateFileSignature, HS. by left.
  - intros sg. apply IH. intros x Hx. apply HS. by right.
Qed.

Lemma touches_signature_tier S samplePoints sampleSize sizeGroups :
  (∀ b x, b ∈ sizeGroups → (1 < length b.2)%nat → x ∈ b.2 → S x) →
  ∀ signatureGroups,
    respects (touches S)
      (signature_tier samplePoints sampleSize sizeGroups signatureGroups).
Proof.
  induction sizeGroups as [|[size files] rest IH]; intros HS signatureGroups;
    cbn [signature_tier]; [apply respects_mret, _|].
  apply respects_bind; [apply _| |].
  - destruct (Nat.ltb_spec 1 (length files)); [|apply respects_mret, _].
    apply touches_signature_files. intros x Hx.
    apply (HS (size, files)); [by left|done|done].
  - intros sg. apply IH. intros b x Hb. apply HS. by right.
Qed.

Lemma touches_exact_tier S signatureGroups :
  (∀ x, x ∈ bucket_values signatureGroups → S x) →
  ∀ duplicateGroups,
    respects (touches S) (exact_tier signatureGroups duplicateGroups).
Proof.
  induction signatureGroups as [|[signature files] rest IH]; intros HS duplicateGroups;
    cbn [exact_tier]; [apply respects_mret, _|].
  assert (bucket_values ((signature, files) :: rest) = files ++ bucket_values rest)
    as Hbv by done.
  apply respects_bind; [apply _| |].
  - destruct (1 <? length files)%nat; [|apply respects_mret, _].
    apply respects_bind; [apply _| |intros; apply respects_mret, _].
    apply touches_findExactDuplicates. intros x Hx. apply HS. rewrite Hbv.
    apply elem_of_app. by left.
  - intros dg. apply IH. intros x Hx. apply HS. rewrite Hbv.
    apply elem_of_app. by right.
Qed.

Section keyed_facts.

Context {K : Type} (less : K → K → bool) (key : path → K → Prop).
Hypothesis less_total : ∀ a b, less a b = false → less b a = false → a = b.

Lemma map_push_back_keyed k p (m : list (K * list path)) :
  (∀ b x, b ∈ m → x ∈ b.2 → key x b.1) → key p k →
  ∀ b x, b ∈ map_push_back less k p m → x ∈ b.2 → key x b.1.
Proof.
  intros Hm Hp. induction m as [|[k' ps] m IH]; cbn [map_push_back].
  - intros b x ->%list_elem_of_singleton ->%list_elem_of_singleton. done.
  - destruct (less k k') eqn:E1.
    + intros b x [->|Hb]%elem_of_cons Hx; [|by apply Hm].
      apply list_elem_of_singleton in Hx as ->. done.
    + destruct (less k' k) eqn:E2.
      * intros b x [->|Hb]%elem_of_cons Hx; [apply (Hm (k', ps)); [by left|done]|].
        apply IH; [|done|done]. intros b' x' Hb'. apply Hm. by right.
      * assert (k = k') as <- by by apply less_total.
        intros b x [->|Hb]%elem_of_cons Hx; [|apply Hm; [by right|done]].
        cbn in *. apply elem_of_app in Hx as [Hx|Hx]; [apply (Hm (k, ps)); [by left|done]|].
        by apply list_elem_of_singleton in Hx as ->.
Qed.

End keyed_facts.

Lemma size_tier_keyed fs entries : ∀ sizeGroups files bytes w r w',
  w_fs w = fs → keyed_by_size fs sizeGroups →
  size_tier entries sizeGroups files bytes w = (Ret r, w') →
  keyed_by_size fs r.1.1.
Proof.
  induction entries as [|entry rest IH]; intros sizeGroups files bytes w r w' Hfs Hkey E;
    cbn [size_tier] in E.
  { by injection E as <- <-. }
  unfold bind at 1, try_catch, bind at 1 in E.
  destruct (fs !! entry) as [f|] eqn:Hf.
  - rewrite getFileSize_run with (f := f) in E by congruence. unfold mret at 1 in E.
    eapply IH; [exact Hfs| |exact E].
    intros b x.
    apply (map_push_back_keyed N.ltb
             (λ x k, ∃ fx, fs !! x = Some fx ∧ file_len fx = k) N_ltb_total
             (file_len f) entry sizeGroups); [exact Hkey|by exists f].
  - rewrite getFileSize_missing in E by congruence. unfold mret at 1 in E.
    eapply IH; [exact Hfs|exact Hkey|exact E].
Qed.

Lemma signature_tier_from samplePoints sampleSize sizeGroups :
  ∀ signatureGroups w r w',
    signature_tier samplePoints sampleSize sizeGroups signatureGroups w = (Ret r, w') →
    ∀ x, x ∈ bucket_values r →
      x ∈ bucket_values signatureGroups
      ∨ ∃ b, b ∈ sizeGroups ∧ (1 < length b.2)%nat ∧ x ∈ b.2.
Proof.
  induction sizeGroups as [|[size files] rest IH]; intros signatureGroups w r w' E x Hx;
    cbn [signature_tier] in E.
  { injection E as <- <-. by left. }
  apply bind_inv in E as (r1 & w1 & H1 & E).
  destruct r1 as [sg1| | |]; [|by destruct E..].
  destruct (IH _ _ _ _ E x Hx) as [Hin|(b & Hb & Hlen & Hxb)].
  2:{ right. exists b. split; [by right|done]. }
  destruct (Nat.ltb_spec 1 (length files)) as [Hlen|Hlen].
  - destruct (signature_files_run samplePoints sampleSize (w_fs w) files
                signatureGroups w eq_refl) as (r' & w'' & H1' & _ & Hend).
    rewrite H1' in H1. injection H1 as -> ->. destruct Hend as [Hsub _].
    apply (elem_of_submseteq _ _ _ Hin) in Hsub.
    apply elem_of_app in Hsub as [?|?]; [by left|].
    right. exists (size, files). split; [by left|done].
  - injection H1 as <- <-. by left.
Qed.

Lemma NoDup_other {A} `{EqDecision A} (l : list A) x :
  NoDup l → (1 < length l)%nat → x ∈ l → ∃ y, y ∈ l ∧ y ≠ x.
Proof.
  intros Hnd Hlen Hx. destruct l as [|a [|b l]]; cbn in Hlen; [lia..|].
  apply NoDup_cons in Hnd as [Ha _].
  destruct (decide (x = a)) as [->|Hne].
  - exists b. split; [right; by left|]. intros ->. apply Ha. by left.
  - exists a. split; [by left|done].
Qed.

Lemma NoDup_concat_elem {A} (ls : list (list A)) l :
  NoDup (concat ls) → l ∈ ls → NoDup l.
Proof.
  induction ls as [|l' ls IH]; cbn; [by intros _ ?%elem_of_nil|].
  intros (Hl' & _ & Hls)%NoDup_app [->|Hl]%elem_of_cons; [done|by apply IH].
Qed.

Lemma elem_of_bucket_values {K} (m : list (K * list path)) b x :
  b ∈ m → x ∈ b.2 → x ∈ bucket_values m.
Proof.
  intros Hb Hx. unfold bucket_values. apply list_elem_of_In, in_concat.
  exists b.2. split; [|by apply list_elem_of_In].
  apply in_map. by apply list_elem_of_In.
Qed.

Lemma scan_touches samplePoints sampleSize entries w :
  NoDup entries →
  touches (has_twin (w_fs w) entries) w (scan samplePoints sampleSize entries w).2.
Proof.
  intros Hnd. destruct (scan samplePoints sampleSize entries w) as [r w'] eqn:E.
  cbn [snd]. unfold scan in E.
  apply bind_inv in E as (r0 & w0 & H0 & E).
  destruct (size_tier_run (w_fs w) entries [] 0%Z 0 w eq_refl)
    as (sg & H0' & Hperm & _); [done|].
  rewrite H0' in H0. injection H0 as <- <-.
  assert (keyed_by_size (w_fs w) []) as Hnil by by intros b x ?%elem_of_nil.
  pose proof (size_tier_keyed _ _ _ _ _ _ _ _ eq_refl Hnil H0') as Hkeyed.
  cbn in Hkeyed.
  assert (NoDup (bucket_values sg)) as Hnd'.
  { rewrite Hperm. cbn. unfold existing.
    eapply sublist_NoDup; [exact Hnd|apply List_filter_sublist]. }
  assert (∀ b x, b ∈ sg → (1 < length b.2)%nat → x ∈ b.2 →
                 has_twin (w_fs w) entries x) as Htwin.
  { intros b x Hb Hlen Hx.
    assert (∀ y, y ∈ b.2 → y ∈ entries) as Hentries.
    { intros y Hy. pose proof (elem_of_bucket_values sg b y Hb Hy) as Hin.
      rewrite Hperm in Hin. cbn in Hin.
      by apply list_elem_of_In, filter_In, proj1, list_elem_of_In in Hin. }
    destruct (NoDup_other b.2 x) as (y & Hy & Hne); [|done|done|].
    { apply (NoDup_concat_elem (map snd sg)); [done|].
      apply list_elem_of_In, in_map. by apply list_elem_of_In. }
    destruct (Hkeyed b x Hb Hx) as (f & Hf & Hlf).
    destruct (Hkeyed b y Hb Hy) as (g & Hg & Hlg).
    exists y, f, g. split; [done|]. split; [by apply Hentries|].
    split; [by apply Hentries|]. split; [done|]. split; [done|congruence]. }
  apply bind_inv in E as (r1 & w1 & H1 & E).
  pose proof (touches_signature_tier (has_twin (w_fs w) entries) samplePoints sampleSize
                sg Htwin [] _ _ _ H1) as Ht1.
  destruct r1 as [sig| | |]; [|by destruct E as [_ ->]..].
  apply bind_inv in E as (r2 & w2 & H2 & E).
  assert (touches (has_twin (w_fs w) entries) w1 w2) as Ht2.
  { eapply (touches_exact_tier (has_twin (w_fs w) entries) sig); [|exact H2].
    intros x Hx.
    destruct (signature_tier_from _ _ _ _ _ _ _ H1 x Hx)
      as [?%elem_of_nil|(b & Hb & Hlen & Hxb)]; [done|].
    by apply (Htwin b). }
  destruct r2 as [dg| | |]; [injection E as _ <-|destruct E as [_ ->]..]; by etrans.
Qed.

(** X23: the scan opens a file only when another listed file has the same
    size.  When the listing repeats no path, every file opened or read by
    [findDuplicatesInFolder] or by [findDuplicatesInFolderRecursive] is a
    listed file for which a different listed file of the same size exists;
    a file whose size is unique in the listing is neither fingerprinted
    nor compared. *)
Theorem scan_opens_only_twins samplePoints sampleSize is_directory
    directory_iterator recursive_directory_iterator folder w :
  NoDup (directory_iterator (w_fs w) folder) →
  NoDup (recursive_directory_iterator (w_fs w) folder) →
  touches (has_twin (w_fs w) (directory_iterator (w_fs w) folder)) w
    (findDuplicatesInFolder samplePoints sampleSize is_directory directory_iterator
       folder w).2
  ∧ touches (has_twin (w_fs w) (recursive_directory_iterator (w_fs w) folder)) w
      (findDuplicatesInFolderRecursive samplePoints sampleSize is_directory
         recursive_directory_iterator folder w).2.
Proof.
  intros Hnd Hrnd. unfold findDuplicatesInFolder, findDuplicatesInFolderRecursive.
  destruct (is_directory folder); cbn [negb]; [|split; reflexivity].
  unfold bind, get_fs. split; by apply scan_touches.
Qed.

Lemma scan_opens_only_twins_witness :
  touches (has_twin (w_fs world_pair) (listing_pair (w_fs world_pair) "/data")) world_pair
    (findDuplicatesInFolder 1 1 (λ _, true) listing_pair "/data" world_pair).2
  ∧ touches (has_twin (w_fs world_pair) (listing_pair (w_fs world_pair) "/data"))
      world_pair
      (findDuplicatesInFolderRecursive 1 1 (λ _, true) listing_pair "/data"
         world_pair).2.
Proof.
  apply (scan_opens_only_twins 1 1 (λ _, true) listing_pair listing_pair "/data"
           world_pair).
  - apply NoDup_cons. split; [|apply NoDup_singleton].
    intros H%list_elem_of_singleton. discriminate H.
  - apply NoDup_cons. split; [|apply NoDup_singleton].
    intros H%list_elem_of_singleton. discriminate H.
Defined.

(** ** Leaving the retention loop *)

Ltac continues :=
  repeat first
    [ apply returns_mret; reflexivity
    | apply returns_undefined
    | apply returns_seq
    | eapply returns_bind; [apply returns_any|intros ? _]
    | apply returns_try_catch; [|intros ?]
    | match goal with
      | |- returns (if ?b then _ else _) _ => destruct b
      | |- returns (match ?x with _ => _ end) _ => destruct x
      end ].

Lemma retention_iteration_break duplicateGroups keepFiles w keepFiles' w' :
  retention_iteration duplicateGroups keepFiles w = (Ret (Break, keepFiles'), w') →
  ∃ line rest, w_stdin w = line :: rest ∧ tolower_string line = "done".
Proof.
  intros E. unfold retention_iteration, bind at 1, getline in E.
  destruct (w_stdin w) as [|line rest] eqn:Hin.
  { cbn in E. by injection E. }
  exists line, rest. split; [done|].
  destruct (decide (line = "")); [by injection E|].
  destruct (decide (tolower_string line = "done")); [done|]. exfalso.
  match type of E with
  | ?m _ = _ => assert (returns m (λ r, r.1 = Continue)) as Hcontinue
  end.
  { unfold all_command, view_command, auto_command, group_command. continues. }
  by apply Hcontinue in E.
Qed.

Lemma retention_loop_done duplicateGroups fuel : ∀ keepFiles w keepFiles' w',
  retention_loop fuel duplicateGroups keepFiles w = (Ret keepFiles', w') →
  ¬ no_done (w_stdin w).
Proof.
  induction fuel as [|fuel IH]; intros keepFiles w keepFiles' w' E Hno; [done|].
  cbn [retention_loop] in E.
  apply bind_inv in E as (r1 & w1 & H1 & E).
  destruct r1 as [[ctl keepFiles1]| | |]; [|by destruct E..].
  destruct ctl.
  - destruct (quiet_retention_iteration _ _ _ _ _ H1) as [_ [consumed Hin]].
    apply (IH _ _ _ _ E). intros line Hline. apply Hno. rewrite Hin.
    apply elem_of_app. by right.
  - apply retention_iteration_break in H1 as (line & rest & Hin & Hdone).
    apply (Hno line); [|done]. rewrite Hin. by left.
Qed.

#[global] Instance undone_preorder : PreOrder undone.
Proof.
  split.
  - by intros w.
  - intros w1 w2 w3 H12 H23 Hno. destruct (H12 Hno) as [F12 N12].
    destruct (H23 N12) as [F23 N23]. split; [congruence|done].
Qed.

Lemma quiet_undone w w' : quiet w w' → undone w w'.
Proof.
  intros [Hfs [consumed Hin]] Hno. split; [done|].
  intros line Hline. apply Hno. rewrite Hin. apply elem_of_app. by right.
Qed.

Lemma undone_quiet {A} (m : M A) : respects quiet m → respects undone m.
Proof. apply respects_mono, quiet_undone. Qed.

Lemma undone_plan_then {A} fuel duplicateGroups
    (k : option (list (gset nat)) → M A) :
  respects undone (k None) →
  respects undone (bind (plan_and_confirm true fuel duplicateGroups) k).
Proof.
  intros Hk w r w' Hrun Hno.
  apply bind_inv in Hrun as (r1 & w1 & H1 & Hrun).
  destruct (quiet_undone _ _ (quiet_plan_and_confirm _ _ _ _ _ _ H1) Hno)
    as [Hfs1 Hno1].
  assert (∀ keepFiles, r1 ≠ Ret (Some keepFiles)) as Hnone.
  { intros keepFiles ->. unfold plan_and_confirm in H1.
    apply bind_inv in H1 as (r2 & w2 & H2 & H1).
    destruct (quiet_undone _ _ (quiet_displayDuplicateGroupsWithNumbers _ _ _ _ H2) Hno)
      as [_ Hno2].
    destruct r2 as [[]| | |]; [|by destruct H1..].
    apply bind_inv in H1 as (r3 & w3 & H3 & H1).
    rewrite askForConfirmation_yes in H3. injection H3 as <- <-.
    apply bind_inv in H1 as (r4 & w4 & H4 & H1).
    apply bind_inv in H4 as (r5 & w5 & H5 & H4).
    destruct r5 as [keepFiles5| | |]; [|destruct H4 as [-> _]; by destruct H1..].
    by apply retention_loop_done in H5. }
  destruct r1 as [[keepFiles|]| | |].
  - by destruct (Hnone keepFiles).
  - destruct (Hk _ _ _ Hrun Hno1) as [? ?]. split; [congruence|done].
  - destruct Hrun as [_ ->]. done.
  - destruct Hrun as [_ ->]. done.
  - destruct Hrun as [_ ->]. done.
Qed.

Lemma undone_processSingleFolder dryRun samplePoints sampleSize
    is_directory directory_iterator fuel folder :
  respects undone (processSingleFolder dryRun true samplePoints sampleSize
                     is_directory directory_iterator fuel folder).
Proof.
  unfold processSingleFolder.
  apply respects_bind; [apply _|apply undone_quiet, quiet_findDuplicatesInFolder|].
  intros result. destruct (negb _); [apply respects_mret, _|].
  apply respects_bind; [apply _|apply undone_quiet, quiet_savable|]. intros _.
  destruct (bool_decide _); [apply respects_mret, _|].
  apply undone_plan_then. apply respects_mret, _.
Qed.

Lemma undone_folder_loop dryRun samplePoints sampleSize is_directory
    directory_iterator fuel folders :
  respects undone (folder_loop dryRun true samplePoints sampleSize
                     is_directory directory_iterator fuel folders).
Proof.
  induction folders as [|folder rest IH]; cbn [folder_loop]; [apply respects_mret, _|].
  apply respects_bind; [apply _|apply undone_processSingleFolder|]. intros _.
  destruct (_ && _); [|done].
  apply respects_bind; [apply _|apply undone_quiet, quiet_askForConfirmation|].
  intros continueProcessing. destruct (negb _); [apply respects_mret, _|done].
Qed.

Lemma undone_deduplicate dryRun samplePoints sampleSize mode
    is_directory directory_iterator recursive_directory_iterator recursive_directories
    fuel directory :
  respects undone (deduplicate dryRun true samplePoints sampleSize mode
                     is_directory directory_iterator recursive_directory_iterator
                     recursive_directories fuel directory).
Proof.
  unfold deduplicate.
  destruct (negb _); [apply respects_mret, _|].
  destruct (_ || _); [apply undone_folder_loop|].
  apply respects_bind;
    [apply _|apply undone_quiet, quiet_findDuplicatesInFolderRecursive|].
  intros result. destruct (negb _); [apply respects_mret, _|].
  apply respects_bind; [apply _|apply undone_quiet, quiet_savable|].
  intros totalSpaceSaved.
  destruct (bool_decide _); [apply respects_mret, _|].
  apply undone_plan_then. apply respects_mret, _.
Qed.

(** X24: with [-y] nothing is deleted before the operator says [done].
    The retention loop is left by the command [done] only, so when no line
    of the input is [done], in any case of the letters,
    [letUserModifyRetention] does not return and [deduplicate] with
    automatic confirmation leaves the filesystem as it was. *)
Theorem yes_flag_needs_done duplicateGroups is_directory directory_iterator
    recursive_directory_iterator recursive_directories w :
  no_done (w_stdin w) →
  (∀ fuel keepFiles w',
     letUserModifyRetention fuel duplicateGroups w ≠ (Ret keepFiles, w'))
  ∧ (∀ dryRun samplePoints sampleSize mode fuel directory,
       w_fs (deduplicate dryRun true samplePoints sampleSize mode is_directory
               directory_iterator recursive_directory_iterator recursive_directories
               fuel directory w).2
       = w_fs w).
Proof.
  intros Hno. split.
  - intros fuel keepFiles w' E. unfold letUserModifyRetention in E.
    by apply retention_loop_done in E.
  - intros dryRun samplePoints sampleSize mode fuel directory.
    destruct (deduplicate _ _ _ _ _ _ _ _ _ _ _ _) as [r w'] eqn:Hrun.
    by destruct (undone_deduplicate _ _ _ _ _ _ _ _ _ _ _ _ _ Hrun Hno).
Qed.

Lemma yes_flag_needs_done_witness :
  (∀ fuel keepFiles w',
     letUserModifyRetention fuel [[sample_a; sample_b]]
       (World (w_fs world_pair) ["all"; "1"; "list"] [] [])
     ≠ (Ret keepFiles, w'))
  ∧ (∀ dryRun samplePoints sampleSize mode fuel directory,
       w_fs (deduplicate dryRun true samplePoints sampleSize mode (λ _, true)
               listing_pair listing_pair (λ _, []) fuel directory
               (World (w_fs world_pair) ["all"; "1"; "list"] [] [])).2
       = w_fs world_pair).
Proof.
  apply (yes_flag_needs_done [[sample_a; sample_b]] (λ _, true) listing_pair
           listing_pair (λ _, []) (World (w_fs world_pair) ["all"; "1"; "list"] [] [])).
  intros line H. cbn in H.
  repeat (apply elem_of_cons in H as [->|H]; [vm_compute; discriminate|]).
  by apply elem_of_nil in H.
Defined.

(** ** The default plan *)

Lemma doomed_members_after group : ∀ i,
  (1 ≤ i)%nat → doomed_members group {[ 1%nat ]} i = group.
Proof.
  induction group as [|p rest IH]; intros i Hi; cbn [doomed_members]; [done|].
  rewrite bool_decide_eq_false_2 by (rewrite elem_of_singleton; lia).
  rewrite IH by lia. done.
Qed.

Lemma doomed_members_first group : doomed_members group {[ 1%nat ]} 0 = tail group.
Proof.
  destruct group as [|p rest]; cbn [doomed_members tail]; [done|].
  rewrite bool_decide_eq_true_2 by by apply elem_of_singleton.
  by apply doomed_members_after.
Qed.

Lemma doomed_first duplicateGroups keepFiles : ∀ groupIndex,
  (∀ j, (j < length duplicateGroups)%nat →
        keepFiles !! (groupIndex + j)%nat = Some {[ 1%nat ]}) →
  doomed duplicateGroups keepFiles groupIndex = concat (map tail duplicateGroups).
Proof.
  induction duplicateGroups as [|group rest IH]; intros groupIndex Hkeep;
    cbn [doomed map concat]; [done|].
  pose proof (Hkeep 0%nat ltac:(cbn; lia)) as H0. rewrite Nat.add_0_r in H0.
  rewrite H0, doomed_members_first. f_equal. apply IH.
  intros j Hj. replace (S groupIndex + j)%nat with (groupIndex + S j)%nat by lia.
  apply Hkeep. cbn. lia.
Qed.

Lemma for_each_groups_ok duplicateGroups : ∀ i w,
  Forall (λ g, g ≠ [] ∧ Forall (λ p, is_Some (w_fs w !! p)) g) duplicateGroups →
  for_each duplicateGroups i (λ groupIndex group,
    match group with
    | [] => undefined
    | first :: _ => getFileSize first;; for_each group 0%nat (λ i p, show_member p)
    end) w = (Ret tt, w).
Proof.
  induction duplicateGroups as [|group rest IH]; intros i w Hall; cbn [for_each]; [done|].
  apply Forall_cons in Hall as [[Hne Hexist] Hall].
  destruct group as [|first members]; [done|].
  unfold bind at 1, bind at 1.
  pose proof Hexist as Hexist'. apply Forall_cons in Hexist' as [[f Hf] _].
  rewrite (getFileSize_run _ _ _ Hf).
  rewrite for_each_show_ok by done. by apply IH.
Qed.

Lemma displayDuplicateGroupsWithNumbers_ok duplicateGroups fs stdin out io :
  Forall (λ g, g ≠ [] ∧ Forall (λ p, is_Some (fs !! p)) g) duplicateGroups →
  displayDuplicateGroupsWithNumbers duplicateGroups (World fs stdin out io)
  = (Ret tt, World fs stdin (out ++ [OutListGroups]) io).
Proof.
  intros Hall. unfold displayDuplicateGroupsWithNumbers, bind at 1, emit. cbn.
  by apply for_each_groups_ok.
Qed.

(** X25: declining the customisation and confirming deletes all but the
    first member of every group.  When the members of the groups exist,
    the first answer is not a YES and the second is, the planning step
    consumes the two lines, changes no file and returns the default plan,
    under which the doomed files are exactly the members after the first of
    every group, in the order of the groups. *)
Theorem default_plan_keeps_first fuel duplicateGroups fs line1 line2 rest out io :
  Forall (λ g, g ≠ [] ∧ Forall (λ p, is_Some (fs !! p)) g) duplicateGroups →
  answer line1 false = false → answer line2 false = true →
  plan_and_confirm false fuel duplicateGroups (World fs (line1 :: line2 :: rest) out io)
  = (Ret (Some (default_plan duplicateGroups)),
     World fs rest
       (out ++ [OutListGroups; OutPrompt "customize retention?" false;
                OutPrompt "confirm delete?" false]) io)
  ∧ doomed duplicateGroups (default_plan duplicateGroups) 0
    = concat (map tail duplicateGroups).
Proof.
  intros Hall Hno Hyes. split.
  - unfold plan_and_confirm, bind at 1.
    rewrite displayDuplicateGroupsWithNumbers_ok by done.
    unfold bind at 1. rewrite askForConfirmation_line, Hno.
    unfold bind at 1, mret at 1. unfold bind at 1.
    rewrite askForConfirmation_line, Hyes. cbn [negb]. unfold mret.
    by rewrite <- !app_assoc.
  - apply doomed_first. intros j Hj. unfold default_plan.
    by apply lookup_replicate_2.
Qed.

Lemma default_plan_keeps_first_witness :
  plan_and_confirm false 3 [[sample_a; sample_b]]
    (World (w_fs world_pair) [""; "yes"; "done"] [] [])
  = (Ret (Some (default_plan [[sample_a; sample_b]])),
     World (w_fs world_pair) ["done"]
       ([] ++ [OutListGroups; OutPrompt "customize retention?" false;
               OutPrompt "confirm delete?" false]) [])
  ∧ doomed [[sample_a; sample_b]] (default_plan [[sample_a; sample_b]]) 0
    = concat (map tail [[sample_a; sample_b]]).
Proof.
  apply (default_plan_keeps_first 3 [[sample_a; sample_b]] (w_fs world_pair)
           "" "yes" ["done"] [] []).
  - repeat constructor; try done; eexists; vm_compute; reflexivity.
  - reflexivity.
  - reflexivity.
Defined.
